(** * Mixed-mode EBM level-3 solver: a shallow embedding of
      [src/solver/mixA3/mixA3.cc] (class [MixA3Solver]).

    Numbers.  [PetscScalar], [PetscReal] and [double] are embedded as exact
    rationals [Q]: every arithmetic expression of the source is written out
    operator by operator, but rounding, infinities and NaN of IEEE binary64
    are not modelled.  The quotient [a / b] of [Q] is [0] when [b == 0].
    Where a description speaks of an exact value, the scalar expressions
    concerned are embedded in binary64 as well (modules [Binary64] and
    [Rounded]).
    The libm functions [log] and [sqrt] and the unit constants of
    [PhysicalUnit] are not part of the translated sources and are taken as
    parameters.

    Arrays.  The raw arrays handed out by [VecGetArray] are total maps from
    indices to scalars; the source only ever reads and writes them at the
    offsets supplied by the index map, and an access outside the local
    vector is undefined behaviour in C++ that the embedding does not give a
    meaning to.

    Parallelism.  A run is a list of ranks; every rank holds its own view of
    the regions (its on-processor nodes) and its own local arrays, and the
    collectives [Parallel::max] and [Parallel::sum] combine one local value
    per rank. *)

From Stdlib Require Import QArith Qabs Qminmax Qfield Lqa ZArith List Bool Lia.
From Stdlib Require Import Floats.PrimFloat.
Import ListNotations.
Local Open Scope Q_scope.

(** ** Scalars and raw arrays *)

Definition PetscScalar : Type := Q.

Definition Array : Type := nat -> PetscScalar.

(** [a[i] = v] *)
Definition upd (a : Array) (i : nat) (v : PetscScalar) : Array :=
  fun j => if Nat.eqb j i then v else a j.

(** [a < b] of the source, as a boolean. *)
Definition Qltb (a b : Q) : bool :=
  if Qlt_le_dec a b then true else false.

(** [std::min(a, b)]: [b] when [b < a], else [a]. *)
Definition std_min (a b : Q) : Q :=
  if Qlt_le_dec b a then b else a.

(** Modelled from the spec: [std::sign] is declared outside the translated
    sources; the spec clips "by sign", so it is the usual sign function.  The
    source calls it only on arguments of magnitude above one. *)
Definition sign (a : Q) : Q :=
  if Qlt_le_dec 0 a then 1 else if Qlt_le_dec a 0 then -1 else 0.

(** ** PETSc vector operations used by the solver *)

Definition VecZeroEntries : Array := fun _ => 0.

(** [VecAXPY(y, a, x)]: [y <- y + a x]. *)
Definition VecAXPY (y : Array) (a : PetscScalar) (x : Array) : Array :=
  fun i => y i + a * x i.

(** [VecPointwiseMult(w, x, y)]: [w <- x .* y]. *)
Definition VecPointwiseMult (x y : Array) : Array :=
  fun i => x i * y i.

(** ** Data model *)

Module PhysicalUnit.
(** The unit constants imported by [using PhysicalUnit::...]. *)
Record t : Type := mk { cm : Q; K : Q; kb : Q; e : Q; A : Q }.
End PhysicalUnit.

Inductive SolutionVariable : Type :=
| POTENTIAL | ELECTRON | HOLE | TEMPERATURE | E_TEMP | H_TEMP.

(** The region types named by the source; [InvalidRegion] stands for any
    value that reaches the [default: genius_error()] branch of a switch. *)
Inductive SimulationRegionType : Type :=
| SemiconductorRegion | InsulatorRegion | ElectrodeRegion | MetalRegion
| VacuumRegion | InvalidRegion.

Definition is_semiconductor (t : SimulationRegionType) : bool :=
  match t with SemiconductorRegion => true | _ => false end.

Record AdvancedModel : Type := mkAdvancedModel
  { enable_Tl : bool; enable_Tn : bool; enable_Tp : bool }.

Module FVM_NodeData.
(** The time-history fields read through [fvm_node->node_data()]. *)
Record t : Type := mk
  { n : Q; n_last : Q; p : Q; p_last : Q; T : Q; T_last : Q;
    Tn : Q; Tn_last : Q; Tp : Q; Tp_last : Q }.
End FVM_NodeData.

Record FVM_Node : Type := mkFVM_Node
  { local_offset : nat; node_data : FVM_NodeData.t }.

Record SimulationRegion : Type := mkRegion
  { type : SimulationRegionType;
    get_advanced_model : AdvancedModel;
    ebm_variable_offset : SolutionVariable -> nat;
    ebm_n_variables : nat;
    on_processor_nodes : list FVM_Node }.

Definition n_on_processor_node (region : SimulationRegion) : nat :=
  length (on_processor_nodes region).

(** Modelled from the spec: the circuit engine is outside the translated
    sources; it enumerates circuit nodes, "their type (voltage/current)" and
    their offsets into the unified vector. *)
Inductive CktNodeType : Type := SP_VOLTAGE | SP_CURRENT.

Record CktNode : Type := mkCktNode
  { ckt_node_type : CktNodeType;
    array_offset_x : nat;
    array_offset_f : nat }.

Definition is_voltage_node (c : CktNode) : bool :=
  match ckt_node_type c with SP_VOLTAGE => true | SP_CURRENT => false end.

Definition is_current_node (c : CktNode) : bool :=
  match ckt_node_type c with SP_CURRENT => true | SP_VOLTAGE => false end.

(** One rank: [_system.region(0..n_regions-1)], [T_external], the circuit
    nodes [0..n_ckt_nodes-1] and [Genius::is_last_processor()]. *)
Record Process : Type := mkProcess
  { regions : list SimulationRegion;
    T_external : Q;
    ckt_nodes : list CktNode;
    is_last_processor : bool }.

Module SolverSpecify.
Inductive TemporalScheme : Type := BDF1 | BDF2.
Record t : Type := mk
  { dt : Q; dt_last : Q; dt_last_last : Q;
    TS_rtol : Q; TS_atol : Q;
    TS_type : TemporalScheme;
    BDF2_LowerOrder : bool;
    TimeDependent : bool }.
End SolverSpecify.

Module Parallel.
(** [Parallel::max]: the largest of the ranks' local values. *)
Definition max (locals : list Q) : Q :=
  match locals with
  | [] => 0
  | v :: vs => fold_left (fun m w => if Qlt_le_dec m w then w else m) vs v
  end.

(** [Parallel::sum] on integers. *)
Definition sum (locals : list Z) : Z := fold_left Z.add locals 0%Z.
End Parallel.

(** ** Time integrator: predictors of [LTE_norm] *)

(** The BDF1 branch (also taken by BDF2 with [BDF2_LowerOrder]):
    [VecZeroEntries(xp); VecAXPY(xp, 1+hn/hn1, x_n); VecAXPY(xp, -hn/hn1, x_n1)]. *)
Definition BDF1_predictor (hn hn1 : Q) (x_n x_n1 : Array) : Array :=
  VecAXPY (VecAXPY VecZeroEntries (1 + hn / hn1) x_n) (- hn / hn1) x_n1.

Definition BDF2_cn (hn hn1 hn2 : Q) : Q :=
  1 + hn * (hn + 2 * hn1 + hn2) / (hn1 * (hn1 + hn2)).

Definition BDF2_cn1 (hn hn1 hn2 : Q) : Q :=
  - hn * (hn + hn1 + hn2) / (hn1 * hn2).

Definition BDF2_cn2 (hn hn1 hn2 : Q) : Q :=
  hn * (hn + hn1) / (hn2 * (hn1 + hn2)).

Definition BDF2_predictor (hn hn1 hn2 : Q) (x_n x_n1 x_n2 : Array) : Array :=
  VecAXPY (VecAXPY (VecAXPY VecZeroEntries (BDF2_cn hn hn1 hn2) x_n)
                   (BDF2_cn1 hn hn1 hn2) x_n1)
          (BDF2_cn2 hn hn1 hn2) x_n2.

(** [xp] and the unscaled [LTE] vector after the [if (TS_type == ...)] block. *)
Definition LTE_predict (S : SolverSpecify.t) (x x_n x_n1 x_n2 : Array)
  : Array * Array :=
  let hn := SolverSpecify.dt S in
  let hn1 := SolverSpecify.dt_last S in
  let hn2 := SolverSpecify.dt_last_last S in
  let lower :=
    let xp := BDF1_predictor hn hn1 x_n x_n1 in
    (xp, VecAXPY (VecAXPY VecZeroEntries (hn / (hn + hn1)) x)
                 (- hn / (hn + hn1)) xp) in
  match SolverSpecify.TS_type S with
  | SolverSpecify.BDF1 => lower
  | SolverSpecify.BDF2 =>
      if SolverSpecify.BDF2_LowerOrder S then lower
      else
        let xp := BDF2_predictor hn hn1 hn2 x_n x_n1 x_n2 in
        (xp, VecAXPY (VecAXPY VecZeroEntries (hn / (hn + hn1 + hn2)) x)
                     (- hn / (hn + hn1 + hn2)) xp)
  end.

(** ** [BDF2_positive_defined] *)

(** [unsigned int] arithmetic wraps modulo 2^32. *)
Definition wrap32 (z : Z) : Z := (z mod 2 ^ 32)%Z.

(** [if (c) failure_count++;] *)
Definition count_if (c : bool) (failure_count : Z) : Z :=
  if c then wrap32 (failure_count + 1) else failure_count.

(** The body of the node loop. *)
Definition BDF2_check_node (a b : Q) (model : AdvancedModel)
    (failure_count : Z) (fvm_node : FVM_Node) : Z :=
  let d := node_data fvm_node in
  let failure_count :=
    count_if (Qltb (a * FVM_NodeData.n d) (b * FVM_NodeData.n_last d))
             failure_count in
  let failure_count :=
    count_if (Qltb (a * FVM_NodeData.p d) (b * FVM_NodeData.p_last d))
             failure_count in
  let failure_count :=
    if enable_Tl model
    then count_if (Qltb (a * FVM_NodeData.T d) (b * FVM_NodeData.T_last d))
                  failure_count
    else failure_count in
  let failure_count :=
    if enable_Tn model
    then count_if (Qltb (a * FVM_NodeData.n d * FVM_NodeData.Tn d)
                        (b * FVM_NodeData.n_last d * FVM_NodeData.Tn_last d))
                  failure_count
    else failure_count in
  if enable_Tp model
  then count_if (Qltb (a * FVM_NodeData.p d * FVM_NodeData.Tp d)
                      (b * FVM_NodeData.p_last d * FVM_NodeData.Tp_last d))
                failure_count
  else failure_count.

(** The body of the region loop. *)
Definition BDF2_check_region (a b : Q) (failure_count : Z)
    (region : SimulationRegion) : Z :=
  if is_semiconductor (type region)
  then fold_left (BDF2_check_node a b (get_advanced_model region))
                 (on_processor_nodes region) failure_count
  else failure_count.

(** [failure_count] of one rank just before [Parallel::sum]. *)
Definition BDF2_failure_count (a b : Q) (P : Process) : Z :=
  fold_left (BDF2_check_region a b) (regions P) 0%Z.

Definition BDF2_r (S : SolverSpecify.t) : Q :=
  SolverSpecify.dt_last S / (SolverSpecify.dt_last S + SolverSpecify.dt S).
Definition BDF2_a (S : SolverSpecify.t) : Q :=
  1 / (BDF2_r S * (1 - BDF2_r S)).
Definition BDF2_b (S : SolverSpecify.t) : Q :=
  (1 - BDF2_r S) / BDF2_r S.

(** [bool MixA3Solver::BDF2_positive_defined() const], run on all ranks:
    [Parallel::sum(failure_count); return failure_count != 0;] *)
Definition BDF2_positive_defined (S : SolverSpecify.t) (procs : list Process)
  : bool :=
  let a := BDF2_a S in
  let b := BDF2_b S in
  let failure_count :=
    wrap32 (Parallel.sum (map (BDF2_failure_count a b) procs)) in
  negb (Z.eqb failure_count 0).

(** The positivity condition of the time-integrator description at one
    node: [a xi_new >= b xi_last] for every active quantity. *)
Definition BDF2_node_ok (a b : Q) (model : AdvancedModel) (fvm_node : FVM_Node)
  : Prop :=
  let d := node_data fvm_node in
  b * FVM_NodeData.n_last d <= a * FVM_NodeData.n d /\
  b * FVM_NodeData.p_last d <= a * FVM_NodeData.p d /\
  (enable_Tl model = true ->
   b * FVM_NodeData.T_last d <= a * FVM_NodeData.T d) /\
  (enable_Tn model = true ->
   b * FVM_NodeData.n_last d * FVM_NodeData.Tn_last d
   <= a * FVM_NodeData.n d * FVM_NodeData.Tn d) /\
  (enable_Tp model = true ->
   b * FVM_NodeData.p_last d * FVM_NodeData.Tp_last d
   <= a * FVM_NodeData.p d * FVM_NodeData.Tp d).

(** The condition at every semiconductor on-processor node of every rank. *)
Definition BDF2_all_ok (S : SolverSpecify.t) (procs : list Process) : Prop :=
  forall P region fvm_node,
    In P procs -> In region (regions P) ->
    type region = SemiconductorRegion ->
    In fvm_node (on_processor_nodes region) ->
    BDF2_node_ok (BDF2_a S) (BDF2_b S) (get_advanced_model region) fvm_node.

(** ** Newton damping *)

Section Damping.
Variable PU : PhysicalUnit.t.
(** libm's [log]. *)
Variable log : Q -> Q.

(** [1.0*std::pow(cm,-3)] *)
Definition onePerCMC : Q := 1 * PhysicalUnit.cm PU ^ (-3).

(** [if (ww[i] < lo) ww[i] = lo;] *)
Definition clamp_below (ww : Array) (i : nat) (lo : Q) : Array :=
  if Qlt_le_dec (ww i) lo then upd ww i lo else ww.

(** The carrier-temperature block shared by the damping routines:
<<
    PetscScalar n0=xx[i_n];  PetscScalar n1=ww[i_n];
    PetscScalar T0=xx[i_T]/n0;
    PetscScalar T1=T0*(1-std::min(n1/n0,2.0)) + ww[i_T]/n0;
    if (T1 < 0.9*T_external) T1 = 0.9*T_external;
    ww[i_T] = T1*n1;
>> *)
Definition carrier_T1 (T_ext n0 n1 w0 w1 : Q) : Q :=
  let T0 := w0 / n0 in
  let T1 := T0 * (1 - std_min (n1 / n0) 2) + w1 / n0 in
  if Qlt_le_dec T1 ((9 # 10) * T_ext) then (9 # 10) * T_ext else T1.

Definition carrier_temperature (T_ext : Q) (xx ww : Array) (i_n i_T : nat)
  : Array :=
  let n0 := xx i_n in
  let n1 := ww i_n in
  upd ww i_T (carrier_T1 T_ext n0 n1 (xx i_T) (ww i_T) * n1).

(** *** [potential_damping] *)

(** Body of the node loop of the first region loop; the state is
    [(dV_max, ww)]. *)
Definition potential_scan_node (T_ext : Q) (region : SimulationRegion)
    (xx yy : Array) (st : Q * Array) (fvm_node : FVM_Node) : Q * Array :=
  let '(dV_max, ww) := st in
  let node_psi_offset := ebm_variable_offset region POTENTIAL in
  let node_n_offset := ebm_variable_offset region ELECTRON in
  let node_p_offset := ebm_variable_offset region HOLE in
  let node_Tl_offset := ebm_variable_offset region TEMPERATURE in
  let node_Tn_offset := ebm_variable_offset region E_TEMP in
  let node_Tp_offset := ebm_variable_offset region H_TEMP in
  let local_offset := local_offset fvm_node in
  let dV_max :=
    if Qlt_le_dec dV_max (Qabs (yy (local_offset + node_psi_offset)%nat))
    then Qabs (yy (local_offset + node_psi_offset)%nat) else dV_max in
  let ww := clamp_below ww (local_offset + node_n_offset) onePerCMC in
  let ww := clamp_below ww (local_offset + node_p_offset) onePerCMC in
  let ww :=
    if enable_Tl (get_advanced_model region)
    then clamp_below ww (local_offset + node_Tl_offset)
                     (T_ext - 50 * PhysicalUnit.K PU)
    else ww in
  let ww :=
    if enable_Tn (get_advanced_model region)
    then carrier_temperature T_ext xx ww (local_offset + node_n_offset)
                             (local_offset + node_Tn_offset)
    else ww in
  let ww :=
    if enable_Tp (get_advanced_model region)
    then carrier_temperature T_ext xx ww (local_offset + node_p_offset)
                             (local_offset + node_Tp_offset)
    else ww in
  (dV_max, ww).

Definition potential_scan_region (T_ext : Q) (xx yy : Array)
    (st : Q * Array) (region : SimulationRegion) : Q * Array :=
  if is_semiconductor (type region)
  then fold_left (potential_scan_node T_ext region xx yy)
                 (on_processor_nodes region) st
  else st.

(** The first region loop on one rank: the local [dV_max] and [ww] just
    before [Parallel::max(dV_max)]. *)
Definition potential_scan (P : Process) (xx yy ww : Array) : Q * Array :=
  fold_left (potential_scan_region (T_external P) xx yy) (regions P)
            (0, ww).

(** [f = log(1+dV_max/Vt)/(dV_max/Vt)] with [Vt = kb*T_external/e]. *)
Definition damping_Vt (T_ext : Q) : Q :=
  PhysicalUnit.kb PU * T_ext / PhysicalUnit.e PU.
Definition damping_factor (T_ext dV_max : Q) : Q :=
  log (1 + dV_max / damping_Vt T_ext) / (dV_max / damping_Vt T_ext).

(** Body of the second region loop (every region: the type test is
    commented out in the source). *)
Definition potential_update_region (f : Q) (xx yy : Array) (ww : Array)
    (region : SimulationRegion) : Array :=
  let node_psi_offset := ebm_variable_offset region POTENTIAL in
  fold_left
    (fun ww fvm_node =>
       let local_offset := local_offset fvm_node in
       upd ww (local_offset + node_psi_offset)
           (xx (local_offset + node_psi_offset)%nat
            - f * yy (local_offset + node_psi_offset)%nat))
    (on_processor_nodes region) ww.

(** Body of the circuit-node loop. *)
Definition potential_damp_ckt_node (xx yy : Array) (ww : Array)
    (c : CktNode) : Array :=
  let ww :=
    if is_voltage_node c then
      let array_offset_x := array_offset_x c in
      let dV_max := Qabs (yy array_offset_x) in
      if Qlt_le_dec 5 dV_max then
        let damp_factor := 5 / dV_max in
        upd ww array_offset_x
            (xx array_offset_x - damp_factor * yy array_offset_x)
      else ww
    else ww in
  if is_current_node c then
    let array_offset_x := array_offset_x c in
    let dI_max := Qabs (yy array_offset_x) in
    if Qlt_le_dec 1 dI_max then
      let damp_factor := 1 / dI_max in
      upd ww array_offset_x
          (xx array_offset_x - damp_factor * yy array_offset_x)
    else ww
  else ww.

(** Everything after [Parallel::max(dV_max)] on one rank. *)
Definition potential_finish (P : Process) (dV_max : Q) (xx yy ww : Array)
  : Array :=
  let ww :=
    if Qlt_le_dec (1 # 1000000) dV_max then
      let f := damping_factor (T_external P) dV_max in
      fold_left (potential_update_region f xx yy) (regions P) ww
    else ww in
  if is_last_processor P
  then fold_left (potential_damp_ckt_node xx yy) (ckt_nodes P) ww
  else ww.

(** A rank together with its local arrays [xx], [yy], [ww]. *)
Record DampingRank : Type := mkDampingRank
  { rk_proc : Process; rk_x : Array; rk_y : Array; rk_w : Array }.

(** The globally reduced [dV_max]. *)
Definition potential_dV_max (ranks : list DampingRank) : Q :=
  Parallel.max
    (map (fun r => fst (potential_scan (rk_proc r) (rk_x r) (rk_y r)
                                       (rk_w r)))
         ranks).

(** [void MixA3Solver::potential_damping(x, y, w, ...)]: the array [ww] of
    rank [r] on return, in a run on the ranks [ranks]. *)
Definition potential_damping (ranks : list DampingRank) (r : DampingRank)
  : Array :=
  potential_finish (rk_proc r) (potential_dV_max ranks) (rk_x r) (rk_y r)
    (snd (potential_scan (rk_proc r) (rk_x r) (rk_y r) (rk_w r))).

(** *** [positive_density_damping] *)

Definition positive_density_node (T_ext : Q) (region : SimulationRegion)
    (xx yy : Array) (ww : Array) (fvm_node : FVM_Node) : Array :=
  let node_psi_offset := ebm_variable_offset region POTENTIAL in
  let node_n_offset := ebm_variable_offset region ELECTRON in
  let node_p_offset := ebm_variable_offset region HOLE in
  let node_Tl_offset := ebm_variable_offset region TEMPERATURE in
  let node_Tn_offset := ebm_variable_offset region E_TEMP in
  let node_Tp_offset := ebm_variable_offset region H_TEMP in
  let local_offset := local_offset fvm_node in
  let ww :=
    if Qlt_le_dec 1 (Qabs (yy (local_offset + node_psi_offset)%nat))
    then upd ww (local_offset + node_psi_offset)
             (xx (local_offset + node_psi_offset)%nat
              - sign (yy (local_offset + node_psi_offset)%nat) * 1)
    else ww in
  let ww :=
    (* the test reads [ww[local_offset+1]] *)
    if Qlt_le_dec (ww (local_offset + 1)%nat) onePerCMC
    then upd ww (local_offset + node_n_offset) onePerCMC
    else ww in
  let ww := clamp_below ww (local_offset + node_p_offset) onePerCMC in
  let ww :=
    if enable_Tl (get_advanced_model region)
    then clamp_below ww (local_offset + node_Tl_offset)
                     (T_ext - 50 * PhysicalUnit.K PU)
    else ww in
  let ww :=
    if enable_Tn (get_advanced_model region)
    then carrier_temperature T_ext xx ww (local_offset + node_n_offset)
                             (local_offset + node_Tn_offset)
    else ww in
  if enable_Tp (get_advanced_model region)
  then carrier_temperature T_ext xx ww (local_offset + node_p_offset)
                           (local_offset + node_Tp_offset)
  else ww.

Definition positive_density_region (T_ext : Q) (xx yy : Array)
    (ww : Array) (region : SimulationRegion) : Array :=
  if is_semiconductor (type region)
  then fold_left (positive_density_node T_ext region xx yy)
                 (on_processor_nodes region) ww
  else ww.

(** [void MixA3Solver::positive_density_damping(x, y, w, ...)] on one
    rank (the routine has no collective). *)
Definition positive_density_damping (P : Process) (xx yy ww : Array)
  : Array :=
  fold_left (positive_density_region (T_external P) xx yy) (regions P) ww.

End Damping.

(** ** [LTE_norm] *)

(** Conversion of a 32-bit pattern to [int]. *)
Definition int32 (z : Z) : Z := ((z + 2 ^ 31) mod 2 ^ 32 - 2 ^ 31)%Z.

Section LTE.
(** libm's [sqrt]. *)
Variable sqrt : Q -> Q.

(** [ll[i_f] = ll[i_f]/(eps_r*xx[i_x]+eps_a);] *)
Definition LTE_scale (eps_r eps_a : Q) (xx ll : Array) (i_f i_x : nat)
  : Array :=
  upd ll i_f (ll i_f / (eps_r * xx i_x + eps_a)).

(** Node loop body of [case SemiconductorRegion]. *)
Definition LTE_node_semiconductor (eps_r eps_a : Q)
    (region : SimulationRegion) (xx : Array) (ll : Array)
    (fvm_node : FVM_Node) : Array :=
  let node_psi_offset := ebm_variable_offset region POTENTIAL in
  let node_n_offset := ebm_variable_offset region ELECTRON in
  let node_p_offset := ebm_variable_offset region HOLE in
  let node_Tl_offset := ebm_variable_offset region TEMPERATURE in
  let node_Tn_offset := ebm_variable_offset region E_TEMP in
  let node_Tp_offset := ebm_variable_offset region H_TEMP in
  let local_offset := local_offset fvm_node in
  let ll := upd ll (local_offset + node_psi_offset) 0 in
  let ll := LTE_scale eps_r eps_a xx ll (local_offset + node_n_offset)
                      (local_offset + node_n_offset) in
  let ll := LTE_scale eps_r eps_a xx ll (local_offset + node_p_offset)
                      (local_offset + node_p_offset) in
  let ll :=
    if enable_Tl (get_advanced_model region)
    then LTE_scale eps_r eps_a xx ll (local_offset + node_Tl_offset)
                   (local_offset + node_Tl_offset)
    else ll in
  let ll :=
    if enable_Tn (get_advanced_model region)
    then LTE_scale eps_r eps_a xx ll (local_offset + node_Tn_offset)
                   (local_offset + node_Tn_offset)
    else ll in
  if enable_Tp (get_advanced_model region)
  then LTE_scale eps_r eps_a xx ll (local_offset + node_Tp_offset)
                 (local_offset + node_Tp_offset)
  else ll.

(** Node loop body of [case InsulatorRegion: ElectrodeRegion: MetalRegion]. *)
Definition LTE_node_insulator (eps_r eps_a : Q)
    (region : SimulationRegion) (xx : Array) (ll : Array)
    (fvm_node : FVM_Node) : Array :=
  let node_psi_offset := ebm_variable_offset region POTENTIAL in
  let node_Tl_offset := ebm_variable_offset region TEMPERATURE in
  let local_offset := local_offset fvm_node in
  let ll := upd ll (local_offset + node_psi_offset) 0 in
  if enable_Tl (get_advanced_model region)
  then LTE_scale eps_r eps_a xx ll (local_offset + node_Tl_offset)
                 (local_offset + node_Tl_offset)
  else ll.

(** [(region->ebm_n_variables()-1)*region->n_on_processor_node()], in
    [unsigned int]. *)
Definition LTE_region_count (region : SimulationRegion) : Z :=
  wrap32 (wrap32 (Z.of_nat (ebm_n_variables region) - 1)
          * Z.of_nat (n_on_processor_node region)).

(** [N += u] for [int N] and [unsigned int u]. *)
Definition int_plus_unsigned (N u : Z) : Z := int32 (wrap32 (N + u)).

(** Body of the region loop; the state is [(ll, N)], and [None] once
    [genius_error()] was reached. *)
Definition LTE_region (eps_r eps_a : Q) (xx : Array)
    (st : option (Array * Z)) (region : SimulationRegion)
  : option (Array * Z) :=
  match st with
  | None => None
  | Some (ll, N) =>
      match type region with
      | SemiconductorRegion =>
          Some (fold_left (LTE_node_semiconductor eps_r eps_a region xx)
                          (on_processor_nodes region) ll,
                int_plus_unsigned N (LTE_region_count region))
      | InsulatorRegion | ElectrodeRegion | MetalRegion =>
          Some (fold_left (LTE_node_insulator eps_r eps_a region xx)
                          (on_processor_nodes region) ll,
                int_plus_unsigned N (LTE_region_count region))
      | VacuumRegion => Some (ll, N)
      | InvalidRegion => None
      end
  end.

(** The circuit block, on the last processor. *)
Definition LTE_circuit (eps_r eps_a : Q) (P : Process) (xx : Array)
    (st : Array * Z) : Array * Z :=
  let '(ll, N) := st in
  if is_last_processor P then
    (fold_left
       (fun ll c =>
          LTE_scale eps_r eps_a xx ll (array_offset_f c) (array_offset_x c))
       (ckt_nodes P) ll,
     int_plus_unsigned N (wrap32 (Z.of_nat (length (ckt_nodes P)))))
  else (ll, N).

(** A rank with the locally owned length of its vectors and its local
    arrays of [x], [x_n], [x_n1], [x_n2]. *)
Record LTERank : Type := mkLTERank
  { lte_proc : Process; lte_local_size : nat;
    lte_x : Array; lte_x_n : Array; lte_x_n1 : Array; lte_x_n2 : Array }.

(** The scaled array [ll] and the local [N] of one rank, just before
    [VecNorm]. *)
Definition LTE_local (S : SolverSpecify.t) (r : LTERank)
  : option (Array * Z) :=
  let eps_r := SolverSpecify.TS_rtol S in
  let eps_a := SolverSpecify.TS_atol S in
  let xx := lte_x r in
  let ll :=
    snd (LTE_predict S (lte_x r) (lte_x_n r) (lte_x_n1 r) (lte_x_n2 r)) in
  match fold_left (LTE_region eps_r eps_a xx) (regions (lte_proc r))
                  (Some (ll, 0%Z)) with
  | None => None
  | Some st => Some (LTE_circuit eps_r eps_a (lte_proc r) xx st)
  end.

Definition sum_squares (size : nat) (a : Array) : Q :=
  fold_left (fun s i => s + a i * a i) (seq 0 size) 0.

(** [VecNorm(v, NORM_2, &r)] of a vector distributed over the ranks. *)
Definition VecNorm_2 (parts : list (nat * Array)) : Q :=
  sqrt (fold_left (fun s part => s + sum_squares (fst part) (snd part))
                  parts 0).

Fixpoint collect {A : Type} (l : list (option A)) : option (list A) :=
  match l with
  | [] => Some []
  | None :: _ => None
  | Some a :: l' =>
      match collect l' with Some r => Some (a :: r) | None => None end
  end.

(** The globally summed [N]. *)
Definition LTE_N (locals : list (Array * Z)) : Z :=
  int32 (Parallel.sum (map snd locals)).

(** [PetscReal MixA3Solver::LTE_norm()]; [None] when some rank reaches
    [genius_error()]. *)
Definition LTE_norm (S : SolverSpecify.t) (ranks : list LTERank)
  : option Q :=
  match collect (map (LTE_local S) ranks) with
  | None => None
  | Some locals =>
      let r :=
        VecNorm_2 (combine (map lte_local_size ranks) (map fst locals)) in
      let N := LTE_N locals in
      if Z.ltb 0 N then Some (r / sqrt (inject_Z N)) else Some 1
  end.

End LTE.

(** ** Residual and Jacobian assembly *)

Inductive InsertMode : Type := NOT_SET_VALUES | INSERT_VALUES | ADD_VALUES.

(** A matrix handle: its entries and the option [MAT_IGNORE_ZERO_ENTRIES]. *)
Record Mat : Type := mkMat
  { entries : nat -> nat -> PetscScalar; ignore_zero_entries : bool }.

(** The row lists [src_row], [dst_row], [clear_row] filled by the
    preprocess phase. *)
Record RowLists : Type := mkRowLists
  { src_row : list nat; dst_row : list nat; clear_row : list nat }.

Module Region.
(** The assembly entry points of [SimulationRegion]; their bodies are
    outside the translated sources.  Each takes the local solution array
    and the insertion-mode flag passed by reference. *)
Record t : Type := mk
  { EBM3_Function : Array -> Array -> InsertMode -> Array * InsertMode;
    EBM3_Time_Dependent_Function
      : Array -> Array -> InsertMode -> Array * InsertMode;
    EBM3_Function_Hanging_Node
      : Array -> Array -> InsertMode -> Array * InsertMode;
    EBM3_Jacobian : Array -> Mat -> InsertMode -> Mat * InsertMode;
    EBM3_Time_Dependent_Jacobian
      : Array -> Mat -> InsertMode -> Mat * InsertMode;
    EBM3_Jacobian_Hanging_Node
      : Array -> Mat -> InsertMode -> Mat * InsertMode }.
End Region.

Module BC.
(** The assembly entry points of [BoundaryCondition]. *)
Record t : Type := mk
  { is_spice_electrode : bool;
    EBM3_Function_Preprocess : Array -> Array -> RowLists -> Array * RowLists;
    MixA_EBM3_Function_Preprocess
      : Array -> Array -> RowLists -> Array * RowLists;
    EBM3_Function : Array -> Array -> InsertMode -> Array * InsertMode;
    MixA_EBM3_Function : Array -> Array -> InsertMode -> Array * InsertMode;
    EBM3_Jacobian_Reserve : Mat -> InsertMode -> Mat * InsertMode;
    MixA_EBM3_Jacobian_Reserve : Mat -> InsertMode -> Mat * InsertMode;
    EBM3_Jacobian_Preprocess : Array -> Mat -> RowLists -> Mat * RowLists;
    MixA_EBM3_Jacobian_Preprocess
      : Array -> Mat -> RowLists -> Mat * RowLists;
    EBM3_Jacobian : Array -> Mat -> InsertMode -> Mat * InsertMode;
    MixA_EBM3_Jacobian : Array -> Mat -> InsertMode -> Mat * InsertMode }.
End BC.

(** What the assembly routines reach through [_system], [_system.get_bcs()],
    the base-class circuit hooks and the scatter context. *)
Record AssemblySystem : Type := mkAssemblySystem
  { n_regions : nat;
    region : nat -> Region.t;
    n_bcs : nat;
    get_bc : nat -> BC.t;
    build_spice_function : Array -> Array -> InsertMode -> Array * InsertMode;
    build_spice_jacobian : Array -> Mat -> InsertMode -> Mat * InsertMode;
    (** [VecScatterBegin/End(scatter, x, lx, INSERT_VALUES, SCATTER_FORWARD)] *)
    scatter : Array -> Array }.

(** [for (unsigned int n = 0; n < count; n++) body(n)] *)
Fixpoint for_loop {St : Type} (count : nat) (body : nat -> St -> St) (st : St)
  : St :=
  match count with
  | O => st
  | S k => body k (for_loop k body st)
  end.

(** Modelled from the spec: [PetscUtils::VecAddClearRow] is outside the
    translated sources; it "adds each src row into the corresponding dst
    row" (the source rows as assembled before the call) and then "zeroes
    every clear row". *)
Definition VecAddClearRow (r : Array) (rows : RowLists) : Array :=
  let added :=
    fold_left (fun v sd => upd v (snd sd) (v (snd sd) + r (fst sd)))
              (combine (src_row rows) (dst_row rows)) r in
  fold_left (fun v c => upd v c 0) (clear_row rows) added.

(** Modelled from the spec: [PetscUtils::MatAddRowToRow], the same on the
    rows of a matrix. *)
Definition MatAddRowToRow (J : Mat) (src dst : list nat) : Mat :=
  mkMat
    (fold_left
       (fun m sd =>
          fun i j =>
            if Nat.eqb i (snd sd) then m i j + entries J (fst sd) j
            else m i j)
       (combine src dst) (entries J))
    (ignore_zero_entries J).

(** Modelled from the spec: [PetscUtils::MatZeroRows(J, n, rows, 0.0)] zeroes
    every listed row, the diagonal entry included. *)
Definition MatZeroRows (J : Mat) (rows : list nat) : Mat :=
  mkMat
    (fun i j => if existsb (Nat.eqb i) rows then 0 else entries J i j)
    (ignore_zero_entries J).

(** [MatZeroEntries(J)] *)
Definition MatZeroEntries (J : Mat) : Mat :=
  mkMat (fun _ _ => 0) (ignore_zero_entries J).

(** [MatDiagonalScale(J, L, PETSC_NULL)]: [J <- diag(L) J]. *)
Definition MatDiagonalScale (J : Mat) (L : Array) : Mat :=
  mkMat (fun i j => L i * entries J i j) (ignore_zero_entries J).

(** [MatGetDiagonal(J, v)] *)
Definition MatGetDiagonal (J : Mat) : Array := fun i => entries J i i.

Section Residual.
Variable sys : AssemblySystem.
Variable TimeDependent : bool.

(** [void MixA3Solver::build_petsc_sens_residual(Vec x, Vec r)], with the
    scaling vector [L] of the solver; the result is [r] on return. *)
Definition build_petsc_sens_residual (L : Array) (x r : Array) : Array :=
  let lxx := scatter sys x in
  let r := VecZeroEntries in
  let add_value_flag := NOT_SET_VALUES in
  let st :=
    for_loop (n_regions sys)
      (fun n st => Region.EBM3_Function (region sys n) lxx (fst st) (snd st))
      (r, add_value_flag) in
  let st :=
    if TimeDependent then
      for_loop (n_regions sys)
        (fun n st =>
           Region.EBM3_Time_Dependent_Function (region sys n) lxx
             (fst st) (snd st))
        st
    else st in
  let st :=
    for_loop (n_regions sys)
      (fun n st =>
         Region.EBM3_Function_Hanging_Node (region sys n) lxx
           (fst st) (snd st))
      st in
  let st := build_spice_function sys lxx (fst st) (snd st) in
  let pre :=
    for_loop (n_bcs sys)
      (fun b pre =>
         let bc := get_bc sys b in
         if BC.is_spice_electrode bc
         then BC.MixA_EBM3_Function_Preprocess bc lxx (fst pre) (snd pre)
         else BC.EBM3_Function_Preprocess bc lxx (fst pre) (snd pre))
      (fst st, mkRowLists [] [] []) in
  let r := VecAddClearRow (fst pre) (snd pre) in
  let add_value_flag := NOT_SET_VALUES in
  let st :=
    for_loop (n_bcs sys)
      (fun b st =>
         let bc := get_bc sys b in
         if BC.is_spice_electrode bc
         then BC.MixA_EBM3_Function bc lxx (fst st) (snd st)
         else BC.EBM3_Function bc lxx (fst st) (snd st))
      (r, add_value_flag) in
  VecPointwiseMult (fst st) L.

(** The assembly order of the nonlinear-driver description, as data: one
    stage per call, acting on the residual, the insertion-mode flag and
    the row lists. *)
Inductive ResidualStage : Type :=
| StZero
| StRegion (n : nat)
| StTimeDependent (n : nat)
| StHangingNode (n : nat)
| StCircuit
| StBCPreprocess (b : nat)
| StApplyRows
| StBCAssemble (b : nat)
| StScale.

Record ResidualState : Type := mkResidualState
  { res_r : Array; res_flag : InsertMode; res_rows : RowLists }.

Definition lift_rf (f : Array -> InsertMode -> Array * InsertMode)
    (st : ResidualState) : ResidualState :=
  let rf := f (res_r st) (res_flag st) in
  mkResidualState (fst rf) (snd rf) (res_rows st).

Definition run_residual_stage (L lxx : Array) (st : ResidualState)
    (s : ResidualStage) : ResidualState :=
  match s with
  | StZero =>
      mkResidualState VecZeroEntries NOT_SET_VALUES (mkRowLists [] [] [])
  | StRegion n => lift_rf (Region.EBM3_Function (region sys n) lxx) st
  | StTimeDependent n =>
      lift_rf (Region.EBM3_Time_Dependent_Function (region sys n) lxx) st
  | StHangingNode n =>
      lift_rf (Region.EBM3_Function_Hanging_Node (region sys n) lxx) st
  | StCircuit => lift_rf (build_spice_function sys lxx) st
  | StBCPreprocess b =>
      let bc := get_bc sys b in
      let rr :=
        (if BC.is_spice_electrode bc
         then BC.MixA_EBM3_Function_Preprocess bc
         else BC.EBM3_Function_Preprocess bc) lxx (res_r st) (res_rows st) in
      mkResidualState (fst rr) (res_flag st) (snd rr)
  | StApplyRows =>
      mkResidualState (VecAddClearRow (res_r st) (res_rows st))
                      NOT_SET_VALUES (res_rows st)
  | StBCAssemble b =>
      let bc := get_bc sys b in
      lift_rf ((if BC.is_spice_electrode bc
                then BC.MixA_EBM3_Function bc
                else BC.EBM3_Function bc) lxx) st
  | StScale =>
      mkResidualState (VecPointwiseMult (res_r st) L) (res_flag st)
                      (res_rows st)
  end.

Definition residual_schedule : list ResidualStage :=
  [StZero]
  ++ map StRegion (seq 0 (n_regions sys))
  ++ (if TimeDependent then map StTimeDependent (seq 0 (n_regions sys))
      else [])
  ++ map StHangingNode (seq 0 (n_regions sys))
  ++ [StCircuit]
  ++ map StBCPreprocess (seq 0 (n_bcs sys))
  ++ [StApplyRows]
  ++ map StBCAssemble (seq 0 (n_bcs sys))
  ++ [StScale].

End Residual.

Section Jacobian.
Variable sys : AssemblySystem.
Variable TimeDependent : bool.

(** The members the routine works on: the matrix [J], the scaling vector
    [L] and the flag [jacobian_matrix_first_assemble]. *)
Record JacobianState : Type := mkJacobianState
  { jac_J : Mat; jac_L : Array; jacobian_matrix_first_assemble : bool }.

(** [build_petsc_sens_jacobian] up to and including the final
    [MatAssemblyBegin/End]: the assembled, not yet scaled matrix. *)
Definition jacobian_assemble (x : Array) (st : JacobianState) : Mat :=
  let lxx := scatter sys x in
  let J := MatZeroEntries (jac_J st) in
  let add_value_flag := NOT_SET_VALUES in
  let s :=
    for_loop (n_regions sys)
      (fun n s => Region.EBM3_Jacobian (region sys n) lxx (fst s) (snd s))
      (J, add_value_flag) in
  let s :=
    if TimeDependent then
      for_loop (n_regions sys)
        (fun n s =>
           Region.EBM3_Time_Dependent_Jacobian (region sys n) lxx
             (fst s) (snd s))
        s
    else s in
  let s :=
    for_loop (n_regions sys)
      (fun n s =>
         Region.EBM3_Jacobian_Hanging_Node (region sys n) lxx
           (fst s) (snd s))
      s in
  let s := build_spice_jacobian sys lxx (fst s) (snd s) in
  let s :=
    if negb (jacobian_matrix_first_assemble st) then
      for_loop (n_bcs sys)
        (fun b s =>
           let bc := get_bc sys b in
           if BC.is_spice_electrode bc
           then BC.MixA_EBM3_Jacobian_Reserve bc (fst s) (snd s)
           else BC.EBM3_Jacobian_Reserve bc (fst s) (snd s))
        s
    else s in
  let J :=
    if negb (jacobian_matrix_first_assemble st)
    then mkMat (entries (fst s)) true
    else fst s in
  let pre :=
    for_loop (n_bcs sys)
      (fun b pre =>
         let bc := get_bc sys b in
         if BC.is_spice_electrode bc
         then BC.MixA_EBM3_Jacobian_Preprocess bc lxx (fst pre) (snd pre)
         else BC.EBM3_Jacobian_Preprocess bc lxx (fst pre) (snd pre))
      (J, mkRowLists [] [] []) in
  let J := MatAddRowToRow (fst pre) (src_row (snd pre)) (dst_row (snd pre)) in
  let J := MatZeroRows J (clear_row (snd pre)) in
  let add_value_flag := NOT_SET_VALUES in
  let s :=
    for_loop (n_bcs sys)
      (fun b s =>
         let bc := get_bc sys b in
         if BC.is_spice_electrode bc
         then BC.MixA_EBM3_Jacobian bc lxx (fst s) (snd s)
         else BC.EBM3_Jacobian bc lxx (fst s) (snd s))
      (J, add_value_flag) in
  fst s.

(** [void MixA3Solver::build_petsc_sens_jacobian(Vec x, ...)]:
    after the assembly, [MatDiagonalScale(J, L, PETSC_NULL)]; the two
    statements [MatGetDiagonal(J, L); VecReciprocal(L);] are commented out
    in the source; then the first-assemble flag is set. *)
Definition build_petsc_sens_jacobian (x : Array) (st : JacobianState)
  : JacobianState :=
  let J := jacobian_assemble x st in
  let J := MatDiagonalScale J (jac_L st) in
  mkJacobianState J (jac_L st) true.

End Jacobian.

(** ** Accepting and rolling back a solve *)

Section Recovery.
(** The per-node data kept by a region and the state of the circuit
    engine; both live outside the translated sources. *)
Variable RegionData : Type.
Variable CircuitData : Type.

Record SolverState : Type := mkSolverState
  { sol_x : Array; sol_L : Array; sol_lx : Array;
    sol_regions : list RegionData; sol_circuit : CircuitData }.

(** The calls made by the two routines. *)
Record SolverHooks : Type := mkSolverHooks
  { (** [region->EBM3_Fill_Value(x, L)] *)
    EBM3_Fill_Value : RegionData -> Array -> Array -> Array * Array;
    (** [region->EBM3_Update_Solution(lxx)] *)
    EBM3_Update_Solution : RegionData -> Array -> RegionData;
    (** [_circuit->save_solution()] *)
    save_solution : CircuitData -> CircuitData;
    (** [_circuit->restore_solution()] *)
    restore_solution : CircuitData -> CircuitData;
    (** [spice_fill_value(x, L)] *)
    spice_fill_value : CircuitData -> Array -> Array -> Array * Array;
    (** the scatter [x -> lx] *)
    sol_scatter : Array -> Array;
    (** [MixASolverBase::post_solve_process()] *)
    base_post_solve_process : SolverState -> SolverState }.

Variable H : SolverHooks.

(** [int MixA3Solver::diverged_recovery()] on a rank. *)
Definition diverged_recovery (last_processor : bool) (st : SolverState)
  : SolverState :=
  let xL :=
    fold_left (fun xL region => EBM3_Fill_Value H region (fst xL) (snd xL))
              (sol_regions st) (sol_x st, sol_L st) in
  let circuit :=
    if last_processor then restore_solution H (sol_circuit st)
    else sol_circuit st in
  let xL := spice_fill_value H circuit (fst xL) (snd xL) in
  mkSolverState (fst xL) (snd xL) (sol_lx st) (sol_regions st) circuit.

(** [int MixA3Solver::post_solve_process()] on a rank. *)
Definition post_solve_process (st : SolverState) : SolverState :=
  let lx := sol_scatter H (sol_x st) in
  let regions :=
    map (fun region => EBM3_Update_Solution H region lx) (sol_regions st) in
  let circuit := save_solution H (sol_circuit st) in
  base_post_solve_process H
    (mkSolverState (sol_x st) (sol_L st) lx regions circuit).

End Recovery.

Arguments sol_x {RegionData CircuitData} _.
Arguments sol_L {RegionData CircuitData} _.
Arguments sol_lx {RegionData CircuitData} _.
Arguments sol_regions {RegionData CircuitData} _.
Arguments sol_circuit {RegionData CircuitData} _.
Arguments mkSolverState {RegionData CircuitData} _ _ _ _ _.
Arguments mkSolverHooks {RegionData CircuitData} _ _ _ _ _ _ _.
Arguments EBM3_Fill_Value {RegionData CircuitData} _ _ _ _.
Arguments EBM3_Update_Solution {RegionData CircuitData} _ _ _.
Arguments save_solution {RegionData CircuitData} _ _.
Arguments restore_solution {RegionData CircuitData} _ _.
Arguments spice_fill_value {RegionData CircuitData} _ _ _ _.
Arguments sol_scatter {RegionData CircuitData} _ _.
Arguments base_post_solve_process {RegionData CircuitData} _ _.
Arguments diverged_recovery {RegionData CircuitData} _ _ _.
Arguments post_solve_process {RegionData CircuitData} _ _.

(** ** The index layout assumed by the routines *)

Definition optional (b : bool) (v : SolutionVariable) : list SolutionVariable :=
  if b then [v] else [].

(** The variables a region carries at each node: the potential (written by
    [potential_damping] in every region), and the carriers and temperatures
    that are active. *)
Definition node_variables (region : SimulationRegion) : list SolutionVariable :=
  POTENTIAL ::
  match type region with
  | SemiconductorRegion =>
      [ELECTRON; HOLE]
      ++ optional (enable_Tl (get_advanced_model region)) TEMPERATURE
      ++ optional (enable_Tn (get_advanced_model region)) E_TEMP
      ++ optional (enable_Tp (get_advanced_model region)) H_TEMP
  | InsulatorRegion | ElectrodeRegion | MetalRegion =>
      optional (enable_Tl (get_advanced_model region)) TEMPERATURE
  | VacuumRegion | InvalidRegion => []
  end.

(** [local_offset + ebm_variable_offset(v)] *)
Definition slot (region : SimulationRegion) (fvm_node : FVM_Node)
    (v : SolutionVariable) : nat :=
  (local_offset fvm_node + ebm_variable_offset region v)%nat.

Definition node_slots (region : SimulationRegion) (fvm_node : FVM_Node)
  : list nat :=
  map (slot region fvm_node) (node_variables region).

Definition region_slots (region : SimulationRegion) : list nat :=
  flat_map (node_slots region) (on_processor_nodes region).

Definition device_slots (P : Process) : list nat :=
  flat_map region_slots (regions P).

(** Index-map contract: distinct unknowns of a rank sit at distinct
    offsets of its local arrays. *)
Definition wf_layout (P : Process) : Prop :=
  NoDup (device_slots P ++ map array_offset_x (ckt_nodes P)).

(** The same for the residual offsets of the circuit nodes. *)
Definition wf_layout_f (P : Process) : Prop :=
  NoDup (device_slots P ++ map array_offset_f (ckt_nodes P)).

(** In a semiconductor region the electron density follows the potential:
    [positive_density_damping] reads it at [local_offset+1]. *)
Definition wf_electron_offset (P : Process) : Prop :=
  forall region, In region (regions P) ->
    type region = SemiconductorRegion ->
    ebm_variable_offset region ELECTRON = 1%nat.

(** ** Loop bodies that work on the slots they own *)

(** Two arrays agree on the indices listed in [S]. *)
Definition agree (S : list nat) (w w' : Array) : Prop :=
  forall j, In j S -> w j = w' j.

(** [step _ a] leaves every index outside [writes a] alone. *)
Definition frames {A : Type} (step : Array -> A -> Array)
    (writes : A -> list nat) (a : A) : Prop :=
  forall w i, ~ In i (writes a) -> step w a i = w i.

(** On [writes a] the result of [step _ a] only depends on the values
    at [writes a]. *)
Definition reads_own {A : Type} (step : Array -> A -> Array)
    (writes : A -> list nat) (a : A) : Prop :=
  forall w w' i, agree (writes a) w w' ->
    In i (writes a) -> step w a i = step w' a i.

(** The two components of the state of the first loop of
    [potential_damping] evolve independently: the running maximum of
    [|y_psi|] ... *)
Definition potential_scan_node_dV (region : SimulationRegion) (yy : Array)
    (dV_max : Q) (fvm_node : FVM_Node) : Q :=
  if Qlt_le_dec dV_max (Qabs (yy (slot region fvm_node POTENTIAL)))
  then Qabs (yy (slot region fvm_node POTENTIAL)) else dV_max.

Definition potential_scan_region_dV (yy : Array) (dV_max : Q)
    (region : SimulationRegion) : Q :=
  if is_semiconductor (type region)
  then fold_left (potential_scan_node_dV region yy)
                 (on_processor_nodes region) dV_max
  else dV_max.

(** ... and the candidate array. *)
Definition potential_scan_node_w (PU : PhysicalUnit.t) (T_ext : Q)
    (region : SimulationRegion) (xx : Array) (ww : Array)
    (fvm_node : FVM_Node) : Array :=
  snd (potential_scan_node PU T_ext region xx VecZeroEntries (0, ww) fvm_node).

Definition potential_scan_region_w (PU : PhysicalUnit.t) (T_ext : Q)
    (xx : Array) (ww : Array) (region : SimulationRegion) : Array :=
  if is_semiconductor (type region)
  then fold_left (potential_scan_node_w PU T_ext region xx)
                 (on_processor_nodes region) ww
  else ww.

(** The potential slots of a rank. *)
Definition psi_slots (P : Process) : list nat :=
  flat_map (fun region =>
              map (fun nd => slot region nd POTENTIAL)
                  (on_processor_nodes region))
           (regions P).

(** The two components of the state of the region loop of [LTE_norm],
    when no region reaches [genius_error()]. *)
Definition LTE_region_ll (eps_r eps_a : Q) (xx : Array) (ll : Array)
    (region : SimulationRegion) : Array :=
  match type region with
  | SemiconductorRegion =>
      fold_left (LTE_node_semiconductor eps_r eps_a region xx)
                (on_processor_nodes region) ll
  | InsulatorRegion | ElectrodeRegion | MetalRegion =>
      fold_left (LTE_node_insulator eps_r eps_a region xx)
                (on_processor_nodes region) ll
  | VacuumRegion | InvalidRegion => ll
  end.

Definition LTE_region_N (N : Z) (region : SimulationRegion) : Z :=
  match type region with
  | VacuumRegion | InvalidRegion => N
  | _ => int_plus_unsigned N (LTE_region_count region)
  end.

(** The number of components of a region that [LTE_norm] does not mask:
    every variable but the potential, at every on-processor node. *)
Definition non_masked_region (region : SimulationRegion) : Z :=
  match type region with
  | VacuumRegion | InvalidRegion => 0
  | _ => (Z.of_nat (length (node_variables region)) - 1)
         * Z.of_nat (n_on_processor_node region)
  end%Z.

(** ... of a rank: the regions and, on the last processor, the circuit
    nodes. *)
Definition non_masked_count (P : Process) : Z :=
  (fold_left (fun s region => s + non_masked_region region) (regions P) 0
   + if is_last_processor P then Z.of_nat (length (ckt_nodes P)) else 0)%Z.

(** What [LTE_norm] relies on at a rank: a well-formed layout, region types
    that the switch knows, [ebm_n_variables] counting the variables of the
    layout, and a count that fits an [int]. *)
Definition wf_lte (P : Process) : Prop :=
  wf_layout_f P /\
  (forall region, In region (regions P) -> type region <> InvalidRegion) /\
  (forall region, In region (regions P) -> type region <> VacuumRegion ->
     ebm_n_variables region = length (node_variables region)) /\
  (non_masked_count P < 2 ^ 31)%Z.

(** The number of tests of [BDF2_positive_defined] that fire at a node. *)
Definition BDF2_node_failures (a b : Q) (model : AdvancedModel)
    (fvm_node : FVM_Node) : Z :=
  let d := node_data fvm_node in
  ((if Qltb (a * FVM_NodeData.n d) (b * FVM_NodeData.n_last d) then 1 else 0)
   + (if Qltb (a * FVM_NodeData.p d) (b * FVM_NodeData.p_last d)
      then 1 else 0)
   + (if (enable_Tl model
          && Qltb (a * FVM_NodeData.T d) (b * FVM_NodeData.T_last d))%bool
      then 1 else 0)
   + (if (enable_Tn model
          && Qltb (a * FVM_NodeData.n d * FVM_NodeData.Tn d)
                  (b * FVM_NodeData.n_last d * FVM_NodeData.Tn_last d))%bool
      then 1 else 0)
   + (if (enable_Tp model
          && Qltb (a * FVM_NodeData.p d * FVM_NodeData.Tp d)
                  (b * FVM_NodeData.p_last d * FVM_NodeData.Tp_last d))%bool
      then 1 else 0))%Z.

Definition BDF2_region_failures (a b : Q) (region : SimulationRegion) : Z :=
  if is_semiconductor (type region)
  then fold_left (fun s nd =>
                    (s + BDF2_node_failures a b (get_advanced_model region)
                           nd)%Z)
                 (on_processor_nodes region) 0%Z
  else 0%Z.

Definition BDF2_failures (a b : Q) (P : Process) : Z :=
  fold_left (fun s region => (s + BDF2_region_failures a b region)%Z)
            (regions P) 0%Z.

(** ** Concrete systems used in the examples *)

Module Examples.

Definition units : PhysicalUnit.t := PhysicalUnit.mk 1 1 1 1 1.

(** psi, n, p, Tl, n*Tn, p*Tp at offsets 0..5. *)
Definition offsets (v : SolutionVariable) : nat :=
  match v with
  | POTENTIAL => 0 | ELECTRON => 1 | HOLE => 2
  | TEMPERATURE => 3 | E_TEMP => 4 | H_TEMP => 5
  end%nat.

Definition drift_diffusion : AdvancedModel := mkAdvancedModel false false false.

Definition equal_steps : SolverSpecify.t :=
  SolverSpecify.mk 1 1 1 (1 # 1000) (1 # 10000) SolverSpecify.BDF2 false true.

(** One semiconductor node whose history is steady and positive. *)
Definition steady_node : FVM_Node :=
  mkFVM_Node 0 (FVM_NodeData.mk 1 1 1 1 1 1 1 1 1 1).

(** One semiconductor node whose electron density dropped from 16 to 1. *)
Definition dropped_node : FVM_Node :=
  mkFVM_Node 0 (FVM_NodeData.mk 1 16 1 1 1 1 1 1 1 1).

Definition one_node_region (nd : FVM_Node) : SimulationRegion :=
  mkRegion SemiconductorRegion drift_diffusion offsets 3 [nd].

Definition one_node_proc (nd : FVM_Node) : Process :=
  mkProcess [one_node_region nd] 1 [] true.

(** An array given by its first entries (0 elsewhere). *)
Definition array_of (l : list Q) : Array := fun i => nth i l 0.

(** One semiconductor node with lattice and carrier temperatures. *)
Definition ebm_model : AdvancedModel := mkAdvancedModel true true true.

Definition ebm_region : SimulationRegion :=
  mkRegion SemiconductorRegion ebm_model offsets 6 [steady_node].

Definition ebm_proc : Process := mkProcess [ebm_region] 1 [] true.

(** Previous iterate, Newton step and trial candidate [x - y] for the
    unknowns psi, n, p, Tl, n*Tn, p*Tp of that node. *)
Definition x0 : Array := array_of [0; 1; 1; 1; 1; 1].
Definition y0 : Array := array_of [3; 6; -(1); 1; 0; 0].
Definition w0 : Array := array_of [-(3); -(5); 2; 0; 1; 1].

(** A stand-in for libm's [log] where an example has to name one: the
    first-order expansion at 1.  No example depends on its values. *)
Definition log_stub : Q -> Q := fun q => q - 1.

(** The same for [sqrt]. *)
Definition sqrt_stub : Q -> Q := fun q => (q + 1) / 2.

Definition rank0 : DampingRank := mkDampingRank ebm_proc x0 y0 w0.

(** The last processor, with a voltage node and a current node of the
    circuit behind the device unknowns. *)
Definition mixed_proc : Process :=
  mkProcess [ebm_region] 1
    [mkCktNode SP_VOLTAGE 6 6; mkCktNode SP_CURRENT 7 7] true.

Definition x1 : Array := array_of [0; 1; 1; 1; 1; 1; 2; 0].
Definition y1 : Array := array_of [3; 6; -(1); 1; 0; 0; -(10); 1 # 2].
Definition w1 : Array := array_of [-(3); -(5); 2; 0; 1; 1; 12; -(1 # 2)].

Definition rank1 : DampingRank := mkDampingRank mixed_proc x1 y1 w1.

(** A BDF1 step with [TS_rtol = 1e-3] and [TS_atol = 1e-4] from a zero
    history to a state whose circuit voltage (offset 6) is -3. *)
Definition lte_steps : SolverSpecify.t :=
  SolverSpecify.mk 1 1 1 (1 # 1000) (1 # 10000) SolverSpecify.BDF1 false true.

Definition lte_rank : LTERank :=
  mkLTERank mixed_proc 8 (array_of [0; 1; 1; 1; 1; 1; -(3); 0])
            VecZeroEntries VecZeroEntries VecZeroEntries.

(** Assembly hooks that leave their operand alone. *)
Definition keep_vec : Array -> Array -> InsertMode -> Array * InsertMode :=
  fun _ r flag => (r, flag).
Definition keep_mat : Array -> Mat -> InsertMode -> Mat * InsertMode :=
  fun _ J flag => (J, flag).

(** A region whose Jacobian adds 2 to the diagonal entry of row 0. *)
Definition diagonal_region : Region.t :=
  Region.mk keep_vec keep_vec keep_vec
    (fun _ J _ =>
       (mkMat (fun i j => if (Nat.eqb i 0 && Nat.eqb j 0)%bool
                          then entries J i j + 2 else entries J i j)
              (ignore_zero_entries J),
        ADD_VALUES))
    keep_mat keep_mat.

Definition quiet_bc : BC.t :=
  BC.mk false (fun _ r rows => (r, rows)) (fun _ r rows => (r, rows))
        keep_vec keep_vec (fun J flag => (J, flag)) (fun J flag => (J, flag))
        (fun _ J rows => (J, rows)) (fun _ J rows => (J, rows))
        keep_mat keep_mat.

Definition diagonal_system : AssemblySystem :=
  mkAssemblySystem 1 (fun _ => diagonal_region) 0 (fun _ => quiet_bc)
                   keep_vec keep_mat (fun x => x).

(** The solver before its first Jacobian assembly, with unit scaling. *)
Definition fresh_jacobian : JacobianState :=
  mkJacobianState (mkMat (fun _ _ => 0) false) (fun _ => 1) false.

(** Hooks in the simplest form their descriptions allow: a region keeps
    the list of its slots and the solution last stored there; the circuit
    keeps its nodal state and one snapshot, at the slots 6 and 7. *)
Definition region_data : Type := (list nat * Array)%type.
Definition circuit_data : Type := (Array * Array)%type.

Definition in_slots (l : list nat) (i : nat) : bool := existsb (Nat.eqb i) l.

Definition simple_hooks : SolverHooks region_data circuit_data :=
  mkSolverHooks
    (fun d x L =>
       (fun i => if in_slots (fst d) i then snd d i else x i,
        fun i => if in_slots (fst d) i then 1 else L i))
    (fun d lx => (fst d, lx))
    (fun c => (fst c, fst c))
    (fun c => (snd c, snd c))
    (fun c x L => (fun i => if in_slots [6; 7]%nat i then fst c i else x i, L))
    (fun x => x)
    (fun st => st).

(** The state in which a solve is accepted ... *)
Definition accepted : SolverState region_data circuit_data :=
  mkSolverState x1 (fun _ => 1) VecZeroEntries
    [([0; 1; 2; 3; 4; 5]%nat, VecZeroEntries)]
    (array_of [0; 0; 0; 0; 0; 0; 2; 0], VecZeroEntries).

(** ... and a later state of a diverging Newton iteration. *)
Definition drifted : SolverState region_data circuit_data :=
  let st1 := post_solve_process simple_hooks accepted in
  mkSolverState (fun _ => 99) (fun _ => 7) (fun _ => 99) (sol_regions st1)
    (fun _ => 42, snd (sol_circuit st1)).




(** The unit roundoff of binary64, and a rounding that errs by exactly one
    unit of relative error on every result. *)
Definition unit_roundoff : Q := 1 # 9007199254740992.

Definition round_up : Q -> Q := fun q => q * (1 + unit_roundoff).

End Examples.

(** ** Further routines of the solver *)

(** *** [projection_positive_density_check] *)

(** Body of the node loop: [xx] is the accepted iterate, [oo] the iterate
    before the Newton step. *)
Definition projection_node (PU : PhysicalUnit.t) (T_ext : Q)
    (region : SimulationRegion) (oo : Array) (xx : Array)
    (fvm_node : FVM_Node) : Array :=
  let node_n_offset := ebm_variable_offset region ELECTRON in
  let node_p_offset := ebm_variable_offset region HOLE in
  let node_Tl_offset := ebm_variable_offset region TEMPERATURE in
  let node_Tn_offset := ebm_variable_offset region E_TEMP in
  let node_Tp_offset := ebm_variable_offset region H_TEMP in
  let local_offset := local_offset fvm_node in
  let xx := clamp_below xx (local_offset + node_n_offset) (onePerCMC PU) in
  let xx := clamp_below xx (local_offset + node_p_offset) (onePerCMC PU) in
  let xx :=
    if enable_Tl (get_advanced_model region)
    then clamp_below xx (local_offset + node_Tl_offset)
                     (T_ext - 50 * PhysicalUnit.K PU)
    else xx in
  let xx :=
    if enable_Tn (get_advanced_model region)
    then carrier_temperature T_ext oo xx (local_offset + node_n_offset)
                             (local_offset + node_Tn_offset)
    else xx in
  if enable_Tp (get_advanced_model region)
  then carrier_temperature T_ext oo xx (local_offset + node_p_offset)
                           (local_offset + node_Tp_offset)
  else xx.

Definition projection_region (PU : PhysicalUnit.t) (T_ext : Q) (oo : Array)
    (xx : Array) (region : SimulationRegion) : Array :=
  if is_semiconductor (type region)
  then fold_left (projection_node PU T_ext region oo)
                 (on_processor_nodes region) xx
  else xx.

(** [void MixA3Solver::projection_positive_density_check(Vec x, Vec xo)] on
    one rank: the array of [x] on return. *)
Definition projection_positive_density_check (PU : PhysicalUnit.t)
    (P : Process) (xx oo : Array) : Array :=
  fold_left (projection_region PU (T_external P) oo) (regions P) xx.

(** The slots of the semiconductor regions of a rank. *)
Definition semiconductor_slots (P : Process) : list nat :=
  flat_map (fun region =>
              if is_semiconductor (type region) then region_slots region
              else [])
           (regions P).

(** *** [bank_rose_damping] *)

(** [void MixA3Solver::bank_rose_damping(Vec, Vec, Vec, ...)]: the
    candidate on return and the flags [(changed_y, changed_w)]. *)
Definition bank_rose_damping (xx yy ww : Array) : Array * (bool * bool) :=
  (ww, (false, false)).

(** *** [error_norm] *)

Module Norms.
(** The norm members of the solver written by [error_norm]. *)
Record t : Type := mk
  { potential_norm : Q; electron_norm : Q; hole_norm : Q;
    temperature_norm : Q; elec_temperature_norm : Q;
    hole_temperature_norm : Q;
    poisson_norm : Q; elec_continuity_norm : Q; hole_continuity_norm : Q;
    heat_equation_norm : Q; elec_energy_equation_norm : Q;
    hole_energy_equation_norm : Q;
    electrode_norm : Q; spice_norm : Q }.
End Norms.

(** Node loop body of [case SemiconductorRegion]; [xx] is the local
    solution array, [ff] the local function array. *)
Definition error_norm_node_semiconductor (region : SimulationRegion)
    (xx ff : Array) (m : Norms.t) (fvm_node : FVM_Node) : Norms.t :=
  let node_psi_offset := ebm_variable_offset region POTENTIAL in
  let node_n_offset := ebm_variable_offset region ELECTRON in
  let node_p_offset := ebm_variable_offset region HOLE in
  let node_Tl_offset := ebm_variable_offset region TEMPERATURE in
  let node_Tn_offset := ebm_variable_offset region E_TEMP in
  let node_Tp_offset := ebm_variable_offset region H_TEMP in
  let offset := local_offset fvm_node in
  let Tl := enable_Tl (get_advanced_model region) in
  let Tn := enable_Tn (get_advanced_model region) in
  let Tp := enable_Tp (get_advanced_model region) in
  Norms.mk
    (Norms.potential_norm m
     + xx (offset + node_psi_offset)%nat * xx (offset + node_psi_offset)%nat)
    (Norms.electron_norm m
     + xx (offset + node_n_offset)%nat * xx (offset + node_n_offset)%nat)
    (Norms.hole_norm m
     + xx (offset + node_p_offset)%nat * xx (offset + node_p_offset)%nat)
    (if Tl
     then Norms.temperature_norm m
          + xx (offset + node_Tl_offset)%nat * xx (offset + node_Tl_offset)%nat
     else Norms.temperature_norm m)
    (if Tn
     then Norms.elec_temperature_norm m
          + xx (offset + node_Tn_offset)%nat / xx (offset + node_n_offset)%nat
            * xx (offset + node_Tn_offset)%nat
            / xx (offset + node_n_offset)%nat
     else Norms.elec_temperature_norm m)
    (if Tp
     then Norms.hole_temperature_norm m
          + xx (offset + node_Tp_offset)%nat / xx (offset + node_p_offset)%nat
            * xx (offset + node_Tp_offset)%nat
            / xx (offset + node_p_offset)%nat
     else Norms.hole_temperature_norm m)
    (Norms.poisson_norm m
     + ff (offset + node_psi_offset)%nat * ff (offset + node_psi_offset)%nat)
    (Norms.elec_continuity_norm m
     + ff (offset + node_n_offset)%nat * ff (offset + node_n_offset)%nat)
    (Norms.hole_continuity_norm m
     + ff (offset + node_p_offset)%nat * ff (offset + node_p_offset)%nat)
    (if Tl
     then Norms.heat_equation_norm m
          + ff (offset + node_Tl_offset)%nat * ff (offset + node_Tl_offset)%nat
     else Norms.heat_equation_norm m)
    (if Tn
     then Norms.elec_energy_equation_norm m
          + ff (offset + node_Tn_offset)%nat * ff (offset + node_Tn_offset)%nat
     else Norms.elec_energy_equation_norm m)
    (if Tp
     then Norms.hole_energy_equation_norm m
          + ff (offset + node_Tp_offset)%nat * ff (offset + node_Tp_offset)%nat
     else Norms.hole_energy_equation_norm m)
    (Norms.electrode_norm m)
    (Norms.spice_norm m).

(** Node loop body of [case InsulatorRegion: ElectrodeRegion: MetalRegion]. *)
Definition error_norm_node_insulator (region : SimulationRegion)
    (xx ff : Array) (m : Norms.t) (fvm_node : FVM_Node) : Norms.t :=
  let node_psi_offset := ebm_variable_offset region POTENTIAL in
  let node_Tl_offset := ebm_variable_offset region TEMPERATURE in
  let offset := local_offset fvm_node in
  let Tl := enable_Tl (get_advanced_model region) in
  Norms.mk
    (Norms.potential_norm m
     + xx (offset + node_psi_offset)%nat * xx (offset + node_psi_offset)%nat)
    (Norms.electron_norm m)
    (Norms.hole_norm m)
    (if Tl
     then Norms.temperature_norm m
          + xx (offset + node_Tl_offset)%nat * xx (offset + node_Tl_offset)%nat
     else Norms.temperature_norm m)
    (Norms.elec_temperature_norm m)
    (Norms.hole_temperature_norm m)
    (Norms.poisson_norm m
     + ff (offset + node_psi_offset)%nat * ff (offset + node_psi_offset)%nat)
    (Norms.elec_continuity_norm m)
    (Norms.hole_continuity_norm m)
    (if Tl
     then Norms.heat_equation_norm m
          + ff (offset + node_Tl_offset)%nat * ff (offset + node_Tl_offset)%nat
     else Norms.heat_equation_norm m)
    (Norms.elec_energy_equation_norm m)
    (Norms.hole_energy_equation_norm m)
    (Norms.electrode_norm m)
    (Norms.spice_norm m).

(** Body of the region loop; [None] once [genius_error()] was reached. *)
Definition error_norm_region (xx ff : Array) (st : option Norms.t)
    (region : SimulationRegion) : option Norms.t :=
  match st with
  | None => None
  | Some m =>
      match type region with
      | SemiconductorRegion =>
          Some (fold_left (error_norm_node_semiconductor region xx ff)
                          (on_processor_nodes region) m)
      | InsulatorRegion | ElectrodeRegion | MetalRegion =>
          Some (fold_left (error_norm_node_insulator region xx ff)
                          (on_processor_nodes region) m)
      | VacuumRegion => Some m
      | InvalidRegion => None
      end
  end.

(** A rank with its local arrays of [lx] and [lf], the norm members it
    holds on entry and the value of [_circuit->ckt_residual_norm2()]. *)
Record NormRank : Type := mkNormRank
  { nr_proc : Process; nr_x : Array; nr_f : Array;
    nr_old : Norms.t; nr_ckt_residual_norm2 : Q }.

(** The members after the "do clear" block. *)
Definition error_norm_clear (m : Norms.t) : Norms.t :=
  Norms.mk 0 0 0 0 0 0 0 0 0 0 0 0 0 (Norms.spice_norm m).

(** The members of one rank after the region loop. *)
Definition error_norm_local (r : NormRank) : option Norms.t :=
  fold_left (error_norm_region (nr_x r) (nr_f r)) (regions (nr_proc r))
            (Some (error_norm_clear (nr_old r))).

(** [Parallel::sum] on reals. *)
Definition Parallel_sum_Q (locals : list Q) : Q :=
  fold_left Qplus locals 0.

(** The value every rank holds after
    [Parallel::broadcast(spice_norm, Genius::last_processor_id())]: the one
    computed on the last processor, [ckt_residual_norm2()*A]. *)
Definition error_norm_spice (PU : PhysicalUnit.t) (ranks : list NormRank) : Q :=
  match filter (fun r => is_last_processor (nr_proc r)) ranks with
  | [] => 0
  | r :: _ => nr_ckt_residual_norm2 r * PhysicalUnit.A PU
  end.

(** [void MixA3Solver::error_norm()], run on all ranks: the members every
    rank holds on return; [None] when some rank reaches [genius_error()]. *)
Definition error_norm (sqrt : Q -> Q) (PU : PhysicalUnit.t)
    (ranks : list NormRank) : option Norms.t :=
  match collect (map error_norm_local ranks) with
  | None => None
  | Some locals =>
      let total (field : Norms.t -> Q) :=
        Parallel_sum_Q (map field locals) in
      Some (Norms.mk
              (sqrt (total Norms.potential_norm))
              (sqrt (total Norms.electron_norm))
              (sqrt (total Norms.hole_norm))
              (sqrt (total Norms.temperature_norm))
              (sqrt (total Norms.elec_temperature_norm))
              (sqrt (total Norms.hole_temperature_norm))
              (sqrt (total Norms.poisson_norm))
              (sqrt (total Norms.elec_continuity_norm))
              (sqrt (total Norms.hole_continuity_norm))
              (sqrt (total Norms.heat_equation_norm))
              (sqrt (total Norms.elec_energy_equation_norm))
              (sqrt (total Norms.hole_energy_equation_norm))
              0
              (error_norm_spice PU ranks))
  end.

(** *** The stages of the Jacobian assembly *)

(** One stage per call of [build_petsc_sens_jacobian], acting on the
    matrix, the insertion-mode flag and the row lists. *)
Inductive JacobianStage : Type :=
| JZero
| JRegion (n : nat)
| JTimeDependent (n : nat)
| JHangingNode (n : nat)
| JCircuit
| JReserve (b : nat)
| JIgnoreZeroEntries
| JBCPreprocess (b : nat)
| JAddRowToRow
| JZeroRows
| JBCAssemble (b : nat)
| JDiagonalScale.

Record JacobianWork : Type := mkJacobianWork
  { jw_J : Mat; jw_flag : InsertMode; jw_rows : RowLists }.

Definition lift_Jf (f : Mat -> InsertMode -> Mat * InsertMode)
    (w : JacobianWork) : JacobianWork :=
  let Jf := f (jw_J w) (jw_flag w) in
  mkJacobianWork (fst Jf) (snd Jf) (jw_rows w).

Definition run_jacobian_stage (sys : AssemblySystem) (L lxx : Array)
    (w : JacobianWork) (s : JacobianStage) : JacobianWork :=
  match s with
  | JZero =>
      mkJacobianWork (MatZeroEntries (jw_J w)) NOT_SET_VALUES
                     (mkRowLists [] [] [])
  | JRegion n => lift_Jf (Region.EBM3_Jacobian (region sys n) lxx) w
  | JTimeDependent n =>
      lift_Jf (Region.EBM3_Time_Dependent_Jacobian (region sys n) lxx) w
  | JHangingNode n =>
      lift_Jf (Region.EBM3_Jacobian_Hanging_Node (region sys n) lxx) w
  | JCircuit => lift_Jf (build_spice_jacobian sys lxx) w
  | JReserve b =>
      let bc := get_bc sys b in
      lift_Jf (if BC.is_spice_electrode bc
               then BC.MixA_EBM3_Jacobian_Reserve bc
               else BC.EBM3_Jacobian_Reserve bc) w
  | JIgnoreZeroEntries =>
      mkJacobianWork (mkMat (entries (jw_J w)) true) (jw_flag w) (jw_rows w)
  | JBCPreprocess b =>
      let bc := get_bc sys b in
      let Jr :=
        (if BC.is_spice_electrode bc
         then BC.MixA_EBM3_Jacobian_Preprocess bc
         else BC.EBM3_Jacobian_Preprocess bc) lxx (jw_J w) (jw_rows w) in
      mkJacobianWork (fst Jr) (jw_flag w) (snd Jr)
  | JAddRowToRow =>
      mkJacobianWork
        (MatAddRowToRow (jw_J w) (src_row (jw_rows w)) (dst_row (jw_rows w)))
        (jw_flag w) (jw_rows w)
  | JZeroRows =>
      mkJacobianWork (MatZeroRows (jw_J w) (clear_row (jw_rows w)))
                     NOT_SET_VALUES (jw_rows w)
  | JBCAssemble b =>
      let bc := get_bc sys b in
      lift_Jf ((if BC.is_spice_electrode bc
                then BC.MixA_EBM3_Jacobian bc
                else BC.EBM3_Jacobian bc) lxx) w
  | JDiagonalScale =>
      mkJacobianWork (MatDiagonalScale (jw_J w) L) (jw_flag w) (jw_rows w)
  end.

(** The order of the stages; [first_assemble] is the value of
    [jacobian_matrix_first_assemble] on entry. *)
Definition jacobian_schedule (sys : AssemblySystem) (TimeDependent : bool)
    (first_assemble : bool) : list JacobianStage :=
  [JZero]
  ++ map JRegion (seq 0 (n_regions sys))
  ++ (if TimeDependent then map JTimeDependent (seq 0 (n_regions sys))
      else [])
  ++ map JHangingNode (seq 0 (n_regions sys))
  ++ [JCircuit]
  ++ (if first_assemble then []
      else map JReserve (seq 0 (n_bcs sys)) ++ [JIgnoreZeroEntries])
  ++ map JBCPreprocess (seq 0 (n_bcs sys))
  ++ [JAddRowToRow; JZeroRows]
  ++ map JBCAssemble (seq 0 (n_bcs sys))
  ++ [JDiagonalScale].

(** *** [flush_system] *)

(** [void MixA3Solver::flush_system(Vec v)] on a rank. *)
Definition flush_system {RegionData CircuitData : Type}
    (H : SolverHooks RegionData CircuitData) (v : Array)
    (st : SolverState RegionData CircuitData)
  : SolverState RegionData CircuitData :=
  let lx := sol_scatter H v in
  let regions :=
    map (fun region => EBM3_Update_Solution H region lx) (sol_regions st) in
  mkSolverState (sol_x st) (sol_L st) lx regions (sol_circuit st).

(** ** Rounding *)

(** The solver runs in IEEE binary64.  Where a description speaks of an
    exact value, the scalar expressions concerned are embedded twice more:
    in binary64 itself (module [Binary64], on the kernel's floats), to
    evaluate them, and over [Q] with the rounding of every operation
    written out (module [Rounded]), to bound the rounding error. *)

Module Binary64.
Local Open Scope float_scope.

(** [xp] at one component after
    [VecZeroEntries(xp); VecAXPY(xp, 1+hn/hn1, x_n); VecAXPY(xp, -hn/hn1, x_n1)]. *)
Definition BDF1_predictor (hn hn1 x_n x_n1 : float) : float :=
  0 + (1 + hn / hn1) * x_n + (- hn / hn1) * x_n1.

Definition BDF2_cn (hn hn1 hn2 : float) : float :=
  1 + hn * (hn + 2 * hn1 + hn2) / (hn1 * (hn1 + hn2)).

Definition BDF2_cn1 (hn hn1 hn2 : float) : float :=
  - hn * (hn + hn1 + hn2) / (hn1 * hn2).

Definition BDF2_cn2 (hn hn1 hn2 : float) : float :=
  hn * (hn + hn1) / (hn2 * (hn1 + hn2)).

(** The circuit-node block of [potential_damping] at one node; [bound] is
    the literal 5 of a voltage node or the literal 1 of a current node. *)
Definition potential_damp_ckt (bound xx yy ww : float) : float :=
  let dV_max := abs yy in
  if bound <? dV_max then
    let damp_factor := bound / dV_max in
    xx - damp_factor * yy
  else ww.

End Binary64.

Module Rounded.

Section Operations.
(** Rounding of a real result to a double.  Every operation of an
    expression rounds once, in the order in which C++ evaluates it. *)
Variable rnd : Q -> Q.

Definition fl_add (a b : Q) : Q := rnd (a + b).
Definition fl_sub (a b : Q) : Q := rnd (a - b).
Definition fl_mul (a b : Q) : Q := rnd (a * b).
Definition fl_div (a b : Q) : Q := rnd (a / b).

Definition BDF1_predictor (hn hn1 : Q) (x_n x_n1 : Array) : Array :=
  fun i =>
    fl_add (fl_add 0 (fl_mul (fl_add 1 (fl_div hn hn1)) (x_n i)))
           (fl_mul (fl_div (- hn) hn1) (x_n1 i)).

Definition BDF2_cn (hn hn1 hn2 : Q) : Q :=
  fl_add 1 (fl_div (fl_mul hn (fl_add (fl_add hn (fl_mul 2 hn1)) hn2))
                   (fl_mul hn1 (fl_add hn1 hn2))).

Definition BDF2_cn1 (hn hn1 hn2 : Q) : Q :=
  fl_div (fl_mul (- hn) (fl_add (fl_add hn hn1) hn2)) (fl_mul hn1 hn2).

Definition BDF2_cn2 (hn hn1 hn2 : Q) : Q :=
  fl_div (fl_mul hn (fl_add hn hn1)) (fl_mul hn2 (fl_add hn1 hn2)).

Definition potential_damp_ckt (bound xx yy ww : Q) : Q :=
  let dV_max := Qabs yy in
  if Qlt_le_dec bound dV_max then
    let damp_factor := fl_div bound dV_max in
    fl_sub xx (fl_mul damp_factor yy)
  else ww.

End Operations.

(** The standard model of floating-point arithmetic: every rounding has a
    relative error of at most the unit roundoff [u] (for binary64,
    [u = 2^-53], as long as no operation overflows or underflows). *)
Definition standard_model (rnd : Q -> Q) (u : Q) : Prop :=
  0 <= u /\ u <= 1 # 256 /\ forall q, Qabs (rnd q - q) <= u * Qabs q.

(** [a'] approximates [a] with a relative error of at most [e]. *)
Definition approx (e a' a : Q) : Prop := Qabs (a' - a) <= e * Qabs a.

End Rounded.

(** * Properties *)

(** ** Rounding errors *)

Lemma Qabs_scaled_step (b a : Q) :
  0 < b -> b < Qabs a -> Qabs (b / Qabs a * a) == b.
Proof.
  intros Hb Hlt.
  assert (Hpos : 0 < Qabs a) by (eapply Qlt_trans; eassumption).
  assert (Hnz : ~ Qabs a == 0)
    by (intro Hz; rewrite Hz in Hpos; exact (Qlt_irrefl 0 Hpos)).
  rewrite Qabs_Qmult.
  rewrite (Qabs_pos (b / Qabs a)).
  - field. exact Hnz.
  - apply Qlt_le_weak. apply Qlt_shift_div_l; [exact Hpos|].
    now rewrite Qmult_0_l.
Qed.

Lemma Qabs_zero (a : Q) : Qabs a <= 0 -> a == 0.
Proof.
  intro Ha. apply Qabs_Qle_condition in Ha. destruct Ha as [H1 H2]. lra.
Qed.

Section RoundingErrors.
Variable rnd : Q -> Q.
Variable u : Q.
Hypothesis model : Rounded.standard_model rnd u.

Lemma approx_exact (a : Q) : Rounded.approx 0 a a.
Proof.
  unfold Rounded.approx. setoid_replace (a - a) with 0 by ring.
  rewrite Qmult_0_l. apply Qle_refl.
Qed.

Lemma approx_weaken (e e' a' a : Q) : e <= e' -> Rounded.approx e a' a -> Rounded.approx e' a' a.
Proof.
  unfold Rounded.approx. intros Hle Ha. eapply Qle_trans; [exact Ha|].
  apply Qmult_le_compat_r; [exact Hle|apply Qabs_nonneg].
Qed.

Lemma approx_value (e a' a b : Q) : a == b -> Rounded.approx e a' a -> Rounded.approx e a' b.
Proof. unfold Rounded.approx. intros Heq Ha. now rewrite <- Heq. Qed.

Lemma approx_size (e a' a : Q) :
  Rounded.approx e a' a -> Qabs a' <= (1 + e) * Qabs a.
Proof.
  unfold Rounded.approx. intro Ha.
  assert (Ht : Qabs a' <= Qabs (a' - a) + Qabs a).
  { setoid_replace a' with ((a' - a) + a) at 1 by ring.
    apply Qabs_triangle. }
  lra.
Qed.

Lemma approx_rnd (e a' a : Q) :
  0 <= e -> Rounded.approx e a' a -> Rounded.approx (e + u + e * u) (rnd a') a.
Proof.
  destruct model as (Hu0 & _ & Hrnd). intros He Ha.
  pose proof (approx_size e a' a Ha) as Hs.
  unfold Rounded.approx in *.
  assert (Ht : Qabs (rnd a' - a) <= Qabs (rnd a' - a') + Qabs (a' - a)).
  { setoid_replace (rnd a' - a) with ((rnd a' - a') + (a' - a)) by ring.
    apply Qabs_triangle. }
  pose proof (Hrnd a') as Hr.
  pose proof (Qabs_nonneg a) as Hna. pose proof (Qabs_nonneg a') as Hna'.
  set (A := Qabs a) in *. set (A' := Qabs a') in *.
  set (D := Qabs (rnd a' - a)) in *. set (D1 := Qabs (rnd a' - a')) in *.
  set (D2 := Qabs (a' - a)) in *.
  assert (u * A' <= u * ((1 + e) * A)) by nra.
  nra.
Qed.

Lemma approx_rnd_exact (a : Q) : Rounded.approx u (rnd a) a.
Proof. destruct model as (_ & _ & Hrnd). apply Hrnd. Qed.

(** One more rounding on top of [k] units of relative error. *)
Lemma approx_rnd_units (k a' a : Q) :
  0 <= k -> k <= 256 -> Rounded.approx (k * u) a' a -> Rounded.approx ((k + 2) * u) (rnd a') a.
Proof.
  intros Hk0 Hk Ha. pose proof model as (Hu0 & Hu & _).
  apply (approx_weaken (k * u + u + k * u * u)).
  - nra.
  - apply approx_rnd; [nra|exact Ha].
Qed.

Lemma approx_mul (ea eb a' a b' b : Q) :
  0 <= ea -> 0 <= eb -> Rounded.approx ea a' a -> Rounded.approx eb b' b ->
  Rounded.approx (ea + eb + ea * eb) (a' * b') (a * b).
Proof.
  unfold Rounded.approx. intros Hea Heb Ha Hb.
  setoid_replace (a' * b' - a * b)
    with ((a' - a) * b + a * (b' - b) + (a' - a) * (b' - b)) by ring.
  eapply Qle_trans; [apply Qabs_triangle|].
  eapply Qle_trans; [apply Qplus_le_compat; [apply Qabs_triangle|apply Qle_refl]|].
  rewrite !Qabs_Qmult.
  pose proof (Qabs_nonneg a) as Hna. pose proof (Qabs_nonneg b) as Hnb.
  pose proof (Qabs_nonneg (a' - a)) as Hda.
  pose proof (Qabs_nonneg (b' - b)) as Hdb.
  set (A := Qabs a) in *. set (B := Qabs b) in *.
  set (DA := Qabs (a' - a)) in *. set (DB := Qabs (b' - b)) in *.
  assert (DA * B <= ea * A * B) by nra.
  assert (A * DB <= A * (eb * B)) by nra.
  assert (DA * DB <= (ea * A) * (eb * B)) by nra.
  nra.
Qed.

Lemma approx_mul_exact (e a' a b : Q) :
  0 <= e -> Rounded.approx e a' a -> Rounded.approx e (a' * b) (a * b).
Proof.
  intros He Ha.
  apply (approx_weaken (e + 0 + e * 0)); [lra|].
  apply approx_mul; [exact He|apply Qle_refl|exact Ha|apply approx_exact].
Qed.

Lemma approx_add_pos (e a' a b' b : Q) :
  0 <= a -> 0 <= b -> Rounded.approx e a' a -> Rounded.approx e b' b ->
  Rounded.approx e (a' + b') (a + b).
Proof.
  unfold Rounded.approx. intros Ha0 Hb0 Ha Hb.
  setoid_replace (a' + b' - (a + b)) with ((a' - a) + (b' - b)) by ring.
  eapply Qle_trans; [apply Qabs_triangle|].
  rewrite (Qabs_pos a) in Ha by exact Ha0.
  rewrite (Qabs_pos b) in Hb by exact Hb0.
  rewrite (Qabs_pos (a + b)) by lra. lra.
Qed.

Lemma approx_div (ea eb a' a b' b : Q) :
  0 <= ea -> 0 <= eb -> eb <= 1 # 2 -> ~ b == 0 ->
  Rounded.approx ea a' a -> Rounded.approx eb b' b ->
  Rounded.approx ((ea + eb) * (1 + 2 * eb)) (a' / b') (a / b).
Proof.
  unfold Rounded.approx. intros Hea Heb Hhalf Hb0 Ha Hb.
  pose proof (Qabs_nonneg a) as Hna.
  assert (HB : 0 < Qabs b).
  { destruct (Qlt_le_dec 0 (Qabs b)) as [Hp|Hn]; [exact Hp|].
    exfalso. apply Hb0.
    pose proof (Qle_Qabs b) as H1. pose proof (Qle_Qabs (- b)) as H2.
    rewrite Qabs_opp in H2. lra. }
  assert (Hb' : (1 - eb) * Qabs b <= Qabs b').
  { assert (Ht : Qabs b <= Qabs (b - b') + Qabs b').
    { setoid_replace b with ((b - b') + b') at 1 by ring.
      apply Qabs_triangle. }
    setoid_replace (b - b') with (- (b' - b)) in Ht by ring.
    rewrite Qabs_opp in Ht. lra. }
  assert (HB' : 0 < Qabs b') by nra.
  assert (Hb'0 : ~ b' == 0).
  { intro Hz. rewrite Hz in HB'. discriminate HB'. }
  setoid_replace (a' / b' - a / b)
    with (((a' - a) * b - a * (b' - b)) / (b * b')) by (field; auto).
  unfold Qdiv at 1. rewrite Qabs_Qmult, Qabs_Qinv, Qabs_Qmult.
  assert (Hnum : Qabs ((a' - a) * b - a * (b' - b))
                 <= (ea + eb) * (Qabs a * Qabs b)).
  { unfold Qminus at 1.
    eapply Qle_trans; [apply Qabs_triangle|].
    rewrite Qabs_opp, !Qabs_Qmult.
    pose proof (Qabs_nonneg (a' - a)). pose proof (Qabs_nonneg (b' - b)).
    set (A := Qabs a) in *. set (B := Qabs b) in *.
    set (DA := Qabs (a' - a)) in *. set (DB := Qabs (b' - b)) in *.
    assert (DA * B <= ea * A * B) by nra.
    assert (A * DB <= A * (eb * B)) by nra.
    nra. }
  unfold Qdiv. rewrite Qabs_Qmult, Qabs_Qinv.
  set (A := Qabs a) in *. set (B := Qabs b) in *. set (B' := Qabs b') in *.
  set (N := Qabs ((a' - a) * b - a * (b' - b))) in *.
  apply Qle_shift_div_r; [nra|].
  (* N <= (ea+eb)(1+2eb) * (A * /B) * (B * B') *)
  assert (E : (ea + eb) * (1 + 2 * eb) * (A * / B) * (B * B')
              == (ea + eb) * (1 + 2 * eb) * A * B').
  { field. intro Hz. rewrite Hz in HB. discriminate HB. }
  rewrite E.
  assert (Hk : 1 <= (1 + 2 * eb) * (1 - eb)) by nra.
  assert (Hk2 : B <= (1 + 2 * eb) * B') by nra.
  assert (0 <= (ea + eb) * A) by nra.
  nra.
Qed.

Lemma approx_left (e a' b' a : Q) : a' == b' -> Rounded.approx e a' a -> Rounded.approx e b' a.
Proof. unfold Rounded.approx. intros Heq Ha. now rewrite <- Heq. Qed.

(** The absolute error of a sum of two approximations. *)
Lemma approx_sum_error (ea eb a' a b' b : Q) :
  Rounded.approx ea a' a -> Rounded.approx eb b' b ->
  Qabs (a' + b' - (a + b)) <= ea * Qabs a + eb * Qabs b.
Proof.
  unfold Rounded.approx. intros Ha Hb.
  setoid_replace (a' + b' - (a + b)) with ((a' - a) + (b' - b)) by ring.
  eapply Qle_trans; [apply Qabs_triangle|]. lra.
Qed.

(** Rounding a sum whose absolute error is [E]. *)
Lemma rnd_sum_error (s t E : Q) :
  Qabs (s - t) <= E -> Qabs (rnd s - t) <= u * Qabs t + (1 + u) * E.
Proof.
  destruct model as (Hu0 & _ & Hrnd). intro Hs.
  assert (Ht : Qabs (rnd s - t) <= Qabs (rnd s - s) + Qabs (s - t)).
  { setoid_replace (rnd s - t) with ((rnd s - s) + (s - t)) by ring.
    apply Qabs_triangle. }
  assert (Hsz : Qabs s <= Qabs (s - t) + Qabs t).
  { setoid_replace s with ((s - t) + t) at 1 by ring. apply Qabs_triangle. }
  pose proof (Hrnd s) as Hr.
  pose proof (Qabs_nonneg t). pose proof (Qabs_nonneg s).
  pose proof (Qabs_nonneg (s - t)).
  set (S := Qabs s) in *. set (T := Qabs t) in *.
  set (D := Qabs (s - t)) in *.
  assert (u * S <= u * (D + T)) by nra.
  assert (u * D <= u * E) by nra.
  nra.
Qed.

Lemma BDF1_predictor_rounded (hn hn1 : Q) (x_n x_n1 : Array) (i : nat) :
  0 < hn -> 0 < hn1 -> x_n1 i == x_n i ->
  Qabs (Rounded.BDF1_predictor rnd hn hn1 x_n x_n1 i - x_n i)
  <= 11 * u * (1 + hn / hn1) * Qabs (x_n i).
Proof.
  intros Hn Hn1 Hsteady. pose proof model as (Hu0 & Hu & Hrnd).
  set (r := hn / hn1).
  assert (Hr : 0 < r) by (apply Qlt_shift_div_l; lra).
  assert (Hz1 : ~ hn1 == 0) by lra.
  unfold Rounded.BDF1_predictor, Rounded.fl_add, Rounded.fl_mul, Rounded.fl_div. fold r.
  (* the first product *)
  assert (A1 : Rounded.approx (1 * u) (1 + rnd r) (1 + r)).
  { apply (approx_weaken u); [lra|].
    apply approx_add_pos; [lra|lra| |apply approx_rnd_exact].
    apply (approx_weaken 0); [exact Hu0|apply approx_exact]. }
  apply approx_rnd_units in A1; [|lra|lra].
  assert (A2 : Rounded.approx ((1 + 2) * u) (rnd (1 + rnd r) * x_n i)
                      ((1 + r) * x_n i))
    by (apply approx_mul_exact; [nra|exact A1]).
  apply approx_rnd_units in A2; [|lra|lra].
  assert (A3 : Rounded.approx ((1 + 2 + 2) * u)
                      (0 + rnd (rnd (1 + rnd r) * x_n i)) ((1 + r) * x_n i)).
  { apply (approx_left _ (rnd (rnd (1 + rnd r) * x_n i))); [ring|exact A2]. }
  apply approx_rnd_units in A3; [|lra|lra].
  (* the second product *)
  assert (B1 : Rounded.approx (1 * u) (rnd (- hn / hn1)) (- hn / hn1))
    by (apply (approx_weaken u); [lra|apply approx_rnd_exact]).
  assert (B2 : Rounded.approx (1 * u) (rnd (- hn / hn1) * x_n1 i)
                      (- hn / hn1 * x_n1 i))
    by (apply approx_mul_exact; [nra|exact B1]).
  apply approx_rnd_units in B2; [|lra|lra].
  (* their sum *)
  pose proof (approx_sum_error _ _ _ _ _ _ A3 B2) as Hsum.
  assert (Hval : (1 + r) * x_n i + - hn / hn1 * x_n1 i == x_n i).
  { rewrite Hsteady. unfold r. field. exact Hz1. }
  rewrite Hval in Hsum.
  assert (Ha1 : Qabs ((1 + r) * x_n i) == (1 + r) * Qabs (x_n i)).
  { rewrite Qabs_Qmult, (Qabs_pos (1 + r)) by lra. reflexivity. }
  assert (Ha2 : Qabs (- hn / hn1 * x_n1 i) == r * Qabs (x_n i)).
  { rewrite Hsteady, Qabs_Qmult.
    setoid_replace (- hn / hn1) with (- r) by (unfold r; field; exact Hz1).
    rewrite Qabs_opp, (Qabs_pos r) by lra. reflexivity. }
  rewrite Ha1, Ha2 in Hsum.
  apply rnd_sum_error in Hsum.
  eapply Qle_trans; [exact Hsum|].
  pose proof (Qabs_nonneg (x_n i)) as Hx.
  set (X := Qabs (x_n i)) in *.
  assert (0 <= u * X) by nra.
  assert (0 <= r * (u * X)) by nra.
  assert (0 <= u * (u * X)) by nra.
  assert (u * (u * X) <= (1 # 256) * (u * X)) by nra.
  assert (0 <= r * (u * (u * X))) by nra.
  assert (r * (u * (u * X)) <= r * ((1 # 256) * (u * X))) by nra.
  nra.
Qed.

Lemma approx_mul_exact_l (e a b' b : Q) :
  0 <= e -> Rounded.approx e b' b -> Rounded.approx e (a * b') (a * b).
Proof.
  intros He Hb.
  apply (approx_left e (b' * a)); [ring|].
  apply (approx_value e _ (b * a)); [ring|].
  now apply approx_mul_exact.
Qed.

(** A rounded sum of an exact and an approximated non-negative term. *)
Lemma approx_add_exact_l (k a b' b : Q) :
  0 <= k -> k <= 256 -> 0 <= a -> 0 <= b ->
  Rounded.approx (k * u) b' b ->
  Rounded.approx ((k + 2) * u) (rnd (a + b')) (a + b).
Proof.
  intros Hk0 Hk Ha Hb Hap. pose proof model as (Hu0 & _ & _).
  apply approx_rnd_units; [exact Hk0|exact Hk|].
  apply approx_add_pos; [exact Ha|exact Hb| |exact Hap].
  apply (approx_weaken 0); [nra|apply approx_exact].
Qed.

Lemma approx_add_exact_r (k a' a b : Q) :
  0 <= k -> k <= 256 -> 0 <= a -> 0 <= b ->
  Rounded.approx (k * u) a' a ->
  Rounded.approx ((k + 2) * u) (rnd (a' + b)) (a + b).
Proof.
  intros Hk0 Hk Ha Hb Hap. pose proof model as (Hu0 & _ & _).
  apply approx_rnd_units; [exact Hk0|exact Hk|].
  apply approx_add_pos; [exact Ha|exact Hb|exact Hap|].
  apply (approx_weaken 0); [nra|apply approx_exact].
Qed.

(** A rounded quotient of two approximations with [ka] and [kb] units. *)
Lemma approx_div_units (ka kb a' a b' b : Q) :
  0 <= ka -> 0 <= kb -> kb <= 4 -> ka + kb <= 32 -> ~ b == 0 ->
  Rounded.approx (ka * u) a' a -> Rounded.approx (kb * u) b' b ->
  Rounded.approx ((ka + kb + 3) * u) (rnd (a' / b')) (a / b).
Proof.
  intros Hka Hkb Hkb4 Hk Hb0 Ha Hb. pose proof model as (Hu0 & Hu & _).
  apply (approx_weaken ((ka + kb + 1 + 2) * u)); [nra|].
  apply approx_rnd_units; [lra|lra|].
  apply (approx_weaken ((ka * u + kb * u) * (1 + 2 * (kb * u)))).
  - assert (0 <= kb * u) by nra. assert (kb * u <= 4 * (1 # 256)) by nra.
    assert (0 <= (ka + kb) * u) by nra.
    assert ((ka + kb) * u * (kb * u) <= (ka + kb) * u * (4 * (1 # 256)))
      by nra.
    assert ((ka + kb) * u <= 32 * u) by nra.
    nra.
  - apply approx_div; try assumption; nra.
Qed.

Lemma BDF2_coefficients_rounded (hn hn1 hn2 : Q) :
  0 < hn -> 0 < hn1 -> 0 < hn2 ->
  Rounded.approx (15 * u) (Rounded.BDF2_cn rnd hn hn1 hn2) (BDF2_cn hn hn1 hn2) /\
  Rounded.approx (9 * u) (Rounded.BDF2_cn1 rnd hn hn1 hn2)
                 (BDF2_cn1 hn hn1 hn2) /\
  Rounded.approx (9 * u) (Rounded.BDF2_cn2 rnd hn hn1 hn2)
                 (BDF2_cn2 hn hn1 hn2).
Proof.
  intros Hn Hn1 Hn2. pose proof model as (Hu0 & Hu & _).
  assert (U1 : forall a, Rounded.approx (1 * u) (rnd a) a)
    by (intro a; apply (approx_weaken u); [lra|apply approx_rnd_exact]).
  unfold Rounded.BDF2_cn, Rounded.BDF2_cn1, Rounded.BDF2_cn2,
    Rounded.fl_add, Rounded.fl_mul, Rounded.fl_div,
    BDF2_cn, BDF2_cn1, BDF2_cn2.
  assert (P12 : 0 < hn1 * hn2) by nra.
  assert (P1s : 0 < hn1 * (hn1 + hn2)) by nra.
  assert (P2s : 0 < hn2 * (hn1 + hn2)) by nra.
  split; [|split].
  - (* cn *)
    assert (N1 : Rounded.approx ((1 + 2) * u) (rnd (hn + rnd (2 * hn1)))
                                (hn + 2 * hn1))
      by (apply approx_add_exact_l; try lra; apply U1).
    assert (N2 : Rounded.approx ((1 + 2 + 2) * u)
                   (rnd (rnd (hn + rnd (2 * hn1)) + hn2))
                   (hn + 2 * hn1 + hn2))
      by (apply approx_add_exact_r; try lra; exact N1).
    assert (N3 : Rounded.approx ((1 + 2 + 2 + 2) * u)
                   (rnd (hn * rnd (rnd (hn + rnd (2 * hn1)) + hn2)))
                   (hn * (hn + 2 * hn1 + hn2))).
    { apply approx_rnd_units; [lra|lra|].
      apply approx_mul_exact_l; [nra|exact N2]. }
    assert (D1 : Rounded.approx ((1 + 2) * u) (rnd (hn1 * rnd (hn1 + hn2)))
                                (hn1 * (hn1 + hn2))).
    { apply approx_rnd_units; [lra|lra|].
      apply approx_mul_exact_l; [nra|apply U1]. }
    assert (Q1 : Rounded.approx ((1 + 2 + 2 + 2 + (1 + 2) + 3) * u)
                   (rnd (rnd (hn * rnd (rnd (hn + rnd (2 * hn1)) + hn2))
                         / rnd (hn1 * rnd (hn1 + hn2))))
                   (hn * (hn + 2 * hn1 + hn2) / (hn1 * (hn1 + hn2)))).
    { apply approx_div_units; try lra; assumption. }
    assert (Hq : 0 <= hn * (hn + 2 * hn1 + hn2) / (hn1 * (hn1 + hn2))).
    { apply Qlt_le_weak, Qlt_shift_div_l; [exact P1s|]. nra. }
    apply (approx_weaken ((1 + 2 + 2 + 2 + (1 + 2) + 3 + 2) * u)); [nra|].
    apply approx_add_exact_l; try lra. exact Q1.
  - (* cn1 *)
    assert (N1 : Rounded.approx ((1 + 2) * u) (rnd (rnd (hn + hn1) + hn2))
                                (hn + hn1 + hn2))
      by (apply approx_add_exact_r; try lra; apply U1).
    assert (N2 : Rounded.approx ((1 + 2 + 2) * u)
                   (rnd (- hn * rnd (rnd (hn + hn1) + hn2)))
                   (- hn * (hn + hn1 + hn2))).
    { apply approx_rnd_units; [lra|lra|].
      apply approx_mul_exact_l; [nra|exact N1]. }
    apply (approx_weaken ((1 + 2 + 2 + 1 + 3) * u)); [nra|].
    apply approx_div_units; try lra; [exact N2|apply U1].
  - (* cn2 *)
    assert (N1 : Rounded.approx ((1 + 2) * u) (rnd (hn * rnd (hn + hn1)))
                                (hn * (hn + hn1))).
    { apply approx_rnd_units; [lra|lra|].
      apply approx_mul_exact_l; [nra|apply U1]. }
    assert (D1 : Rounded.approx ((1 + 2) * u) (rnd (hn2 * rnd (hn1 + hn2)))
                                (hn2 * (hn1 + hn2))).
    { apply approx_rnd_units; [lra|lra|].
      apply approx_mul_exact_l; [nra|apply U1]. }
    apply (approx_weaken ((1 + 2 + (1 + 2) + 3) * u)); [nra|].
    apply approx_div_units; try lra; assumption.
Qed.

Lemma Qabs_diff_abs (a b : Q) : Qabs (Qabs a - Qabs b) <= Qabs (a - b).
Proof.
  apply Qabs_Qle_condition. split.
  - pose proof (Qabs_triangle_reverse b a) as Hr.
    setoid_replace (b - a) with (- (a - b)) in Hr by ring.
    rewrite Qabs_opp in Hr. lra.
  - apply Qabs_triangle_reverse.
Qed.

Lemma potential_damp_ckt_rounded (bound xx yy ww : Q) :
  0 < bound -> bound < Qabs yy ->
  Qabs (Qabs (Rounded.potential_damp_ckt rnd bound xx yy ww - xx) - bound)
  <= u * (Qabs xx + 5 * bound).
Proof.
  intros Hb Hbig. pose proof model as (Hu0 & Hu & _).
  unfold Rounded.potential_damp_ckt. cbv zeta.
  destruct (Qlt_le_dec bound (Qabs yy)) as [_ | Hle];
    [|exfalso; exact (Qlt_not_le _ _ Hbig Hle)].
  unfold Rounded.fl_sub, Rounded.fl_mul, Rounded.fl_div.
  set (D := bound / Qabs yy * yy).
  assert (HD : Qabs D == bound) by (apply Qabs_scaled_step; assumption).
  assert (A1 : Rounded.approx (1 * u) (rnd (bound / Qabs yy) * yy) D).
  { apply approx_mul_exact; [nra|].
    apply (approx_weaken u); [lra|apply approx_rnd_exact]. }
  apply approx_rnd_units in A1; [|lra|lra].
  set (d' := rnd (rnd (bound / Qabs yy) * yy)) in *.
  assert (Hs : Qabs (xx - d' - (xx - D)) <= (1 + 2) * u * bound).
  { unfold Rounded.approx in A1. rewrite HD in A1.
    setoid_replace (xx - d' - (xx - D)) with (- (d' - D)) by ring.
    now rewrite Qabs_opp. }
  apply rnd_sum_error in Hs.
  assert (Ht : Qabs (xx - D) <= Qabs xx + bound).
  { unfold Qminus. eapply Qle_trans; [apply Qabs_triangle|].
    rewrite Qabs_opp, HD. apply Qle_refl. }
  assert (Hinc : Qabs (rnd (xx - d') - xx - (- D))
                 <= u * (Qabs xx + 5 * bound)).
  { setoid_replace (rnd (xx - d') - xx - - D) with (rnd (xx - d') - (xx - D))
      by ring.
    eapply Qle_trans; [exact Hs|].
    pose proof (Qabs_nonneg xx) as Hx. pose proof (Qabs_nonneg (xx - D)).
    set (X := Qabs xx) in *. set (T := Qabs (xx - D)) in *.
    assert (u * T <= u * (X + bound)) by nra.
    assert (0 <= u * bound) by nra.
    assert (u * (u * bound) <= (1 # 256) * (u * bound)) by nra.
    nra. }
  eapply Qle_trans; [|exact Hinc].
  rewrite <- HD at 1. rewrite <- (Qabs_opp D).
  apply Qabs_diff_abs.
Qed.
End RoundingErrors.

Lemma round_up_model :
  Rounded.standard_model Examples.round_up Examples.unit_roundoff.
Proof.
  split; [discriminate|]. split; [discriminate|].
  intro q. unfold Examples.round_up.
  setoid_replace (q * (1 + Examples.unit_roundoff) - q)
    with (Examples.unit_roundoff * q) by ring.
  rewrite Qabs_Qmult, (Qabs_pos Examples.unit_roundoff) by discriminate.
  apply Qle_refl.
Qed.

(** ** Predictors *)

Lemma BDF1_predictor_at (hn hn1 : Q) (x_n x_n1 : Array) (i : nat) :
  BDF1_predictor hn hn1 x_n x_n1 i
  = 0 + (1 + hn / hn1) * x_n i + - hn / hn1 * x_n1 i.
Proof. reflexivity. Qed.

(** C8 as stated fails in the arithmetic of the solver: in binary64, with
    [dt = 2], [dt_last = 3] and the steady history [x_n = x_n1 = 1], the
    predicted value is [1 - 2^-53], not 1. *)
Lemma BDF1_predictor_steady_rounds :
  PrimFloat.eqb (Binary64.BDF1_predictor 2 3 1 1) 1 = false /\
  PrimFloat.ltb (Binary64.BDF1_predictor 2 3 1 1) 1 = true /\
  PrimFloat.eqb (Binary64.BDF1_predictor 2 3 1 1) 0x1.fffffffffffffp-1
  = true.
Proof. split; [reflexivity|]. split; reflexivity. Qed.

(** C8, amended.  For positive step sizes [dt] and [dt_last], whenever
    [LTE_norm] takes its BDF1 predictor branch ([TS_type == BDF1], or BDF2
    in lower order) and the history is steady at a component,
    [x_n1 = x_n], the predicted value [xp] equals [x_n] up to rounding:
    - the branch computes [(0 + (1 + dt/dt_last) x_n) + (-dt/dt_last) x_n1],
      which in exact arithmetic is the rounded expression with the
      identity for rounding;
    - when every operation has a relative rounding error of at most [u]
      (at most [2^-8]; binary64 has [u = 2^-53]),
      [|xp - x_n| <= 11 u (1 + dt/dt_last) |x_n|];
    - so [xp = x_n] exactly when no operation rounds ([u = 0]). *)
Theorem BDF1_predictor_steady
    (rnd : Q -> Q) (u : Q)
    (S : SolverSpecify.t) (x x_n x_n1 x_n2 : Array) (i : nat) :
  Rounded.standard_model rnd u ->
  0 < SolverSpecify.dt S -> 0 < SolverSpecify.dt_last S ->
  SolverSpecify.TS_type S = SolverSpecify.BDF1
  \/ SolverSpecify.BDF2_LowerOrder S = true ->
  x_n1 i == x_n i ->
  let hn := SolverSpecify.dt S in
  let hn1 := SolverSpecify.dt_last S in
  fst (LTE_predict S x x_n x_n1 x_n2) i
  = Rounded.BDF1_predictor (fun q => q) hn hn1 x_n x_n1 i /\
  Qabs (Rounded.BDF1_predictor rnd hn hn1 x_n x_n1 i - x_n i)
  <= 11 * u * (1 + hn / hn1) * Qabs (x_n i) /\
  (u == 0 -> Rounded.BDF1_predictor rnd hn hn1 x_n x_n1 i == x_n i).
Proof.
  intros Hmodel Hn Hn1 Hbranch Hsteady hn hn1.
  assert (Hxp : fst (LTE_predict S x x_n x_n1 x_n2)
                = BDF1_predictor hn hn1 x_n x_n1).
  { unfold LTE_predict.
    destruct Hbranch as [-> | Hlow].
    - reflexivity.
    - destruct (SolverSpecify.TS_type S); [reflexivity|].
      rewrite Hlow. reflexivity. }
  pose proof (BDF1_predictor_rounded rnd u Hmodel hn hn1 x_n x_n1 i Hn Hn1
                Hsteady) as Hbound.
  split; [rewrite Hxp; apply BDF1_predictor_at|].
  split; [exact Hbound|].
  intro Hu. rewrite Hu in Hbound.
  setoid_replace (11 * 0 * (1 + hn / hn1) * Qabs (x_n i)) with 0 in Hbound
    by ring.
  apply Qabs_zero in Hbound. lra.
Qed.

Lemma BDF1_predictor_steady_witness :
  Qabs (Rounded.BDF1_predictor Examples.round_up 2 3 (fun _ => 1)
          (fun _ => 1) 0%nat - 1)
  <= 11 * Examples.unit_roundoff * (1 + 2 / 3) * Qabs 1.
Proof.
  refine (proj1 (proj2
    (BDF1_predictor_steady Examples.round_up Examples.unit_roundoff
       (SolverSpecify.mk 2 3 1 (1 # 1000) (1 # 10000)
          SolverSpecify.BDF1 false true)
       (fun _ => 7) (fun _ => 1) (fun _ => 1) (fun _ => 0) 0%nat
       round_up_model _ _ _ _))).
  - reflexivity.
  - reflexivity.
  - left; reflexivity.
  - reflexivity.
Defined.

(** C9 as stated fails twice.  Read literally, with [hn^0 = 1] as the
    weight of [c_n], the second identity is false for three unit steps,
    where the coefficients are 3, -3, 1 and the left-hand side is 4.  And
    in binary64 neither identity is exact: the coefficients computed for
    the steps (1, 3, 1) add up to less than 1, and the first moment
    computed for the steps (1, 3, 5) is below [hn = 1]. *)
Lemma BDF2_moment_literal_counterexample :
  BDF2_cn 1 1 1 == 3 /\ BDF2_cn1 1 1 1 == -3 /\ BDF2_cn2 1 1 1 == 1 /\
  BDF2_cn 1 1 1 * 1 ^ 0 + BDF2_cn1 1 1 1 * - (1)
    + BDF2_cn2 1 1 1 * (- (1) - 1) == 4 /\
  ~ (BDF2_cn 1 1 1 * 1 ^ 0 + BDF2_cn1 1 1 1 * - (1)
     + BDF2_cn2 1 1 1 * (- (1) - 1) == 1) /\
  PrimFloat.ltb (Binary64.BDF2_cn 1 3 1 + Binary64.BDF2_cn1 1 3 1
                 + Binary64.BDF2_cn2 1 3 1)%float 1 = true /\
  PrimFloat.ltb (Binary64.BDF2_cn 1 3 5 * 0
                 + Binary64.BDF2_cn1 1 3 5 * - (3)
                 + Binary64.BDF2_cn2 1 3 5 * (- (3) - 5))%float 1 = true.
Proof.
  split; [reflexivity|]. split; [reflexivity|]. split; [reflexivity|].
  split; [reflexivity|].
  split; [intro Hc; discriminate Hc|].
  split; reflexivity.
Qed.

(** C9, amended.  For positive step sizes:
    - in exact arithmetic the coefficient formulas of the higher-order
      BDF2 predictor sum to one and match the first moment when [x_n] sits
      at time offset 0, [x_n1] at [-hn1] and [x_n2] at [-hn1-hn2]:
      [cn*0 + cn1*(-hn1) + cn2*(-hn1-hn2) = hn];
    - when every operation has a relative rounding error of at most [u]
      (at most [2^-8]; binary64 has [u = 2^-53]), the computed
      coefficients are within [15 u], [9 u] and [9 u] of those values in
      relative terms, so that they satisfy the two identities up to
      [15 u (|cn| + |cn1| + |cn2|)] and
      [9 u (|cn1| hn1 + |cn2| (hn1 + hn2))]. *)
Theorem BDF2_predictor_moments (rnd : Q -> Q) (u : Q) (hn hn1 hn2 : Q) :
  Rounded.standard_model rnd u ->
  0 < hn -> 0 < hn1 -> 0 < hn2 ->
  let cn := BDF2_cn hn hn1 hn2 in
  let cn1 := BDF2_cn1 hn hn1 hn2 in
  let cn2 := BDF2_cn2 hn hn1 hn2 in
  let cn' := Rounded.BDF2_cn rnd hn hn1 hn2 in
  let cn1' := Rounded.BDF2_cn1 rnd hn hn1 hn2 in
  let cn2' := Rounded.BDF2_cn2 rnd hn hn1 hn2 in
  (cn + cn1 + cn2 == 1 /\
   cn * 0 + cn1 * - hn1 + cn2 * (- hn1 - hn2) == hn) /\
  (Rounded.BDF2_cn (fun q => q) hn hn1 hn2 = cn /\
   Rounded.BDF2_cn1 (fun q => q) hn hn1 hn2 = cn1 /\
   Rounded.BDF2_cn2 (fun q => q) hn hn1 hn2 = cn2) /\
  (Qabs (cn' - cn) <= 15 * u * Qabs cn /\
   Qabs (cn1' - cn1) <= 9 * u * Qabs cn1 /\
   Qabs (cn2' - cn2) <= 9 * u * Qabs cn2) /\
  Qabs (cn' + cn1' + cn2' - 1)
  <= 15 * u * (Qabs cn + Qabs cn1 + Qabs cn2) /\
  Qabs (cn' * 0 + cn1' * - hn1 + cn2' * (- hn1 - hn2) - hn)
  <= 9 * u * (Qabs cn1 * hn1 + Qabs cn2 * (hn1 + hn2)).
Proof.
  intros Hmodel Hn Hn1 Hn2 cn cn1 cn2 cn' cn1' cn2'.
  pose proof Hmodel as (Hu0 & _ & _).
  assert (Hz1 : ~ hn1 == 0) by lra.
  assert (Hz2 : ~ hn2 == 0) by lra.
  assert (Hz12 : ~ hn1 + hn2 == 0) by lra.
  assert (Hsum : cn + cn1 + cn2 == 1)
    by (unfold cn, cn1, cn2, BDF2_cn, BDF2_cn1, BDF2_cn2; field; auto).
  assert (Hmom : cn * 0 + cn1 * - hn1 + cn2 * (- hn1 - hn2) == hn)
    by (unfold cn, cn1, cn2, BDF2_cn, BDF2_cn1, BDF2_cn2; field; auto).
  destruct (BDF2_coefficients_rounded rnd u Hmodel hn hn1 hn2 Hn Hn1 Hn2)
    as (A0 & A1 & A2).
  fold cn cn1 cn2 cn' cn1' cn2' in A0, A1, A2.
  unfold Rounded.approx in A0, A1, A2.
  split; [split; [exact Hsum|exact Hmom]|].
  split; [split; [reflexivity|split; reflexivity]|].
  split; [split; [exact A0|split; [exact A1|exact A2]]|].
  pose proof (Qabs_nonneg cn) as N0. pose proof (Qabs_nonneg cn1) as N1.
  pose proof (Qabs_nonneg cn2) as N2.
  split.
  - setoid_replace (cn' + cn1' + cn2' - 1)
      with ((cn' - cn) + (cn1' - cn1) + (cn2' - cn2))
      by (rewrite <- Hsum; ring).
    eapply Qle_trans; [apply Qabs_triangle|].
    eapply Qle_trans;
      [apply Qplus_le_compat; [apply Qabs_triangle|apply Qle_refl]|].
    assert (0 <= u * Qabs cn1) by nra. assert (0 <= u * Qabs cn2) by nra.
    lra.
  - setoid_replace (cn' * 0 + cn1' * - hn1 + cn2' * (- hn1 - hn2) - hn)
      with ((cn1' - cn1) * - hn1 + (cn2' - cn2) * (- hn1 - hn2))
      by (rewrite <- Hmom; ring).
    eapply Qle_trans; [apply Qabs_triangle|].
    rewrite !Qabs_Qmult, Qabs_opp, (Qabs_pos hn1) by lra.
    setoid_replace (- hn1 - hn2) with (- (hn1 + hn2)) by ring.
    rewrite Qabs_opp, (Qabs_pos (hn1 + hn2)) by lra.
    pose proof (Qabs_nonneg (cn1' - cn1)). pose proof (Qabs_nonneg (cn2' - cn2)).
    nra.
Qed.

Lemma BDF2_predictor_moments_witness :
  Qabs (Rounded.BDF2_cn Examples.round_up (1 # 2) 1 2
        + Rounded.BDF2_cn1 Examples.round_up (1 # 2) 1 2
        + Rounded.BDF2_cn2 Examples.round_up (1 # 2) 1 2 - 1)
  <= 15 * Examples.unit_roundoff
     * (Qabs (BDF2_cn (1 # 2) 1 2) + Qabs (BDF2_cn1 (1 # 2) 1 2)
        + Qabs (BDF2_cn2 (1 # 2) 1 2)).
Proof.
  refine (proj1 (proj2 (proj2 (proj2
    (BDF2_predictor_moments Examples.round_up Examples.unit_roundoff
       (1 # 2) 1 2 round_up_model _ _ _))))); reflexivity.
Defined.

(** ** [BDF2_positive_defined] *)

(** C1 at concrete histories, with [dt = dt_last] (so [r = 1/2], [a = 4],
    [b = 1]).  On a steady positive history every inequality
    [a xi_new >= b xi_last] holds and the routine returns [false]; on a
    history whose electron density dropped from 16 to 1 (below an eighth)
    the routine returns [true]. *)
Theorem BDF2_positive_defined_inverted :
  BDF2_r Examples.equal_steps == 1 # 2 /\
  BDF2_a Examples.equal_steps == 4 /\
  BDF2_b Examples.equal_steps == 1 /\
  BDF2_all_ok Examples.equal_steps
    [Examples.one_node_proc Examples.steady_node] /\
  BDF2_positive_defined Examples.equal_steps
    [Examples.one_node_proc Examples.steady_node] = false /\
  FVM_NodeData.n (node_data Examples.dropped_node)
    < FVM_NodeData.n_last (node_data Examples.dropped_node) / 8 /\
  BDF2_positive_defined Examples.equal_steps
    [Examples.one_node_proc Examples.dropped_node] = true.
Proof.
  split; [reflexivity|]. split; [reflexivity|]. split; [reflexivity|].
  split; [|split; [reflexivity|split; reflexivity]].
  intros P region nd [<- | []] [<- | []] _ [<- | []].
  unfold BDF2_node_ok. cbv zeta.
  split; [|split; [|split; [|split]]];
    try (intro Hflag; discriminate Hflag);
    vm_compute; discriminate.
Qed.

(** ** Loops that update an array slot by slot *)

Lemma upd_same (a : Array) (i : nat) (v : Q) : upd a i v i = v.
Proof. unfold upd. now rewrite Nat.eqb_refl. Qed.

Lemma upd_other (a : Array) (i j : nat) (v : Q) : j <> i -> upd a i v j = a j.
Proof. unfold upd. intro Hne. apply Nat.eqb_neq in Hne. now rewrite Hne. Qed.

Lemma NoDup_app_disjoint {A : Type} (l1 l2 : list A) :
  NoDup (l1 ++ l2) -> forall a, In a l1 -> ~ In a l2.
Proof.
  induction l1 as [|b l1 IH]; simpl; intros Hnd a Hin; [contradiction|].
  inversion Hnd as [|? ? Hnotin Hnd']; subst.
  destruct Hin as [<- | Hin].
  - intro Hin2. apply Hnotin. apply in_or_app. now right.
  - now apply IH.
Qed.

Section FoldArray.
Context {A : Type}.
Variable step : Array -> A -> Array.
Variable writes : A -> list nat.

Lemma fold_left_frame (l : list A) :
  (forall a, In a l -> frames step writes a) ->
  forall w i, ~ In i (flat_map writes l) -> fold_left step l w i = w i.
Proof.
  induction l as [|a l IH]; simpl; intros Hfr w i Hnot; [reflexivity|].
  rewrite IH.
  - apply Hfr; [now left|]. intro Hin. apply Hnot, in_or_app. now left.
  - intros b Hb. apply Hfr. now right.
  - intro Hin. apply Hnot, in_or_app. now right.
Qed.

Lemma fold_left_reads_own (l : list A) :
  (forall a, In a l -> frames step writes a /\ reads_own step writes a) ->
  forall w w' i,
    (forall j, In j (flat_map writes l) -> w j = w' j) ->
    In i (flat_map writes l) ->
    fold_left step l w i = fold_left step l w' i.
Proof.
  induction l as [|a l IH]; simpl; intros Hok w w' i Hagree Hin;
    [contradiction|].
  destruct (Hok a (or_introl eq_refl)) as [Hfr Hloc].
  assert (Hok' : forall b, In b l -> frames step writes b /\ reads_own step writes b)
    by (intros b Hb; apply Hok; now right).
  assert (Hstep : forall j, In j (writes a ++ flat_map writes l) ->
                            step w a j = step w' a j).
  { intros j Hj.
    destruct (in_dec Nat.eq_dec j (writes a)) as [Ha | Hna].
    - apply Hloc; [|exact Ha].
      intros k Hk. apply Hagree, in_or_app. now left.
    - rewrite (Hfr w j Hna), (Hfr w' j Hna). now apply Hagree. }
  destruct (in_dec Nat.eq_dec i (flat_map writes l)) as [Hl | Hnl].
  - apply IH; [exact Hok' | | exact Hl].
    intros j Hj. apply Hstep, in_or_app. now right.
  - rewrite !fold_left_frame; try exact Hnl;
      try (intros b Hb; now apply Hok').
    now apply Hstep.
Qed.

Lemma fold_left_at (l : list A) :
  (forall a, In a l -> frames step writes a /\ reads_own step writes a) ->
  NoDup (flat_map writes l) ->
  forall w a i, In a l -> In i (writes a) ->
    fold_left step l w i = step w a i.
Proof.
  induction l as [|b l IH]; simpl; intros Hok Hnd w a i Ha Hi;
    [contradiction|].
  assert (Hok' : forall c, In c l -> frames step writes c /\ reads_own step writes c)
    by (intros c Hc; apply Hok; now right).
  destruct Ha as [<- | Ha].
  - apply fold_left_frame; [intros c Hc; now apply Hok'|].
    now apply (NoDup_app_disjoint _ _ Hnd).
  - rewrite (IH Hok' (NoDup_app_remove_l _ _ Hnd) (step w b) a i Ha Hi).
    destruct (Hok a (or_intror Ha)) as [_ Hloc].
    apply Hloc; [|exact Hi].
    intros j Hj. apply (proj1 (Hok b (or_introl eq_refl))).
    intro Hjb. apply (NoDup_app_disjoint _ _ Hnd j Hjb).
    apply in_flat_map. now exists a.
Qed.
End FoldArray.

Lemma NoDup_flat_map_in {A B : Type} (f : A -> list B) (l : list A) (a : A) :
  NoDup (flat_map f l) -> In a l -> NoDup (f a).
Proof.
  induction l as [|b l IH]; simpl; intros Hnd Hin; [contradiction|].
  destruct Hin as [<- | Hin].
  - exact (NoDup_app_remove_r _ _ Hnd).
  - exact (IH (NoDup_app_remove_l _ _ Hnd) Hin).
Qed.

Lemma NoDup_map_injective {A B : Type} (f : A -> B) (l : list A) (a b : A) :
  NoDup (map f l) -> In a l -> In b l -> f a = f b -> a = b.
Proof.
  induction l as [|c l IH]; simpl; intros Hnd Ha Hb Hf; [contradiction|].
  inversion Hnd as [|? ? Hnotin Hnd']; subst.
  destruct Ha as [<- | Ha], Hb as [<- | Hb]; auto.
  - exfalso. apply Hnotin. rewrite Hf. now apply in_map.
  - exfalso. apply Hnotin. rewrite <- Hf. now apply in_map.
Qed.

Lemma agree_upd (S : list nat) (w w' : Array) (i : nat) (v v' : Q) :
  agree S w w' -> v = v' -> agree S (upd w i v) (upd w' i v').
Proof.
  intros Hag -> j Hj. unfold upd. destruct (Nat.eqb j i); auto.
Qed.

(** *** Slots of a node *)

Lemma in_node_slots (region : SimulationRegion) (nd : FVM_Node)
    (v : SolutionVariable) :
  In v (node_variables region) -> In (slot region nd v) (node_slots region nd).
Proof. apply in_map. Qed.

Lemma potential_in_variables (region : SimulationRegion) :
  In POTENTIAL (node_variables region).
Proof. now left. Qed.

Lemma semiconductor_variables (region : SimulationRegion) :
  type region = SemiconductorRegion ->
  In ELECTRON (node_variables region) /\
  In HOLE (node_variables region) /\
  (enable_Tl (get_advanced_model region) = true ->
   In TEMPERATURE (node_variables region)) /\
  (enable_Tn (get_advanced_model region) = true ->
   In E_TEMP (node_variables region)) /\
  (enable_Tp (get_advanced_model region) = true ->
   In H_TEMP (node_variables region)).
Proof.
  intro Ht. unfold node_variables. rewrite Ht.
  destruct (enable_Tl _), (enable_Tn _), (enable_Tp _); simpl;
    repeat split; intros; try discriminate; auto 8.
Qed.

Lemma insulator_variables (region : SimulationRegion) :
  type region = InsulatorRegion \/ type region = ElectrodeRegion
  \/ type region = MetalRegion ->
  enable_Tl (get_advanced_model region) = true ->
  In TEMPERATURE (node_variables region).
Proof.
  unfold node_variables.
  intros [-> | [-> | ->]] ->; simpl; auto.
Qed.

Lemma slot_distinct (region : SimulationRegion) (nd : FVM_Node)
    (v v' : SolutionVariable) :
  NoDup (node_slots region nd) ->
  In v (node_variables region) -> In v' (node_variables region) ->
  v <> v' -> slot region nd v <> slot region nd v'.
Proof.
  intros Hnd Hv Hv' Hne Heq. apply Hne.
  exact (NoDup_map_injective _ _ _ _ Hnd Hv Hv' Heq).
Qed.

(** *** The elementary array steps *)

Lemma clamp_below_same (w : Array) (i : nat) (lo : Q) :
  clamp_below w i lo i = if Qlt_le_dec (w i) lo then lo else w i.
Proof.
  unfold clamp_below. destruct (Qlt_le_dec (w i) lo); [apply upd_same|reflexivity].
Qed.

Lemma clamp_below_other (w : Array) (i j : nat) (lo : Q) :
  j <> i -> clamp_below w i lo j = w j.
Proof.
  intro Hne. unfold clamp_below.
  destruct (Qlt_le_dec (w i) lo); [now apply upd_other|reflexivity].
Qed.

Lemma clamp_below_agree (S : list nat) (w w' : Array) (i : nat) (lo : Q) :
  In i S -> agree S w w' -> agree S (clamp_below w i lo) (clamp_below w' i lo).
Proof.
  intros Hi Hag. unfold clamp_below. rewrite <- (Hag i Hi).
  destruct (Qlt_le_dec (w i) lo); [now apply agree_upd|exact Hag].
Qed.

Lemma clamp_below_within (S : list nat) (w : Array) (i j : nat) (lo : Q) :
  In i S -> ~ In j S -> clamp_below w i lo j = w j.
Proof. intros Hi Hj. apply clamp_below_other. intros ->. contradiction. Qed.

Lemma carrier_temperature_same (T_ext : Q) (x w : Array) (i_n i_T : nat) :
  carrier_temperature T_ext x w i_n i_T i_T
  = carrier_T1 T_ext (x i_n) (w i_n) (x i_T) (w i_T) * w i_n.
Proof. unfold carrier_temperature. apply upd_same. Qed.

Lemma carrier_temperature_other (T_ext : Q) (x w : Array) (i_n i_T j : nat) :
  j <> i_T -> carrier_temperature T_ext x w i_n i_T j = w j.
Proof. intro Hne. unfold carrier_temperature. now apply upd_other. Qed.

Lemma carrier_temperature_agree (S : list nat) (T_ext : Q) (x w w' : Array)
    (i_n i_T : nat) :
  In i_n S -> In i_T S -> agree S w w' ->
  agree S (carrier_temperature T_ext x w i_n i_T)
          (carrier_temperature T_ext x w' i_n i_T).
Proof.
  intros Hn HT Hag. unfold carrier_temperature.
  apply agree_upd; [exact Hag|].
  now rewrite (Hag i_n Hn), (Hag i_T HT).
Qed.

Lemma carrier_temperature_within (S : list nat) (T_ext : Q) (x w : Array)
    (i_n i_T j : nat) :
  In i_T S -> ~ In j S -> carrier_temperature T_ext x w i_n i_T j = w j.
Proof. intros Hi Hj. apply carrier_temperature_other. intros ->. contradiction. Qed.

Lemma upd_within (S : list nat) (w : Array) (i j : nat) (v : Q) :
  In i S -> ~ In j S -> upd w i v j = w j.
Proof. intros Hi Hj. apply upd_other. intros ->. contradiction. Qed.

(** Rewrite the index expressions of a loop body as [slot]s. *)
Ltac fold_slots region nd :=
  fold (slot region nd POTENTIAL); fold (slot region nd ELECTRON);
  fold (slot region nd HOLE); fold (slot region nd TEMPERATURE);
  fold (slot region nd E_TEMP); fold (slot region nd H_TEMP).

(** *** [positive_density_damping], node by node *)

Section PositiveDensity.
Variable PU : PhysicalUnit.t.
Variable T_ext : Q.
Variables x y : Array.

Lemma positive_density_node_frames (region : SimulationRegion)
    (nd : FVM_Node) (w : Array) (j : nat) :
  type region = SemiconductorRegion ->
  ~ In j (node_slots region nd) ->
  positive_density_node PU T_ext region x y w nd j = w j.
Proof.
  intros Ht Hj.
  destruct (semiconductor_variables region Ht) as (Hn & Hp & HTl & HTn & HTp).
  pose proof (in_node_slots region nd _ (potential_in_variables region)) as Ipsi.
  pose proof (in_node_slots region nd _ Hn) as In_.
  pose proof (in_node_slots region nd _ Hp) as Ip.
  unfold positive_density_node. fold (slot region nd POTENTIAL).
  fold (slot region nd ELECTRON). fold (slot region nd HOLE).
  fold (slot region nd TEMPERATURE). fold (slot region nd E_TEMP).
  fold (slot region nd H_TEMP).
  destruct (enable_Tp _) eqn:ETp; destruct (enable_Tn _) eqn:ETn;
    destruct (enable_Tl _) eqn:ETl;
    repeat match goal with
      | |- context [carrier_temperature _ _ _ _ (slot region nd ?v) j] =>
          rewrite (carrier_temperature_within (node_slots region nd));
          [ | apply in_node_slots; auto | exact Hj ]
      | |- context [clamp_below _ (slot region nd ?v) _ j] =>
          rewrite (clamp_below_within (node_slots region nd));
          [ | apply in_node_slots; auto | exact Hj ]
      end;
    repeat match goal with
      | |- context [if ?c then _ else _] => destruct c
      end;
    rewrite ?(upd_within (node_slots region nd)); auto.
Qed.

(** With the electron density at [local_offset+1], the density test of
    the routine is a clamp of the electron slot. *)
Lemma electron_test_clamp (region : SimulationRegion) (nd : FVM_Node)
    (w : Array) (lo : Q) :
  ebm_variable_offset region ELECTRON = 1%nat ->
  (if Qlt_le_dec (w (local_offset nd + 1)%nat) lo
   then upd w (slot region nd ELECTRON) lo else w)
  = clamp_below w (slot region nd ELECTRON) lo.
Proof. intro He. unfold clamp_below, slot. now rewrite He. Qed.

Lemma positive_density_node_agree (region : SimulationRegion)
    (nd : FVM_Node) (w w' : Array) :
  type region = SemiconductorRegion ->
  ebm_variable_offset region ELECTRON = 1%nat ->
  agree (node_slots region nd) w w' ->
  agree (node_slots region nd)
        (positive_density_node PU T_ext region x y w nd)
        (positive_density_node PU T_ext region x y w' nd).
Proof.
  intros Ht He Hag.
  destruct (semiconductor_variables region Ht) as (Hn & Hp & HTl & HTn & HTp).
  pose proof (potential_in_variables region) as Hpsi.
  unfold positive_density_node. fold_slots region nd.
  rewrite !(electron_test_clamp region nd _ _ He).
  destruct (enable_Tp _) eqn:ETp; destruct (enable_Tn _) eqn:ETn;
    destruct (enable_Tl _) eqn:ETl;
    repeat first
      [ apply carrier_temperature_agree; [apply in_node_slots; auto ..|]
      | apply clamp_below_agree; [apply in_node_slots; auto|] ];
    destruct (Qlt_le_dec 1 _); try exact Hag; now apply agree_upd.
Qed.

End PositiveDensity.

Lemma wf_layout_device (P : Process) : wf_layout P -> NoDup (device_slots P).
Proof. apply NoDup_app_remove_r. Qed.

Lemma wf_layout_region (P : Process) (region : SimulationRegion) :
  wf_layout P -> In region (regions P) -> NoDup (region_slots region).
Proof.
  intros Hwf Hin.
  exact (NoDup_flat_map_in _ _ _ (wf_layout_device P Hwf) Hin).
Qed.

Lemma wf_layout_node (P : Process) (region : SimulationRegion) (nd : FVM_Node) :
  wf_layout P -> In region (regions P) -> In nd (on_processor_nodes region) ->
  NoDup (node_slots region nd).
Proof.
  intros Hwf Hr Hn.
  exact (NoDup_flat_map_in _ _ _ (wf_layout_region P region Hwf Hr) Hn).
Qed.

Lemma clip_bound (v lo : Q) : lo <= (if Qlt_le_dec v lo then lo else v).
Proof. destruct (Qlt_le_dec v lo); [apply Qle_refl|assumption]. Qed.

(** *** The loops seen from one node *)


Section PositiveDensityAround.
Variable PU : PhysicalUnit.t.
Variables x y : Array.



End PositiveDensityAround.



Lemma wf_layout_ebm_proc : wf_layout Examples.ebm_proc.
Proof.
  unfold wf_layout. simpl.
  repeat (constructor; [simpl; intuition discriminate|]). constructor.
Qed.


(** ** [potential_damping] *)

Lemma fold_left_split {A B C : Type} (step : A * B -> C -> A * B)
    (f : A -> C -> A) (g : B -> C -> B) :
  (forall a b c, step (a, b) c = (f a c, g b c)) ->
  forall l a b, fold_left step l (a, b) = (fold_left f l a, fold_left g l b).
Proof.
  intros Hstep l. induction l as [|c l IH]; simpl; intros a b; [reflexivity|].
  now rewrite Hstep, IH.
Qed.

(** *** The running maximum *)

Section RunningMax.
Context {A : Type}.
Variable g : A -> Q.

Let bump (m : Q) (a : A) : Q := if Qlt_le_dec m (g a) then g a else m.

Lemma running_max_init (l : list A) (m : Q) : m <= fold_left bump l m.
Proof.
  revert m. induction l as [|a l IH]; simpl; intro m; [apply Qle_refl|].
  eapply Qle_trans; [|apply IH].
  unfold bump. destruct (Qlt_le_dec m (g a)); [now apply Qlt_le_weak|apply Qle_refl].
Qed.

Lemma running_max_upper (l : list A) (m : Q) (a : A) :
  In a l -> g a <= fold_left bump l m.
Proof.
  revert m. induction l as [|b l IH]; simpl; intros m Hin; [contradiction|].
  destruct Hin as [<- | Hin]; [|now apply IH].
  eapply Qle_trans; [|apply running_max_init].
  unfold bump. destruct (Qlt_le_dec m (g b)); [apply Qle_refl|assumption].
Qed.

Lemma running_max_attained (l : list A) (m : Q) :
  fold_left bump l m = m \/ exists a, In a l /\ fold_left bump l m = g a.
Proof.
  revert m. induction l as [|b l IH]; simpl; intro m; [now left|].
  destruct (IH (bump m b)) as [Heq | (a & Ha & Heq)].
  - rewrite Heq. unfold bump. destruct (Qlt_le_dec m (g b)); [right|now left].
    exists b. split; [now left|reflexivity].
  - right. exists a. split; [now right|exact Heq].
Qed.
End RunningMax.

Section PotentialScan.
Variable PU : PhysicalUnit.t.
Variables x y : Array.

Lemma potential_scan_node_split (T_ext : Q) (region : SimulationRegion)
    (dV : Q) (w : Array) (nd : FVM_Node) :
  potential_scan_node PU T_ext region x y (dV, w) nd
  = (potential_scan_node_dV region y dV nd,
     potential_scan_node_w PU T_ext region x w nd).
Proof. reflexivity. Qed.

Lemma potential_scan_region_split (T_ext : Q) (dV : Q) (w : Array)
    (region : SimulationRegion) :
  potential_scan_region PU T_ext x y (dV, w) region
  = (potential_scan_region_dV y dV region,
     potential_scan_region_w PU T_ext x w region).
Proof.
  unfold potential_scan_region, potential_scan_region_dV,
    potential_scan_region_w.
  destruct (is_semiconductor (type region)); [|reflexivity].
  apply fold_left_split. intros a b c. apply potential_scan_node_split.
Qed.

Lemma potential_scan_split (P : Process) (w : Array) :
  potential_scan PU P x y w
  = (fold_left (potential_scan_region_dV y) (regions P) 0,
     fold_left (potential_scan_region_w PU (T_external P) x) (regions P) w).
Proof.
  unfold potential_scan. apply fold_left_split.
  intros a b c. apply potential_scan_region_split.
Qed.

(** *** The local maximum of [|y_psi|] *)

Lemma potential_scan_region_dV_init (region : SimulationRegion) (m : Q) :
  m <= potential_scan_region_dV y m region.
Proof.
  unfold potential_scan_region_dV.
  destruct (is_semiconductor (type region)); [|apply Qle_refl].
  apply (running_max_init (fun nd => Qabs (y (slot region nd POTENTIAL)))).
Qed.

Lemma potential_scan_dV_init (l : list SimulationRegion) (m : Q) :
  m <= fold_left (potential_scan_region_dV y) l m.
Proof.
  revert m. induction l as [|r l IH]; simpl; intro m; [apply Qle_refl|].
  eapply Qle_trans; [apply (potential_scan_region_dV_init r)|apply IH].
Qed.

Lemma potential_scan_dV_upper (l : list SimulationRegion) (m : Q)
    (region : SimulationRegion) (nd : FVM_Node) :
  In region l -> type region = SemiconductorRegion ->
  In nd (on_processor_nodes region) ->
  Qabs (y (slot region nd POTENTIAL))
  <= fold_left (potential_scan_region_dV y) l m.
Proof.
  revert m. induction l as [|r l IH]; simpl; intros m Hin Ht Hn;
    [contradiction|].
  destruct Hin as [-> | Hin]; [|now apply IH].
  eapply Qle_trans; [|apply potential_scan_dV_init].
  unfold potential_scan_region_dV. rewrite Ht. simpl.
  now apply (running_max_upper
               (fun nd => Qabs (y (slot region nd POTENTIAL)))).
Qed.

Lemma potential_scan_dV_attained (l : list SimulationRegion) (m : Q) :
  fold_left (potential_scan_region_dV y) l m = m \/
  exists region nd,
    In region l /\ type region = SemiconductorRegion /\
    In nd (on_processor_nodes region) /\
    fold_left (potential_scan_region_dV y) l m
    = Qabs (y (slot region nd POTENTIAL)).
Proof.
  revert m. induction l as [|r l IH]; simpl; intro m; [now left|].
  destruct (IH (potential_scan_region_dV y m r))
    as [Heq | (region & nd & Hr & Ht & Hn & Heq)].
  - rewrite Heq. unfold potential_scan_region_dV.
    destruct (type r) eqn:Ht; simpl; try now left.
    destruct (running_max_attained
                (fun nd => Qabs (y (slot r nd POTENTIAL)))
                (on_processor_nodes r) m) as [Hm | (nd & Hn & Hm)].
    + now left.
    + right. exists r, nd. auto.
  - right. exists region, nd. auto.
Qed.
End PotentialScan.

Lemma Parallel_max_upper (locals : list Q) (v : Q) :
  In v locals -> v <= Parallel.max locals.
Proof.
  destruct locals as [|v0 vs]; simpl; [contradiction|].
  intros [<- | Hin].
  - apply (running_max_init (fun q : Q => q)).
  - now apply (running_max_upper (fun q : Q => q)).
Qed.

Lemma Parallel_max_attained (locals : list Q) :
  locals <> [] -> In (Parallel.max locals) locals.
Proof.
  destruct locals as [|v0 vs]; [congruence|]. intros _. simpl.
  destruct (running_max_attained (fun q : Q => q) vs v0)
    as [Heq | (a & Ha & Heq)].
  - left. now rewrite Heq.
  - right. now rewrite Heq.
Qed.

Section PotentialDampingFacts.
Variable PU : PhysicalUnit.t.

Lemma potential_dV_max_upper (ranks : list DampingRank) (r : DampingRank)
    (region : SimulationRegion) (nd : FVM_Node) :
  In r ranks -> In region (regions (rk_proc r)) ->
  type region = SemiconductorRegion -> In nd (on_processor_nodes region) ->
  Qabs (rk_y r (slot region nd POTENTIAL)) <= potential_dV_max PU ranks.
Proof.
  intros Hr Hreg Ht Hn. unfold potential_dV_max.
  eapply Qle_trans; [|apply Parallel_max_upper;
    apply (in_map (fun r => fst (potential_scan PU (rk_proc r) (rk_x r)
                                   (rk_y r) (rk_w r)))); exact Hr].
  rewrite potential_scan_split. simpl.
  now apply potential_scan_dV_upper.
Qed.

Lemma potential_dV_max_attained (ranks : list DampingRank) :
  potential_dV_max PU ranks = 0 \/
  exists r region nd,
    In r ranks /\ In region (regions (rk_proc r)) /\
    type region = SemiconductorRegion /\
    In nd (on_processor_nodes region) /\
    potential_dV_max PU ranks = Qabs (rk_y r (slot region nd POTENTIAL)).
Proof.
  unfold potential_dV_max.
  destruct ranks as [|r0 ranks]; [now left|].
  set (locals := map _ (r0 :: ranks)).
  assert (Hne : locals <> []) by discriminate.
  pose proof (Parallel_max_attained locals Hne) as Hin.
  apply in_map_iff in Hin. destruct Hin as (r & Heq & Hr).
  rewrite <- Heq. rewrite potential_scan_split. simpl fst.
  destruct (potential_scan_dV_attained (rk_y r) (regions (rk_proc r)) 0)
    as [Hz | (region & nd & Hreg & Ht & Hn & Hm)].
  - now left.
  - right. exists r, region, nd. auto.
Qed.

(** *** The clips of the first loop, node by node *)

Variable T_ext : Q.
Variable x : Array.

Lemma potential_scan_node_w_frames (region : SimulationRegion)
    (nd : FVM_Node) (w : Array) (j : nat) :
  type region = SemiconductorRegion ->
  ~ In j (node_slots region nd) ->
  potential_scan_node_w PU T_ext region x w nd j = w j.
Proof.
  intros Ht Hj.
  destruct (semiconductor_variables region Ht) as (Hn & Hp & HTl & HTn & HTp).
  unfold potential_scan_node_w, potential_scan_node. simpl snd.
  fold_slots region nd.
  destruct (enable_Tp _) eqn:ETp; destruct (enable_Tn _) eqn:ETn;
    destruct (enable_Tl _) eqn:ETl;
    repeat first
      [ rewrite (carrier_temperature_within (node_slots region nd));
        [ | apply in_node_slots; auto | exact Hj ]
      | rewrite (clamp_below_within (node_slots region nd));
        [ | apply in_node_slots; auto | exact Hj ] ];
    reflexivity.
Qed.

Lemma potential_scan_node_w_agree (region : SimulationRegion)
    (nd : FVM_Node) (w w' : Array) :
  type region = SemiconductorRegion ->
  agree (node_slots region nd) w w' ->
  agree (node_slots region nd)
        (potential_scan_node_w PU T_ext region x w nd)
        (potential_scan_node_w PU T_ext region x w' nd).
Proof.
  intros Ht Hag.
  destruct (semiconductor_variables region Ht) as (Hn & Hp & HTl & HTn & HTp).
  unfold potential_scan_node_w, potential_scan_node. simpl snd.
  fold_slots region nd.
  destruct (enable_Tp _) eqn:ETp; destruct (enable_Tn _) eqn:ETn;
    destruct (enable_Tl _) eqn:ETl;
    repeat first
      [ apply carrier_temperature_agree; [apply in_node_slots; auto ..|]
      | apply clamp_below_agree; [apply in_node_slots; auto|] ];
    exact Hag.
Qed.

(** The values left in the slots of one semiconductor node. *)
Lemma potential_scan_node_w_values (region : SimulationRegion)
    (nd : FVM_Node) (w : Array) :
  type region = SemiconductorRegion ->
  NoDup (node_slots region nd) ->
  let w' := potential_scan_node_w PU T_ext region x w nd in
  let i_n := slot region nd ELECTRON in
  let i_p := slot region nd HOLE in
  w' (slot region nd POTENTIAL) = w (slot region nd POTENTIAL) /\
  w' i_n = (if Qlt_le_dec (w i_n) (onePerCMC PU) then onePerCMC PU
            else w i_n) /\
  w' i_p = (if Qlt_le_dec (w i_p) (onePerCMC PU) then onePerCMC PU
            else w i_p) /\
  (enable_Tl (get_advanced_model region) = true ->
   let i_T := slot region nd TEMPERATURE in
   w' i_T = (if Qlt_le_dec (w i_T) (T_ext - 50 * PhysicalUnit.K PU)
             then T_ext - 50 * PhysicalUnit.K PU else w i_T)) /\
  (enable_Tn (get_advanced_model region) = true ->
   let i_T := slot region nd E_TEMP in
   w' i_T = carrier_T1 T_ext (x i_n) (w' i_n) (x i_T) (w i_T) * w' i_n) /\
  (enable_Tp (get_advanced_model region) = true ->
   let i_T := slot region nd H_TEMP in
   w' i_T = carrier_T1 T_ext (x i_p) (w' i_p) (x i_T) (w i_T) * w' i_p).
Proof.
  intros Ht Hnd.
  destruct (semiconductor_variables region Ht) as (Hn & Hp & HTl & HTn & HTp).
  pose proof (potential_in_variables region) as Hpsi.
  assert (Hd : forall v v', In v (node_variables region) ->
                 In v' (node_variables region) -> v <> v' ->
                 slot region nd v <> slot region nd v')
    by (intros; now apply slot_distinct).
  unfold potential_scan_node_w, potential_scan_node. simpl snd.
  fold_slots region nd. cbv zeta.
  destruct (enable_Tp _) eqn:ETp; destruct (enable_Tn _) eqn:ETn;
    destruct (enable_Tl _) eqn:ETl;
    (split; [|split; [|split; [|split; [|split]]]]);
    intros; try discriminate;
    repeat first
      [ rewrite carrier_temperature_same
      | rewrite clamp_below_same
      | rewrite carrier_temperature_other by (apply Hd; auto; discriminate)
      | rewrite clamp_below_other by (apply Hd; auto; discriminate) ];
    reflexivity.
Qed.
End PotentialDampingFacts.

(** *** Who owns a slot *)

Lemma flat_map_owner_unique {A B : Type} (f : A -> list B) (l : list A)
    (a b : A) (i : B) :
  NoDup (flat_map f l) -> In a l -> In b l -> In i (f a) -> In i (f b) ->
  a = b.
Proof.
  induction l as [|c l IH]; simpl; intros Hnd Ha Hb Hia Hib; [contradiction|].
  pose proof (NoDup_app_disjoint _ _ Hnd i) as Hdis.
  destruct Ha as [<- | Ha], Hb as [<- | Hb]; auto.
  - exfalso. apply (Hdis Hia). apply in_flat_map. now exists b.
  - exfalso. apply (Hdis Hib). apply in_flat_map. now exists a.
  - exact (IH (NoDup_app_remove_l _ _ Hnd) Ha Hb Hia Hib).
Qed.

Lemma in_region_slots (region : SimulationRegion) (nd : FVM_Node) (i : nat) :
  In nd (on_processor_nodes region) -> In i (node_slots region nd) ->
  In i (region_slots region).
Proof. intros Hn Hi. apply in_flat_map. now exists nd. Qed.

Lemma in_device_slots (P : Process) (region : SimulationRegion) (i : nat) :
  In region (regions P) -> In i (region_slots region) -> In i (device_slots P).
Proof. intros Hr Hi. apply in_flat_map. now exists region. Qed.

Lemma slot_owner (P : Process) (region region' : SimulationRegion)
    (nd nd' : FVM_Node) (v v' : SolutionVariable) :
  wf_layout P ->
  In region (regions P) -> In nd (on_processor_nodes region) ->
  In v (node_variables region) ->
  In region' (regions P) -> In nd' (on_processor_nodes region') ->
  In v' (node_variables region') ->
  slot region nd v = slot region' nd' v' ->
  region = region' /\ nd = nd' /\ v = v'.
Proof.
  intros Hwf Hr Hn Hv Hr' Hn' Hv' Heq.
  assert (Hi : In (slot region nd v) (node_slots region nd))
    by now apply in_node_slots.
  assert (Hi' : In (slot region nd v) (node_slots region' nd'))
    by (rewrite Heq; now apply in_node_slots).
  assert (region = region').
  { apply (flat_map_owner_unique region_slots (regions P) _ _
             (slot region nd v) (wf_layout_device P Hwf) Hr Hr').
    - now apply (in_region_slots region nd).
    - now apply (in_region_slots region' nd'). }
  subst region'.
  assert (nd = nd').
  { exact (flat_map_owner_unique (node_slots region) _ _ _ _
             (wf_layout_region P region Hwf Hr) Hn Hn' Hi Hi'). }
  subst nd'. repeat split.
  exact (NoDup_map_injective _ _ _ _ (wf_layout_node P region nd Hwf Hr Hn)
           Hv Hv' Heq).
Qed.

Lemma psi_slots_device (P : Process) (i : nat) :
  In i (psi_slots P) -> In i (device_slots P).
Proof.
  unfold psi_slots. intro Hi. apply in_flat_map in Hi.
  destruct Hi as (region & Hr & Hi). apply in_map_iff in Hi.
  destruct Hi as (nd & <- & Hn).
  apply (in_device_slots P region); [exact Hr|].
  apply (in_region_slots region nd); [exact Hn|].
  apply in_node_slots, potential_in_variables.
Qed.

Lemma in_psi_slots (P : Process) (region : SimulationRegion) (nd : FVM_Node) :
  In region (regions P) -> In nd (on_processor_nodes region) ->
  In (slot region nd POTENTIAL) (psi_slots P).
Proof.
  intros Hr Hn. unfold psi_slots. apply in_flat_map. exists region.
  split; [exact Hr|].
  now apply (in_map (fun nd => slot region nd POTENTIAL)).
Qed.

Lemma not_psi_slot (P : Process) (region : SimulationRegion) (nd : FVM_Node)
    (v : SolutionVariable) :
  wf_layout P ->
  In region (regions P) -> In nd (on_processor_nodes region) ->
  In v (node_variables region) -> v <> POTENTIAL ->
  ~ In (slot region nd v) (psi_slots P).
Proof.
  intros Hwf Hr Hn Hv Hne Hin. unfold psi_slots in Hin.
  apply in_flat_map in Hin. destruct Hin as (region' & Hr' & Hin).
  apply in_map_iff in Hin. destruct Hin as (nd' & Heq & Hn').
  symmetry in Heq.
  destruct (slot_owner P region region' nd nd' v POTENTIAL Hwf Hr Hn Hv Hr'
              Hn' (potential_in_variables region') Heq) as (_ & _ & Hv').
  contradiction.
Qed.

Lemma device_not_circuit (P : Process) (i : nat) :
  wf_layout P -> In i (device_slots P) ->
  ~ In i (map array_offset_x (ckt_nodes P)).
Proof. intros Hwf. now apply NoDup_app_disjoint. Qed.

(** *** The three loops of [potential_damping] on one rank *)

Section PotentialLoops.
Variable PU : PhysicalUnit.t.
Variables x y : Array.

Lemma potential_scan_region_w_local (T_ext : Q) (region : SimulationRegion) :
  frames (potential_scan_region_w PU T_ext x) region_slots region /\
  reads_own (potential_scan_region_w PU T_ext x) region_slots region.
Proof.
  unfold frames, reads_own, potential_scan_region_w.
  destruct (type region) eqn:Ht; simpl; try (split; intros; now auto).
  split.
  - intros w i Hi. apply (fold_left_frame _ (node_slots region)); [|exact Hi].
    intros nd _ w0 j Hj. now apply potential_scan_node_w_frames.
  - intros w w' i Hag Hi.
    apply (fold_left_reads_own _ (node_slots region)); [|exact Hag|exact Hi].
    intros nd _. split.
    + intros w0 j Hj. now apply potential_scan_node_w_frames.
    + intros w0 w0' j Hag0 Hj.
      now apply (potential_scan_node_w_agree PU T_ext x region nd w0 w0').
Qed.

(** Outside the device slots the first loop changes nothing. *)
Lemma potential_scan_w_frame (P : Process) (w : Array) (i : nat) :
  ~ In i (device_slots P) -> snd (potential_scan PU P x y w) i = w i.
Proof.
  intro Hi. rewrite potential_scan_split. simpl snd.
  apply (fold_left_frame _ region_slots); [|exact Hi].
  intros region _. apply potential_scan_region_w_local.
Qed.

(** On the slots of a region the first loop acts like that region's pass
    on the incoming candidate. *)
Lemma potential_scan_w_region (P : Process) (region : SimulationRegion)
    (w : Array) (i : nat) :
  wf_layout P -> In region (regions P) -> In i (region_slots region) ->
  snd (potential_scan PU P x y w) i
  = potential_scan_region_w PU (T_external P) x w region i.
Proof.
  intros Hwf Hr Hi. rewrite potential_scan_split. simpl snd.
  apply (fold_left_at _ region_slots); auto.
  - intros r _. apply potential_scan_region_w_local.
  - now apply wf_layout_device.
Qed.

Lemma potential_scan_w_at (P : Process) (region : SimulationRegion)
    (nd : FVM_Node) (w : Array) (i : nat) :
  wf_layout P -> In region (regions P) ->
  type region = SemiconductorRegion ->
  In nd (on_processor_nodes region) -> In i (node_slots region nd) ->
  snd (potential_scan PU P x y w) i
  = potential_scan_node_w PU (T_external P) region x w nd i.
Proof.
  intros Hwf Hr Ht Hn Hi.
  rewrite (potential_scan_w_region P region);
    [|exact Hwf|exact Hr|now apply (in_region_slots region nd)].
  unfold potential_scan_region_w. rewrite Ht. simpl.
  apply (fold_left_at _ (node_slots region)); auto.
  - intros nd' _. split.
    + intros w0 j Hj. now apply potential_scan_node_w_frames.
    + intros w0 w0' j Hag0 Hj.
      now apply (potential_scan_node_w_agree PU (T_external P) x region nd'
                   w0 w0').
  - now apply (wf_layout_region P).
Qed.

Lemma potential_scan_w_other_region (P : Process) (region : SimulationRegion)
    (w : Array) (i : nat) :
  wf_layout P -> In region (regions P) ->
  type region <> SemiconductorRegion -> In i (region_slots region) ->
  snd (potential_scan PU P x y w) i = w i.
Proof.
  intros Hwf Hr Ht Hi.
  rewrite (potential_scan_w_region P region) by assumption.
  unfold potential_scan_region_w.
  destruct (type region); try reflexivity. congruence.
Qed.

(** The second loop writes [x - f y] into every potential slot and
    nothing else. *)
Lemma potential_update_nodes (f : Q) (idx : FVM_Node -> nat)
    (l : list FVM_Node) (w : Array) (i : nat) :
  fold_left (fun w nd => upd w (idx nd) (x (idx nd) - f * y (idx nd))) l w i
  = if in_dec Nat.eq_dec i (map idx l) then x i - f * y i else w i.
Proof.
  revert w. induction l as [|nd l IH]; intro w; simpl fold_left;
    [reflexivity|].
  rewrite IH.
  destruct (in_dec Nat.eq_dec i (map idx l)) as [Hin | Hnot];
    destruct (in_dec Nat.eq_dec i (map idx (nd :: l))) as [Hin' | Hnot'];
    simpl in *; try reflexivity.
  - exfalso. auto.
  - destruct Hin' as [<- | Hin']; [apply upd_same|contradiction].
  - apply upd_other. intros ->. auto.
Qed.

Lemma potential_update_regions (f : Q) (l : list SimulationRegion) (w : Array)
    (i : nat) :
  fold_left (potential_update_region f x y) l w i
  = if in_dec Nat.eq_dec i
         (flat_map (fun region =>
                      map (fun nd => slot region nd POTENTIAL)
                          (on_processor_nodes region)) l)
    then x i - f * y i else w i.
Proof.
  revert w. induction l as [|r l IH]; intro w; simpl fold_left;
    [reflexivity|].
  rewrite IH. unfold potential_update_region.
  rewrite (potential_update_nodes f (fun nd => slot r nd POTENTIAL)).
  simpl flat_map.
  repeat match goal with
         | |- context [in_dec ?d ?a ?l] => destruct (in_dec d a l)
         end; try reflexivity; exfalso;
    rewrite in_app_iff in *; tauto.
Qed.

(** The circuit loop. *)
Lemma potential_damp_ckt_node_other (w : Array) (c : CktNode) (j : nat) :
  j <> array_offset_x c -> potential_damp_ckt_node x y w c j = w j.
Proof.
  intro Hne. unfold potential_damp_ckt_node.
  destruct (is_voltage_node c), (is_current_node c);
    repeat match goal with
           | |- context [Qlt_le_dec ?a ?b] => destruct (Qlt_le_dec a b)
           end;
    rewrite ?upd_other by exact Hne; reflexivity.
Qed.

Lemma potential_damp_ckt_node_same (w : Array) (c : CktNode) :
  let i := array_offset_x c in
  potential_damp_ckt_node x y w c i
  = match ckt_node_type c with
    | SP_VOLTAGE =>
        if Qlt_le_dec 5 (Qabs (y i)) then x i - 5 / Qabs (y i) * y i
        else w i
    | SP_CURRENT =>
        if Qlt_le_dec 1 (Qabs (y i)) then x i - 1 / Qabs (y i) * y i
        else w i
    end.
Proof.
  unfold potential_damp_ckt_node, is_voltage_node, is_current_node.
  destruct (ckt_node_type c); cbv zeta;
    match goal with
    | |- context [Qlt_le_dec ?a ?b] => destruct (Qlt_le_dec a b)
    end; rewrite ?upd_same; reflexivity.
Qed.

Lemma potential_damp_ckt_local (c : CktNode) :
  frames (potential_damp_ckt_node x y) (fun c => [array_offset_x c]) c /\
  reads_own (potential_damp_ckt_node x y) (fun c => [array_offset_x c]) c.
Proof.
  split.
  - intros w i Hi. apply potential_damp_ckt_node_other.
    intros ->. apply Hi. now left.
  - intros w w' i Hag [<- | []].
    rewrite !potential_damp_ckt_node_same.
    rewrite (Hag (array_offset_x c)) by now left. reflexivity.
Qed.

Lemma flat_map_singleton_map {A B : Type} (f : A -> B) (l : list A) :
  flat_map (fun a => [f a]) l = map f l.
Proof. induction l as [|a l IH]; simpl; [reflexivity|now rewrite IH]. Qed.

Lemma potential_ckt_loop_frame (l : list CktNode) (w : Array) (i : nat) :
  ~ In i (map array_offset_x l) ->
  fold_left (potential_damp_ckt_node x y) l w i = w i.
Proof.
  intro Hi. apply (fold_left_frame _ (fun c => [array_offset_x c])).
  - intros c _. apply potential_damp_ckt_local.
  - now rewrite flat_map_singleton_map.
Qed.

Lemma potential_ckt_loop_at (l : list CktNode) (w : Array) (c : CktNode) :
  NoDup (map array_offset_x l) -> In c l ->
  fold_left (potential_damp_ckt_node x y) l w (array_offset_x c)
  = potential_damp_ckt_node x y w c (array_offset_x c).
Proof.
  intros Hnd Hc. apply (fold_left_at _ (fun c => [array_offset_x c])).
  - intros c' _. apply potential_damp_ckt_local.
  - now rewrite flat_map_singleton_map.
  - exact Hc.
  - now left.
Qed.
End PotentialLoops.

Section PotentialFinish.
Variable PU : PhysicalUnit.t.
Variable log : Q -> Q.
Variables x y : Array.

Lemma potential_finish_psi (P : Process) (dV_max : Q) (w : Array) (i : nat) :
  wf_layout P -> In i (psi_slots P) -> (1 # 1000000) < dV_max ->
  potential_finish PU log P dV_max x y w i
  = x i - damping_factor PU log (T_external P) dV_max * y i.
Proof.
  intros Hwf Hi HdV. unfold potential_finish.
  assert (Hck : ~ In i (map array_offset_x (ckt_nodes P)))
    by (apply device_not_circuit; [exact Hwf|now apply psi_slots_device]).
  destruct (Qlt_le_dec (1 # 1000000) dV_max) as [_ | Hle];
    [|exfalso; exact (Qlt_not_le _ _ HdV Hle)].
  destruct (is_last_processor P);
    rewrite ?potential_ckt_loop_frame by exact Hck;
    rewrite potential_update_regions; fold (psi_slots P);
    destruct (in_dec Nat.eq_dec i (psi_slots P)); [reflexivity|contradiction
                                                  |reflexivity|contradiction].
Qed.

Lemma potential_finish_other (P : Process) (dV_max : Q) (w : Array) (i : nat) :
  ~ In i (psi_slots P) -> ~ In i (map array_offset_x (ckt_nodes P)) ->
  potential_finish PU log P dV_max x y w i = w i.
Proof.
  intros Hpsi Hck. unfold potential_finish.
  destruct (is_last_processor P);
    rewrite ?potential_ckt_loop_frame by exact Hck;
    destruct (Qlt_le_dec (1 # 1000000) dV_max); try reflexivity;
    rewrite potential_update_regions; fold (psi_slots P);
    destruct (in_dec Nat.eq_dec i (psi_slots P));
    try reflexivity; contradiction.
Qed.

Lemma potential_finish_circuit (P : Process) (dV_max : Q) (w : Array)
    (c : CktNode) :
  wf_layout P -> is_last_processor P = true -> In c (ckt_nodes P) ->
  potential_finish PU log P dV_max x y w (array_offset_x c)
  = potential_damp_ckt_node x y w c (array_offset_x c).
Proof.
  intros Hwf Hlast Hc. unfold potential_finish. rewrite Hlast.
  assert (Hpsi : ~ In (array_offset_x c) (psi_slots P)).
  { intro Hin. apply (device_not_circuit P _ Hwf (psi_slots_device P _ Hin)).
    now apply in_map. }
  rewrite potential_ckt_loop_at;
    [|exact (NoDup_app_remove_l _ _ Hwf)|exact Hc].
  rewrite !potential_damp_ckt_node_same.
  destruct (Qlt_le_dec (1 # 1000000) dV_max); [|reflexivity].
  rewrite potential_update_regions. fold (psi_slots P).
  destruct (in_dec Nat.eq_dec (array_offset_x c) (psi_slots P));
    [contradiction|reflexivity].
Qed.
End PotentialFinish.

(** C7 as stated fails in the arithmetic of the solver: in binary64 the
    clipped increment is not exactly 5 V or 1 A.  On a voltage node with
    [x = 0] and [y = 147] the accepted increment has magnitude
    [5.0000000000000009]; on a current node with [x = 0] and [y = 49] it
    has magnitude [0.99999999999999989]. *)
Lemma potential_damping_circuit_clip_rounds :
  PrimFloat.ltb 5
    (PrimFloat.abs (Binary64.potential_damp_ckt 5 0 147 (-147) - 0))%float
  = true /\
  PrimFloat.ltb
    (PrimFloat.abs (Binary64.potential_damp_ckt 1 0 49 (-49) - 0))%float 1
  = true.
Proof. split; reflexivity. Qed.

(** C7, amended.  On the last processor of a rank with a well-formed index
    layout, for every circuit node with offset [i] and bound [b] (5 for a
    voltage node, 1 for a current node):
    - if [|y_i| > b] the candidate is set to [x_i - (b/|y_i|) y_i], and a
      node whose increment does not exceed its bound keeps the incoming
      candidate [w_i]; this is the rounded expression of the block with
      the identity for rounding;
    - when every operation has a relative rounding error of at most [u]
      (at most [2^-8]; binary64 has [u = 2^-53]) and [|y_i| > b], the
      magnitude of the accepted increment differs from [b] by at most
      [u (|x_i| + 5 b)]: it is [b] up to rounding, and exactly [b] when no
      operation rounds. *)
Theorem potential_damping_circuit_clip
    (PU : PhysicalUnit.t) (log : Q -> Q) (ranks : list DampingRank)
    (r : DampingRank) (c : CktNode) (rnd : Q -> Q) (u : Q) :
  wf_layout (rk_proc r) -> is_last_processor (rk_proc r) = true ->
  In c (ckt_nodes (rk_proc r)) ->
  Rounded.standard_model rnd u ->
  let i := array_offset_x c in
  let w' := potential_damping PU log ranks r in
  let b := match ckt_node_type c with SP_VOLTAGE => 5 | SP_CURRENT => 1 end in
  w' i = Rounded.potential_damp_ckt (fun q => q) b (rk_x r i) (rk_y r i)
           (rk_w r i) /\
  (is_voltage_node c = true ->
   (5 < Qabs (rk_y r i) ->
    w' i = rk_x r i - 5 / Qabs (rk_y r i) * rk_y r i) /\
   (Qabs (rk_y r i) <= 5 -> w' i = rk_w r i)) /\
  (is_current_node c = true ->
   (1 < Qabs (rk_y r i) ->
    w' i = rk_x r i - 1 / Qabs (rk_y r i) * rk_y r i) /\
   (Qabs (rk_y r i) <= 1 -> w' i = rk_w r i)) /\
  (b < Qabs (rk_y r i) ->
   Qabs (Qabs (Rounded.potential_damp_ckt rnd b (rk_x r i) (rk_y r i)
                 (rk_w r i) - rk_x r i) - b)
   <= u * (Qabs (rk_x r i) + 5 * b) /\
   (u == 0 ->
    Qabs (Rounded.potential_damp_ckt rnd b (rk_x r i) (rk_y r i)
            (rk_w r i) - rk_x r i) == b)) /\
  (Qabs (rk_y r i) <= b ->
   Rounded.potential_damp_ckt rnd b (rk_x r i) (rk_y r i) (rk_w r i)
   = rk_w r i).
Proof.
  intros Hwf Hlast Hc Hmodel i w' b.
  assert (Hw' : w' i
                = match ckt_node_type c with
                  | SP_VOLTAGE =>
                      if Qlt_le_dec 5 (Qabs (rk_y r i))
                      then rk_x r i - 5 / Qabs (rk_y r i) * rk_y r i
                      else rk_w r i
                  | SP_CURRENT =>
                      if Qlt_le_dec 1 (Qabs (rk_y r i))
                      then rk_x r i - 1 / Qabs (rk_y r i) * rk_y r i
                      else rk_w r i
                  end).
  { unfold w', potential_damping, i.
    rewrite potential_finish_circuit by assumption.
    rewrite potential_damp_ckt_node_same.
    rewrite potential_scan_w_frame; [reflexivity|].
    intro Hin. apply (device_not_circuit _ _ Hwf Hin). now apply in_map. }
  assert (Hb : 0 < b) by (unfold b; destruct (ckt_node_type c); reflexivity).
  split; [|split; [|split; [|split]]].
  - rewrite Hw'. unfold b, Rounded.potential_damp_ckt.
    destruct (ckt_node_type c); reflexivity.
  - unfold is_voltage_node. intro Hty. rewrite Hw'.
    destruct (ckt_node_type c); [|discriminate Hty].
    destruct (Qlt_le_dec 5 (Qabs (rk_y r i))) as [Hbig | Hsmall]; split.
    + reflexivity.
    + intro Hle. exfalso. exact (Qlt_not_le _ _ Hbig Hle).
    + intro Hlt. exfalso. exact (Qlt_not_le _ _ Hlt Hsmall).
    + reflexivity.
  - unfold is_current_node. intro Hty. rewrite Hw'.
    destruct (ckt_node_type c); [discriminate Hty|].
    destruct (Qlt_le_dec 1 (Qabs (rk_y r i))) as [Hbig | Hsmall]; split.
    + reflexivity.
    + intro Hle. exfalso. exact (Qlt_not_le _ _ Hbig Hle).
    + intro Hlt. exfalso. exact (Qlt_not_le _ _ Hlt Hsmall).
    + reflexivity.
  - intro Hbig.
    pose proof (potential_damp_ckt_rounded rnd u Hmodel b (rk_x r i)
                  (rk_y r i) (rk_w r i) Hb Hbig) as Hbound.
    split; [exact Hbound|].
    intro Hu. rewrite Hu, Qmult_0_l in Hbound.
    apply Qabs_zero in Hbound. lra.
  - intro Hsmall. unfold Rounded.potential_damp_ckt. cbv zeta.
    destruct (Qlt_le_dec b (Qabs (rk_y r i))) as [Hbig | _]; [|reflexivity].
    exfalso. exact (Qlt_not_le _ _ Hbig Hsmall).
Qed.

Lemma wf_layout_mixed_proc : wf_layout Examples.mixed_proc.
Proof.
  unfold wf_layout. simpl.
  repeat (constructor; [simpl; intuition discriminate|]). constructor.
Qed.

Lemma potential_damping_circuit_clip_witness :
  potential_damping Examples.units Examples.log_stub [Examples.rank1]
    Examples.rank1 6%nat
  = rk_x Examples.rank1 6%nat
    - 5 / Qabs (rk_y Examples.rank1 6%nat) * rk_y Examples.rank1 6%nat /\
  Qabs (Qabs (Rounded.potential_damp_ckt Examples.round_up 5
                (rk_x Examples.rank1 6%nat) (rk_y Examples.rank1 6%nat)
                (rk_w Examples.rank1 6%nat) - rk_x Examples.rank1 6%nat) - 5)
  <= Examples.unit_roundoff * (Qabs (rk_x Examples.rank1 6%nat) + 5 * 5).
Proof.
  destruct (potential_damping_circuit_clip Examples.units Examples.log_stub
              [Examples.rank1] Examples.rank1 (mkCktNode SP_VOLTAGE 6 6)
              Examples.round_up Examples.unit_roundoff wf_layout_mixed_proc)
    as (_ & Hv & _ & Hr & _).
  - reflexivity.
  - left; reflexivity.
  - exact round_up_model.
  - split.
    + apply Hv; reflexivity.
    + apply Hr. reflexivity.
Defined.

(** C2 as stated fails: with one semiconductor node whose trial electron
    density is -5, the reduced [dV_max] is 3 (above 1e-6) and, whatever
    [log] is, the routine returns the electron component 1 (that is
    [onePerCMC] for [cm = 1]), not the trial value. *)
Lemma potential_damping_changes_density :
  (1 # 1000000) < potential_dV_max Examples.units [Examples.rank0] /\
  slot Examples.ebm_region Examples.steady_node ELECTRON = 1%nat /\
  rk_w Examples.rank0 1%nat == -(5) /\
  (forall log : Q -> Q,
      potential_damping Examples.units log [Examples.rank0] Examples.rank0
        1%nat == 1) /\
  ~ (forall log : Q -> Q,
        potential_damping Examples.units log [Examples.rank0] Examples.rank0
          1%nat == rk_w Examples.rank0 1%nat).
Proof.
  split; [reflexivity|]. split; [reflexivity|]. split; [reflexivity|].
  assert (Hval : forall log : Q -> Q,
             potential_damping Examples.units log [Examples.rank0]
               Examples.rank0 1%nat == 1).
  { intro log. vm_compute. reflexivity. }
  split; [exact Hval|].
  intro Hkeep. specialize (Hkeep Examples.log_stub).
  rewrite Hval in Hkeep. discriminate Hkeep.
Qed.

(** C2, amended.  In a run of [potential_damping] on the ranks [ranks], on
    a rank with a well-formed index layout:
    - the reduced [dV_max] bounds [|y_psi|] at every semiconductor
      on-processor node of every rank and is attained at one of them (or
      is 0);
    - whenever [dV_max > 1e-6], every psi component of the returned
      candidate is [x_psi - f y_psi] with
      [f = log(1 + dV_max/Vt)/(dV_max/Vt)], [Vt = kb T_external / e];
    - the other components of a semiconductor node are clipped: n and p
      are raised to [onePerCMC] when below, Tl (if enabled) to
      [T_external - 50 K] when below, and [n*Tn], [p*Tp] (if enabled) are
      set to [T1 * n], [T1 * p] with the blended carrier temperature [T1]
      raised to [0.9 T_external] when below;
    - every other device component outside the semiconductor regions keeps
      its trial value. *)
Theorem potential_damping_psi_and_clips
    (PU : PhysicalUnit.t) (log : Q -> Q) (ranks : list DampingRank)
    (r : DampingRank) :
  wf_layout (rk_proc r) ->
  let P := rk_proc r in
  let x := rk_x r in
  let y := rk_y r in
  let w := rk_w r in
  let T_ext := T_external P in
  let dV_max := potential_dV_max PU ranks in
  let Vt := PhysicalUnit.kb PU * T_ext / PhysicalUnit.e PU in
  let f := log (1 + dV_max / Vt) / (dV_max / Vt) in
  let w' := potential_damping PU log ranks r in
  (forall r' region nd,
      In r' ranks -> In region (regions (rk_proc r')) ->
      type region = SemiconductorRegion ->
      In nd (on_processor_nodes region) ->
      Qabs (rk_y r' (slot region nd POTENTIAL)) <= dV_max) /\
  (dV_max = 0 \/
   exists r' region nd,
     In r' ranks /\ In region (regions (rk_proc r')) /\
     type region = SemiconductorRegion /\
     In nd (on_processor_nodes region) /\
     dV_max = Qabs (rk_y r' (slot region nd POTENTIAL))) /\
  ((1 # 1000000) < dV_max ->
   forall region nd,
     In region (regions P) -> In nd (on_processor_nodes region) ->
     let psi := slot region nd POTENTIAL in
     w' psi = x psi - f * y psi) /\
  (forall region nd,
      In region (regions P) -> type region = SemiconductorRegion ->
      In nd (on_processor_nodes region) ->
      let i_n := slot region nd ELECTRON in
      let i_p := slot region nd HOLE in
      w' i_n = (if Qlt_le_dec (w i_n) (onePerCMC PU) then onePerCMC PU
                else w i_n) /\
      w' i_p = (if Qlt_le_dec (w i_p) (onePerCMC PU) then onePerCMC PU
                else w i_p) /\
      (enable_Tl (get_advanced_model region) = true ->
       let i_T := slot region nd TEMPERATURE in
       w' i_T = (if Qlt_le_dec (w i_T) (T_ext - 50 * PhysicalUnit.K PU)
                 then T_ext - 50 * PhysicalUnit.K PU else w i_T)) /\
      (enable_Tn (get_advanced_model region) = true ->
       let i_T := slot region nd E_TEMP in
       w' i_T = carrier_T1 T_ext (x i_n) (w' i_n) (x i_T) (w i_T) * w' i_n) /\
      (enable_Tp (get_advanced_model region) = true ->
       let i_T := slot region nd H_TEMP in
       w' i_T = carrier_T1 T_ext (x i_p) (w' i_p) (x i_T) (w i_T) * w' i_p)) /\
  (forall region nd v,
      In region (regions P) -> type region <> SemiconductorRegion ->
      In nd (on_processor_nodes region) ->
      In v (node_variables region) -> v <> POTENTIAL ->
      w' (slot region nd v) = w (slot region nd v)).
Proof.
  intros Hwf P x y w T_ext dV_max Vt f w'.
  split; [intros r' region nd; apply potential_dV_max_upper|].
  split; [apply potential_dV_max_attained|].
  assert (Hnonpsi : forall region nd v,
             In region (regions P) -> In nd (on_processor_nodes region) ->
             In v (node_variables region) -> v <> POTENTIAL ->
             w' (slot region nd v)
             = snd (potential_scan PU P x y w) (slot region nd v)).
  { intros region nd v Hr Hn Hv Hne. unfold w', potential_damping.
    apply potential_finish_other.
    - now apply not_psi_slot.
    - apply device_not_circuit; [exact Hwf|].
      apply (in_device_slots P region); [exact Hr|].
      apply (in_region_slots region nd); [exact Hn|].
      now apply in_node_slots. }
  split; [|split].
  - intros HdV region nd Hr Hn psi. unfold w', potential_damping.
    rewrite potential_finish_psi; auto.
    now apply in_psi_slots.
  - intros region nd Hr Ht Hn i_n i_p.
    destruct (semiconductor_variables region Ht) as (Vn & Vp & VTl & VTn & VTp).
    assert (Hat : forall v, In v (node_variables region) -> v <> POTENTIAL ->
                w' (slot region nd v)
                = potential_scan_node_w PU T_ext region x w nd
                    (slot region nd v)).
    { intros v Hv Hne. rewrite Hnonpsi by assumption.
      apply potential_scan_w_at; auto. now apply in_node_slots. }
    destruct (potential_scan_node_w_values PU T_ext x region nd w Ht
                (wf_layout_node P region nd Hwf Hr Hn))
      as (_ & En & Ep & ETl & ETn & ETp).
    unfold i_n, i_p.
    rewrite !(Hat ELECTRON Vn) by discriminate.
    rewrite !(Hat HOLE Vp) by discriminate.
    split; [exact En|]. split; [exact Ep|].
    split; [|split].
    + intro HTl. cbv zeta. rewrite (Hat _ (VTl HTl)) by discriminate.
      exact (ETl HTl).
    + intro HTn. cbv zeta. rewrite (Hat _ (VTn HTn)) by discriminate.
      exact (ETn HTn).
    + intro HTp. cbv zeta. rewrite (Hat _ (VTp HTp)) by discriminate.
      exact (ETp HTp).
  - intros region nd v Hr Ht Hn Hv Hne.
    rewrite Hnonpsi by assumption.
    apply (potential_scan_w_other_region PU x y P region); auto.
    apply (in_region_slots region nd); [exact Hn|].
    now apply in_node_slots.
Qed.

Lemma potential_damping_psi_and_clips_witness :
  potential_damping Examples.units Examples.log_stub [Examples.rank1]
    Examples.rank1 0%nat
  = rk_x Examples.rank1 0%nat
    - Examples.log_stub (1 + 3 / (1 * 1 / 1)) / (3 / (1 * 1 / 1))
      * rk_y Examples.rank1 0%nat.
Proof.
  refine (proj1 (proj2 (proj2
    (potential_damping_psi_and_clips Examples.units Examples.log_stub
       [Examples.rank1] Examples.rank1 wf_layout_mixed_proc)))
    _ Examples.ebm_region Examples.steady_node _ _).
  - reflexivity.
  - left; reflexivity.
  - left; reflexivity.
Defined.

(** ** [LTE_norm] *)

Lemma LTE_scale_same (eps_r eps_a : Q) (x ll : Array) (i_f i_x : nat) :
  LTE_scale eps_r eps_a x ll i_f i_x i_f = ll i_f / (eps_r * x i_x + eps_a).
Proof. unfold LTE_scale. apply upd_same. Qed.

Lemma LTE_scale_other (eps_r eps_a : Q) (x ll : Array) (i_f i_x j : nat) :
  j <> i_f -> LTE_scale eps_r eps_a x ll i_f i_x j = ll j.
Proof. intro Hne. unfold LTE_scale. now apply upd_other. Qed.

Lemma LTE_scale_agree (S : list nat) (eps_r eps_a : Q) (x ll ll' : Array)
    (i_f i_x : nat) :
  In i_f S -> agree S ll ll' ->
  agree S (LTE_scale eps_r eps_a x ll i_f i_x)
          (LTE_scale eps_r eps_a x ll' i_f i_x).
Proof.
  intros Hi Hag. unfold LTE_scale. apply agree_upd; [exact Hag|].
  now rewrite (Hag i_f Hi).
Qed.

Lemma LTE_scale_within (S : list nat) (eps_r eps_a : Q) (x ll : Array)
    (i_f i_x j : nat) :
  In i_f S -> ~ In j S -> LTE_scale eps_r eps_a x ll i_f i_x j = ll j.
Proof. intros Hi Hj. apply LTE_scale_other. intros ->. contradiction. Qed.

Section LTENodes.
Variables eps_r eps_a : Q.
Variable x : Array.

Lemma LTE_node_semiconductor_frames (region : SimulationRegion)
    (nd : FVM_Node) (ll : Array) (j : nat) :
  type region = SemiconductorRegion ->
  ~ In j (node_slots region nd) ->
  LTE_node_semiconductor eps_r eps_a region x ll nd j = ll j.
Proof.
  intros Ht Hj.
  destruct (semiconductor_variables region Ht) as (Hn & Hp & HTl & HTn & HTp).
  pose proof (potential_in_variables region) as Hpsi.
  unfold LTE_node_semiconductor. fold_slots region nd.
  destruct (enable_Tp _) eqn:ETp; destruct (enable_Tn _) eqn:ETn;
    destruct (enable_Tl _) eqn:ETl;
    repeat (rewrite (LTE_scale_within (node_slots region nd));
            [ | apply in_node_slots; auto | exact Hj ]);
    apply (upd_within (node_slots region nd)); auto using in_node_slots.
Qed.

Lemma LTE_node_semiconductor_agree (region : SimulationRegion)
    (nd : FVM_Node) (ll ll' : Array) :
  type region = SemiconductorRegion ->
  agree (node_slots region nd) ll ll' ->
  agree (node_slots region nd)
        (LTE_node_semiconductor eps_r eps_a region x ll nd)
        (LTE_node_semiconductor eps_r eps_a region x ll' nd).
Proof.
  intros Ht Hag.
  destruct (semiconductor_variables region Ht) as (Hn & Hp & HTl & HTn & HTp).
  unfold LTE_node_semiconductor. fold_slots region nd.
  destruct (enable_Tp _) eqn:ETp; destruct (enable_Tn _) eqn:ETn;
    destruct (enable_Tl _) eqn:ETl;
    repeat (apply LTE_scale_agree; [apply in_node_slots; auto|]);
    now apply agree_upd.
Qed.

Lemma LTE_node_insulator_frames (region : SimulationRegion)
    (nd : FVM_Node) (ll : Array) (j : nat) :
  type region = InsulatorRegion \/ type region = ElectrodeRegion
  \/ type region = MetalRegion ->
  ~ In j (node_slots region nd) ->
  LTE_node_insulator eps_r eps_a region x ll nd j = ll j.
Proof.
  intros Ht Hj.
  pose proof (insulator_variables region Ht) as HTl.
  pose proof (potential_in_variables region) as Hpsi.
  unfold LTE_node_insulator. fold_slots region nd.
  destruct (enable_Tl _) eqn:ETl;
    repeat (rewrite (LTE_scale_within (node_slots region nd));
            [ | apply in_node_slots; auto | exact Hj ]);
    apply (upd_within (node_slots region nd)); auto using in_node_slots.
Qed.

Lemma LTE_node_insulator_agree (region : SimulationRegion)
    (nd : FVM_Node) (ll ll' : Array) :
  type region = InsulatorRegion \/ type region = ElectrodeRegion
  \/ type region = MetalRegion ->
  agree (node_slots region nd) ll ll' ->
  agree (node_slots region nd)
        (LTE_node_insulator eps_r eps_a region x ll nd)
        (LTE_node_insulator eps_r eps_a region x ll' nd).
Proof.
  intros Ht Hag.
  pose proof (insulator_variables region Ht) as HTl.
  unfold LTE_node_insulator. fold_slots region nd.
  destruct (enable_Tl _) eqn:ETl;
    repeat (apply LTE_scale_agree; [apply in_node_slots; auto|]);
    now apply agree_upd.
Qed.

(** The body of the node loop of a region, whichever case of the switch
    it falls in. *)
Lemma LTE_node_values (region : SimulationRegion) (nd : FVM_Node)
    (ll : Array) :
  NoDup (node_slots region nd) ->
  (type region = SemiconductorRegion ->
   let ll' := LTE_node_semiconductor eps_r eps_a region x ll nd in
   ll' (slot region nd POTENTIAL) = 0 /\
   forall v, In v (node_variables region) -> v <> POTENTIAL ->
     ll' (slot region nd v)
     = ll (slot region nd v) / (eps_r * x (slot region nd v) + eps_a)) /\
  (type region = InsulatorRegion \/ type region = ElectrodeRegion
   \/ type region = MetalRegion ->
   let ll' := LTE_node_insulator eps_r eps_a region x ll nd in
   ll' (slot region nd POTENTIAL) = 0 /\
   forall v, In v (node_variables region) -> v <> POTENTIAL ->
     ll' (slot region nd v)
     = ll (slot region nd v) / (eps_r * x (slot region nd v) + eps_a)).
Proof.
  intro Hnd.
  pose proof (potential_in_variables region) as Hpsi.
  assert (Hd : forall v v', In v (node_variables region) ->
                 In v' (node_variables region) -> v <> v' ->
                 slot region nd v <> slot region nd v')
    by (intros; now apply slot_distinct).
  split; intro Ht.
  - destruct (semiconductor_variables region Ht) as (Hn & Hp & HTl & HTn & HTp).
    unfold LTE_node_semiconductor. fold_slots region nd. cbv zeta.
    assert (Hvars : forall v, In v (node_variables region) ->
              v = POTENTIAL \/ v = ELECTRON \/ v = HOLE
              \/ (v = TEMPERATURE /\ enable_Tl (get_advanced_model region) = true)
              \/ (v = E_TEMP /\ enable_Tn (get_advanced_model region) = true)
              \/ (v = H_TEMP /\ enable_Tp (get_advanced_model region) = true)).
    { unfold node_variables. rewrite Ht.
      destruct (enable_Tl _), (enable_Tn _), (enable_Tp _); simpl;
        intuition auto. }
    split.
    + destruct (enable_Tp _) eqn:ETp; destruct (enable_Tn _) eqn:ETn;
        destruct (enable_Tl _) eqn:ETl;
        rewrite ?LTE_scale_other by (apply Hd; auto; discriminate);
        apply upd_same.
    + intros v Hv Hne.
      destruct (Hvars v Hv) as [-> | [-> | [-> | [[-> E] | [[-> E] | [-> E]]]]]];
        [congruence| | | | | ];
        destruct (enable_Tp _) eqn:ETp; destruct (enable_Tn _) eqn:ETn;
        destruct (enable_Tl _) eqn:ETl; try discriminate;
        rewrite ?LTE_scale_other by (apply Hd; auto; discriminate);
        rewrite LTE_scale_same;
        rewrite ?LTE_scale_other by (apply Hd; auto; discriminate);
        rewrite upd_other by (apply Hd; auto; discriminate);
        reflexivity.
  - pose proof (insulator_variables region Ht) as HTl.
    unfold LTE_node_insulator. fold_slots region nd. cbv zeta.
    assert (Hvars : forall v, In v (node_variables region) ->
              v = POTENTIAL
              \/ (v = TEMPERATURE /\ enable_Tl (get_advanced_model region) = true)).
    { unfold node_variables.
      destruct Ht as [-> | [-> | ->]]; destruct (enable_Tl _); simpl;
        intuition auto. }
    split.
    + destruct (enable_Tl _) eqn:ETl;
        rewrite ?LTE_scale_other by (apply Hd; auto; discriminate);
        apply upd_same.
    + intros v Hv Hne.
      destruct (Hvars v Hv) as [-> | [-> E]]; [congruence|].
      rewrite E. rewrite LTE_scale_same.
      rewrite upd_other by (apply Hd; auto; discriminate).
      reflexivity.
Qed.
End LTENodes.

Section LTELoops.
Variables eps_r eps_a : Q.
Variable x : Array.

Lemma LTE_regions_split (l : list SimulationRegion) (ll : Array) (N : Z) :
  (forall region, In region l -> type region <> InvalidRegion) ->
  fold_left (LTE_region eps_r eps_a x) l (Some (ll, N))
  = Some (fold_left (LTE_region_ll eps_r eps_a x) l ll,
          fold_left LTE_region_N l N).
Proof.
  revert ll N. induction l as [|r l IH]; intros ll N Hok; cbn [fold_left];
    [reflexivity|].
  assert (Hr : type r <> InvalidRegion) by (apply Hok; now left).
  assert (Hstep : LTE_region eps_r eps_a x (Some (ll, N)) r
                  = Some (LTE_region_ll eps_r eps_a x ll r, LTE_region_N N r)).
  { unfold LTE_region, LTE_region_ll, LTE_region_N.
    destruct (type r); try reflexivity. congruence. }
  rewrite Hstep. apply IH. intros region Hin. apply Hok. now right.
Qed.

Lemma LTE_region_ll_local (region : SimulationRegion) :
  frames (LTE_region_ll eps_r eps_a x) region_slots region /\
  reads_own (LTE_region_ll eps_r eps_a x) region_slots region.
Proof.
  assert (Hins : type region = InsulatorRegion
                 \/ type region = ElectrodeRegion
                 \/ type region = MetalRegion ->
    frames (fun ll r => fold_left (LTE_node_insulator eps_r eps_a r x)
                          (on_processor_nodes r) ll) region_slots region /\
    reads_own (fun ll r => fold_left (LTE_node_insulator eps_r eps_a r x)
                             (on_processor_nodes r) ll) region_slots region).
  { intro Ht. split.
    - intros w i Hi. apply (fold_left_frame _ (node_slots region)); [|exact Hi].
      intros nd _ w0 j Hj. now apply LTE_node_insulator_frames.
    - intros w w' i Hag Hi.
      apply (fold_left_reads_own _ (node_slots region)); [|exact Hag|exact Hi].
      intros nd _. split.
      + intros w0 j Hj. now apply LTE_node_insulator_frames.
      + intros w0 w0' j Hag0 Hj.
        now apply (LTE_node_insulator_agree eps_r eps_a x region nd w0 w0'). }
  unfold frames, reads_own, LTE_region_ll in *.
  destruct (type region) eqn:Ht; try (split; intros; now auto);
    try (apply Hins; auto).
  split.
  - intros w i Hi. apply (fold_left_frame _ (node_slots region)); [|exact Hi].
    intros nd _ w0 j Hj. now apply LTE_node_semiconductor_frames.
  - intros w w' i Hag Hi.
    apply (fold_left_reads_own _ (node_slots region)); [|exact Hag|exact Hi].
    intros nd _. split.
    + intros w0 j Hj. now apply LTE_node_semiconductor_frames.
    + intros w0 w0' j Hag0 Hj.
      now apply (LTE_node_semiconductor_agree eps_r eps_a x region nd w0 w0').
Qed.

Lemma LTE_regions_ll_frame (l : list SimulationRegion) (ll : Array) (i : nat) :
  ~ In i (flat_map region_slots l) ->
  fold_left (LTE_region_ll eps_r eps_a x) l ll i = ll i.
Proof.
  apply (fold_left_frame _ region_slots).
  intros region _. apply LTE_region_ll_local.
Qed.

(** After the region loop: zero at the potential, the scaled entry at every
    other variable of a node. *)
Lemma LTE_regions_ll_values (l : list SimulationRegion) (ll : Array)
    (region : SimulationRegion) (nd : FVM_Node) :
  NoDup (flat_map region_slots l) -> In region l ->
  type region <> VacuumRegion -> type region <> InvalidRegion ->
  In nd (on_processor_nodes region) ->
  let ll' := fold_left (LTE_region_ll eps_r eps_a x) l ll in
  ll' (slot region nd POTENTIAL) = 0 /\
  forall v, In v (node_variables region) -> v <> POTENTIAL ->
    ll' (slot region nd v)
    = ll (slot region nd v) / (eps_r * x (slot region nd v) + eps_a).
Proof.
  intros Hnd Hr Hvac Hinv Hn ll'.
  assert (Hnr : NoDup (region_slots region))
    by exact (NoDup_flat_map_in _ _ _ Hnd Hr).
  assert (Hnn : NoDup (node_slots region nd))
    by exact (NoDup_flat_map_in _ _ _ Hnr Hn).
  assert (Hat : forall i, In i (node_slots region nd) ->
                  ll' i = LTE_region_ll eps_r eps_a x ll region i).
  { intros i Hi. unfold ll'.
    apply (fold_left_at _ region_slots); auto.
    - intros r _. apply LTE_region_ll_local.
    - now apply (in_region_slots region nd). }
  destruct (LTE_node_values eps_r eps_a x region nd ll Hnn) as [Hsem Hins].
  assert (Hnode : forall i, In i (node_slots region nd) ->
            (type region = SemiconductorRegion ->
             ll' i = LTE_node_semiconductor eps_r eps_a region x ll nd i) /\
            (type region = InsulatorRegion \/ type region = ElectrodeRegion
             \/ type region = MetalRegion ->
             ll' i = LTE_node_insulator eps_r eps_a region x ll nd i)).
  { intros i Hi. rewrite (Hat i Hi). unfold LTE_region_ll.
    split; intro Ht.
    - rewrite Ht. apply (fold_left_at _ (node_slots region)); auto.
      intros nd' _. split.
      + intros w0 j Hj. now apply LTE_node_semiconductor_frames.
      + intros w0 w0' j Hag0 Hj.
        now apply (LTE_node_semiconductor_agree eps_r eps_a x region nd'
                     w0 w0').
    - assert (Hfold : fold_left (LTE_node_insulator eps_r eps_a region x)
                        (on_processor_nodes region) ll i
                      = LTE_node_insulator eps_r eps_a region x ll nd i).
      { apply (fold_left_at _ (node_slots region)); auto.
        intros nd' _. split.
        - intros w0 j Hj. now apply LTE_node_insulator_frames.
        - intros w0 w0' j Hag0 Hj.
          now apply (LTE_node_insulator_agree eps_r eps_a x region nd'
                       w0 w0'). }
      destruct Ht as [-> | [-> | ->]]; exact Hfold. }
  destruct (type region) eqn:Ht; try congruence.
  - destruct (Hsem eq_refl) as [Hz Hsc]. split.
    + rewrite (proj1 (Hnode _ (in_node_slots region nd _
                                 (potential_in_variables region))) eq_refl).
      exact Hz.
    + intros v Hv Hne.
      rewrite (proj1 (Hnode _ (in_node_slots region nd _ Hv)) eq_refl).
      now apply Hsc.
  - destruct (Hins (or_introl eq_refl)) as [Hz Hsc]. split.
    + rewrite (proj2 (Hnode _ (in_node_slots region nd _
                                 (potential_in_variables region)))
                 (or_introl eq_refl)).
      exact Hz.
    + intros v Hv Hne.
      rewrite (proj2 (Hnode _ (in_node_slots region nd _ Hv))
                 (or_introl eq_refl)).
      now apply Hsc.
  - destruct (Hins (or_intror (or_introl eq_refl))) as [Hz Hsc]. split.
    + rewrite (proj2 (Hnode _ (in_node_slots region nd _
                                 (potential_in_variables region)))
                 (or_intror (or_introl eq_refl))).
      exact Hz.
    + intros v Hv Hne.
      rewrite (proj2 (Hnode _ (in_node_slots region nd _ Hv))
                 (or_intror (or_introl eq_refl))).
      now apply Hsc.
  - destruct (Hins (or_intror (or_intror eq_refl))) as [Hz Hsc]. split.
    + rewrite (proj2 (Hnode _ (in_node_slots region nd _
                                 (potential_in_variables region)))
                 (or_intror (or_intror eq_refl))).
      exact Hz.
    + intros v Hv Hne.
      rewrite (proj2 (Hnode _ (in_node_slots region nd _ Hv))
                 (or_intror (or_intror eq_refl))).
      now apply Hsc.
Qed.

(** The circuit loop. *)
Lemma LTE_circuit_local (c : CktNode) :
  frames (fun ll c => LTE_scale eps_r eps_a x ll (array_offset_f c)
                        (array_offset_x c))
         (fun c => [array_offset_f c]) c /\
  reads_own (fun ll c => LTE_scale eps_r eps_a x ll (array_offset_f c)
                           (array_offset_x c))
            (fun c => [array_offset_f c]) c.
Proof.
  split.
  - intros w i Hi. apply LTE_scale_other. intros ->. apply Hi. now left.
  - intros w w' i Hag [<- | []]. rewrite !LTE_scale_same.
    rewrite (Hag (array_offset_f c)) by now left. reflexivity.
Qed.

Lemma LTE_circuit_loop_frame (l : list CktNode) (ll : Array) (i : nat) :
  ~ In i (map array_offset_f l) ->
  fold_left (fun ll c => LTE_scale eps_r eps_a x ll (array_offset_f c)
                           (array_offset_x c)) l ll i = ll i.
Proof.
  intro Hi. apply (fold_left_frame _ (fun c => [array_offset_f c])).
  - intros c _. apply LTE_circuit_local.
  - now rewrite flat_map_singleton_map.
Qed.

Lemma LTE_circuit_loop_at (l : list CktNode) (ll : Array) (c : CktNode) :
  NoDup (map array_offset_f l) -> In c l ->
  fold_left (fun ll c => LTE_scale eps_r eps_a x ll (array_offset_f c)
                           (array_offset_x c)) l ll (array_offset_f c)
  = ll (array_offset_f c) / (eps_r * x (array_offset_x c) + eps_a).
Proof.
  intros Hnd Hc.
  rewrite (fold_left_at _ (fun c => [array_offset_f c]) l) with (a := c).
  - apply LTE_scale_same.
  - intros c' _. apply LTE_circuit_local.
  - now rewrite flat_map_singleton_map.
  - exact Hc.
  - now left.
Qed.
End LTELoops.

(** *** The count [N] *)

Lemma wrap32_small (z : Z) : (0 <= z < 2 ^ 32)%Z -> wrap32 z = z.
Proof. intro Hz. unfold wrap32. now apply Z.mod_small. Qed.

Lemma int32_small (z : Z) : (0 <= z < 2 ^ 31)%Z -> int32 z = z.
Proof.
  intro Hz. unfold int32. rewrite Z.mod_small; lia.
Qed.

Lemma int_plus_unsigned_small (N u : Z) :
  (0 <= N)%Z -> (0 <= u)%Z -> (N + u < 2 ^ 31)%Z ->
  int_plus_unsigned N u = (N + u)%Z.
Proof.
  intros HN Hu Hlt. unfold int_plus_unsigned.
  rewrite wrap32_small by lia. apply int32_small. lia.
Qed.

Lemma node_variables_length (region : SimulationRegion) :
  (1 <= length (node_variables region) <= 6)%nat.
Proof.
  unfold node_variables, optional.
  destruct (type region), (enable_Tl (get_advanced_model region)),
    (enable_Tn (get_advanced_model region)),
    (enable_Tp (get_advanced_model region)); simpl; lia.
Qed.

Lemma non_masked_region_nonneg (region : SimulationRegion) :
  (0 <= non_masked_region region)%Z.
Proof.
  pose proof (node_variables_length region).
  unfold non_masked_region. destruct (type region); nia.
Qed.

Lemma fold_left_add_shift {A : Type} (g : A -> Z) (l : list A) (a : Z) :
  fold_left (fun s r => (s + g r)%Z) l a
  = (a + fold_left (fun s r => (s + g r)%Z) l 0)%Z.
Proof.
  revert a. induction l as [|r l IH]; intro a; cbn [fold_left]; [lia|].
  rewrite IH, (IH (0 + g r)%Z). lia.
Qed.

Lemma fold_left_add_nonneg {A : Type} (g : A -> Z) (l : list A) :
  (forall r, In r l -> 0 <= g r)%Z ->
  (0 <= fold_left (fun s r => (s + g r)%Z) l 0)%Z.
Proof.
  induction l as [|r l IH]; intro Hg; cbn [fold_left]; [lia|].
  rewrite fold_left_add_shift.
  assert (0 <= g r)%Z by (apply Hg; now left).
  assert (0 <= fold_left (fun s r => (s + g r)%Z) l 0)%Z
    by (apply IH; intros; apply Hg; now right).
  lia.
Qed.

Lemma LTE_region_N_count (N : Z) (region : SimulationRegion) :
  (type region <> VacuumRegion ->
   ebm_n_variables region = length (node_variables region)) ->
  (0 <= N)%Z -> (N + non_masked_region region < 2 ^ 31)%Z ->
  LTE_region_N N region = (N + non_masked_region region)%Z.
Proof.
  intros Hnv HN Hlt.
  pose proof (node_variables_length region) as Hlen.
  pose proof (non_masked_region_nonneg region) as Hpos.
  assert (Hcount : type region <> VacuumRegion ->
                   type region <> InvalidRegion ->
                   LTE_region_count region = non_masked_region region).
  { intros Hv Hi. unfold LTE_region_count, non_masked_region in *.
    rewrite (Hnv Hv).
    rewrite (wrap32_small (Z.of_nat (length (node_variables region)) - 1))
      by lia.
    destruct (type region); try congruence; apply wrap32_small; lia. }
  unfold LTE_region_N.
  destruct (type region) eqn:Ht;
    try (rewrite Hcount by congruence; apply int_plus_unsigned_small; lia);
    unfold non_masked_region; rewrite Ht; lia.
Qed.

Lemma LTE_regions_N_count (l : list SimulationRegion) (N : Z) :
  (forall region, In region l -> type region <> VacuumRegion ->
     ebm_n_variables region = length (node_variables region)) ->
  (0 <= N)%Z ->
  (N + fold_left (fun s region => s + non_masked_region region) l 0
   < 2 ^ 31)%Z ->
  fold_left LTE_region_N l N
  = (N + fold_left (fun s region => s + non_masked_region region) l 0)%Z.
Proof.
  revert N. induction l as [|r l IH]; intros N Hnv HN Hlt; cbn [fold_left] in *;
    [lia|].
  rewrite (fold_left_add_shift non_masked_region l (0 + non_masked_region r))
    in *.
  pose proof (non_masked_region_nonneg r) as Hr.
  assert (Hrest : (0 <= fold_left (fun s region => s + non_masked_region region)
                          l 0)%Z)
    by (apply fold_left_add_nonneg; intros; apply non_masked_region_nonneg).
  rewrite LTE_region_N_count; [|intro; apply Hnv; [now left|assumption]|lia|lia].
  rewrite IH; [lia| |lia|lia].
  intros region Hin. apply Hnv. now right.
Qed.

Lemma collect_map_some {A B : Type} (f : A -> option B) (g : A -> B)
    (l : list A) :
  (forall a, In a l -> f a = Some (g a)) ->
  collect (map f l) = Some (map g l).
Proof.
  induction l as [|a l IH]; intro Hf; simpl; [reflexivity|].
  rewrite (Hf a) by now left. rewrite IH; [reflexivity|].
  intros b Hb. apply Hf. now right.
Qed.

(** The result of the loops of [LTE_norm] on one rank. *)
Lemma LTE_local_spec (S : SolverSpecify.t) (r : LTERank) :
  wf_lte (lte_proc r) ->
  let P := lte_proc r in
  let x := lte_x r in
  let eps_r := SolverSpecify.TS_rtol S in
  let eps_a := SolverSpecify.TS_atol S in
  let e := snd (LTE_predict S x (lte_x_n r) (lte_x_n1 r) (lte_x_n2 r)) in
  exists ll,
    LTE_local S r = Some (ll, non_masked_count P) /\
    (forall region nd,
        In region (regions P) -> type region <> VacuumRegion ->
        In nd (on_processor_nodes region) ->
        ll (slot region nd POTENTIAL) = 0 /\
        forall v, In v (node_variables region) -> v <> POTENTIAL ->
          ll (slot region nd v)
          = e (slot region nd v) / (eps_r * x (slot region nd v) + eps_a)) /\
    (is_last_processor P = true ->
     forall c, In c (ckt_nodes P) ->
       ll (array_offset_f c)
       = e (array_offset_f c) / (eps_r * x (array_offset_x c) + eps_a)).
Proof.
  intros (Hwf & Hinv & Hnv & Hbound) P x eps_r eps_a e.
  fold P in Hwf, Hinv, Hnv, Hbound.
  assert (Hdev : NoDup (device_slots P)) by exact (NoDup_app_remove_r _ _ Hwf).
  assert (Hckt : NoDup (map array_offset_f (ckt_nodes P)))
    by exact (NoDup_app_remove_l _ _ Hwf).
  assert (Hdis : forall i, In i (device_slots P) ->
                   ~ In i (map array_offset_f (ckt_nodes P)))
    by exact (NoDup_app_disjoint _ _ Hwf).
  assert (Htot : (0 <= fold_left (fun s region => s + non_masked_region region)
                         (regions P) 0)%Z)
    by (apply fold_left_add_nonneg; intros; apply non_masked_region_nonneg).
  unfold non_masked_count in Hbound.
  set (ll1 := fold_left (LTE_region_ll eps_r eps_a x) (regions P) e).
  assert (Hloc : LTE_local S r
                 = Some (LTE_circuit eps_r eps_a P x
                           (ll1, fold_left (fun s region =>
                                              s + non_masked_region region)%Z
                                           (regions P) 0%Z))).
  { unfold LTE_local. fold P x eps_r eps_a e.
    rewrite LTE_regions_split by exact Hinv.
    rewrite LTE_regions_N_count; [reflexivity|exact Hnv|lia|].
    destruct (is_last_processor P); lia. }
  rewrite Hloc. unfold LTE_circuit.
  destruct (is_last_processor P) eqn:Hlast.
  - eexists. split; [|split].
    + f_equal. f_equal. unfold non_masked_count. rewrite Hlast.
      rewrite (wrap32_small (Z.of_nat (length (ckt_nodes P)))) by lia.
      apply int_plus_unsigned_small; lia.
    + intros region nd Hr Hvac Hn.
      destruct (LTE_regions_ll_values eps_r eps_a x (regions P) e region nd
                  Hdev Hr Hvac (Hinv region Hr) Hn) as [Hz Hsc].
      assert (Hfr : forall v, In v (node_variables region) ->
                fold_left (fun ll c =>
                             LTE_scale eps_r eps_a x ll (array_offset_f c)
                               (array_offset_x c)) (ckt_nodes P) ll1
                          (slot region nd v)
                = ll1 (slot region nd v)).
      { intros v Hv. apply LTE_circuit_loop_frame. apply Hdis.
        apply (in_device_slots P region); [exact Hr|].
        apply (in_region_slots region nd); [exact Hn|].
        now apply in_node_slots. }
      split.
      * rewrite Hfr by apply potential_in_variables. exact Hz.
      * intros v Hv Hne. rewrite Hfr by exact Hv. now apply Hsc.
    + intros _ c Hc. rewrite LTE_circuit_loop_at by assumption.
      unfold ll1. rewrite LTE_regions_ll_frame; [reflexivity|].
      intro Hin. apply (Hdis _ Hin). now apply in_map.
  - exists ll1. split; [|split].
    + f_equal. f_equal. unfold non_masked_count. rewrite Hlast. lia.
    + intros region nd Hr Hvac Hn.
      exact (LTE_regions_ll_values eps_r eps_a x (regions P) e region nd
               Hdev Hr Hvac (Hinv region Hr) Hn).
    + discriminate.
Qed.

Lemma non_masked_count_nonneg (P : Process) : (0 <= non_masked_count P)%Z.
Proof.
  unfold non_masked_count.
  assert (0 <= fold_left (fun s region => s + non_masked_region region)
                  (regions P) 0)%Z
    by (apply fold_left_add_nonneg; intros; apply non_masked_region_nonneg).
  destruct (is_last_processor P); lia.
Qed.

Lemma Parallel_sum_map {A : Type} (g : A -> Z) (l : list A) :
  Parallel.sum (map g l) = fold_left (fun s a => (s + g a)%Z) l 0%Z.
Proof.
  unfold Parallel.sum. generalize 0%Z.
  induction l as [|a l IH]; intro z; simpl; [reflexivity|apply IH].
Qed.

Lemma pointwise_some {A B : Type} (f : A -> option B) (l : list A) :
  (forall a, In a l -> exists b, f a = Some b) ->
  exists bs, map f l = map Some bs.
Proof.
  induction l as [|a l IH]; intro Hf; [now exists []|].
  destruct (Hf a (or_introl eq_refl)) as (b & Hb).
  destruct IH as (bs & Hbs); [intros a' Ha'; apply Hf; now right|].
  exists (b :: bs). simpl. now rewrite Hb, Hbs.
Qed.

Lemma collect_map_Some {A : Type} (l : list A) :
  collect (map Some l) = Some l.
Proof. induction l as [|a l IH]; simpl; [reflexivity|now rewrite IH]. Qed.

Lemma map_snd_of_some {A B : Type} (f : A -> option (B * Z)) (g : A -> Z)
    (l : list A) (bs : list (B * Z)) :
  map f l = map Some bs ->
  (forall a, In a l -> exists b, f a = Some (b, g a)) ->
  map snd bs = map g l.
Proof.
  revert bs. induction l as [|a l IH]; intros [|b bs] Hmap Hf;
    try discriminate; [reflexivity|].
  simpl in Hmap. injection Hmap as Hhd Htl.
  destruct (Hf a (or_introl eq_refl)) as (b0 & Hb0).
  rewrite Hb0 in Hhd. injection Hhd as <-.
  simpl. f_equal. apply IH; [exact Htl|].
  intros a' Ha'. apply Hf. now right.
Qed.

(** C4 as stated fails: the divisor of the source is
    [eps_r*x_i + eps_a], without an absolute value.  For a circuit voltage
    of -3 with [eps_r = 1e-3], [eps_a = 1e-4] and unscaled error -3/2 the
    routine stores [(-3/2)/(-0.0029) = 15000/29], where the stated divisor
    [eps_r*|x_i| + eps_a = 0.0031] would give -15000/31. *)
Lemma LTE_norm_divisor_not_absolute :
  exists ll N,
    LTE_local Examples.lte_steps Examples.lte_rank = Some (ll, N) /\
    lte_x Examples.lte_rank 6%nat == -(3) /\
    snd (LTE_predict Examples.lte_steps (lte_x Examples.lte_rank)
           (lte_x_n Examples.lte_rank) (lte_x_n1 Examples.lte_rank)
           (lte_x_n2 Examples.lte_rank)) 6%nat == -(3 # 2) /\
    ll 6%nat == 15000 # 29 /\
    -(3 # 2) / ((1 # 1000) * Qabs (-(3)) + (1 # 10000)) == -(15000 # 31) /\
    ~ ll 6%nat == -(3 # 2) / ((1 # 1000) * Qabs (-(3)) + (1 # 10000)).
Proof.
  eexists. eexists. split; [reflexivity|].
  split; [reflexivity|]. split; [reflexivity|]. split; [reflexivity|].
  split; [reflexivity|].
  intro Hc. vm_compute in Hc. discriminate Hc.
Qed.

(** The divisor of the source agrees with the stated one where the
    solution component is not negative. *)
Lemma LTE_divisor_nonneg (eps_r eps_a x : Q) :
  0 <= x -> eps_r * x + eps_a == eps_r * Qabs x + eps_a.
Proof. intro Hx. now rewrite Qabs_pos. Qed.

(** C4, amended.  On ranks whose layout is well formed ([wf_lte]) and whose
    total count of non-masked components fits an [int], [LTE_norm] returns
    a value, and with [e] the unscaled error vector [beta (x - xp)]:
    - the LTE entry of every psi row of every non-vacuum region is 0;
    - every other device component [i] is [e_i / (eps_r*x_i + eps_a)], and
      on the last processor the entry of every circuit node is
      [e_f / (eps_r*x_c + eps_a)] with [x_c] the solution at that node:
      the divisor carries no absolute value;
    - each rank counts its non-masked components, and the result is
      [||LTE||_2 / sqrt(N)] for the global count [N] when [N > 0], else 1. *)
Theorem LTE_norm_scaled
    (sqrt : Q -> Q) (S : SolverSpecify.t) (ranks : list LTERank) :
  (forall r, In r ranks -> wf_lte (lte_proc r)) ->
  let eps_r := SolverSpecify.TS_rtol S in
  let eps_a := SolverSpecify.TS_atol S in
  let N := fold_left (fun s r => s + non_masked_count (lte_proc r))%Z
                     ranks 0%Z in
  (N < 2 ^ 31)%Z ->
  exists locals,
    map (LTE_local S) ranks = map Some locals /\
    (forall r, In r ranks ->
       let P := lte_proc r in
       let x := lte_x r in
       let e := snd (LTE_predict S x (lte_x_n r) (lte_x_n1 r) (lte_x_n2 r)) in
       exists ll,
         LTE_local S r = Some (ll, non_masked_count P) /\
         (forall region nd,
             In region (regions P) -> type region <> VacuumRegion ->
             In nd (on_processor_nodes region) ->
             ll (slot region nd POTENTIAL) = 0 /\
             forall v, In v (node_variables region) -> v <> POTENTIAL ->
               ll (slot region nd v)
               = e (slot region nd v)
                 / (eps_r * x (slot region nd v) + eps_a)) /\
         (is_last_processor P = true ->
          forall c, In c (ckt_nodes P) ->
            ll (array_offset_f c)
            = e (array_offset_f c)
              / (eps_r * x (array_offset_x c) + eps_a))) /\
    LTE_norm sqrt S ranks
    = Some (if (0 <? N)%Z
            then VecNorm_2 sqrt (combine (map lte_local_size ranks)
                                         (map fst locals))
                 / sqrt (inject_Z N)
            else 1).
Proof.
  intros Hwf eps_r eps_a N HN.
  assert (Hspec : forall r, In r ranks ->
            exists ll, LTE_local S r = Some (ll, non_masked_count (lte_proc r)))
    by (intros r Hr; destruct (LTE_local_spec S r (Hwf r Hr)) as (ll & Hll & _);
        now exists ll).
  destruct (pointwise_some (LTE_local S) ranks) as (locals & Hlocals).
  { intros r Hr. destruct (Hspec r Hr) as (ll & Hll). eauto. }
  exists locals. split; [exact Hlocals|]. split.
  - intros r Hr. exact (LTE_local_spec S r (Hwf r Hr)).
  - unfold LTE_norm. rewrite Hlocals, collect_map_Some.
    assert (HNeq : LTE_N locals = N).
    { unfold LTE_N.
      rewrite (map_snd_of_some (LTE_local S)
                 (fun r => non_masked_count (lte_proc r)) ranks locals
                 Hlocals Hspec).
      rewrite Parallel_sum_map. fold N.
      apply int32_small. split; [|exact HN].
      apply fold_left_add_nonneg.
      intros r _. apply non_masked_count_nonneg. }
    rewrite HNeq. destruct (0 <? N)%Z; reflexivity.
Qed.

Lemma wf_lte_mixed_proc : wf_lte Examples.mixed_proc.
Proof.
  split; [|split; [|split]].
  - unfold wf_layout_f. simpl.
    repeat (constructor; [simpl; intuition discriminate|]). constructor.
  - intros region [<- | []]. discriminate.
  - intros region [<- | []] _. reflexivity.
  - reflexivity.
Qed.

Lemma LTE_norm_scaled_witness :
  exists locals,
    map (LTE_local Examples.lte_steps) [Examples.lte_rank] = map Some locals /\
    LTE_norm Examples.sqrt_stub Examples.lte_steps [Examples.lte_rank]
    = Some (VecNorm_2 Examples.sqrt_stub (combine [8%nat] (map fst locals))
            / Examples.sqrt_stub (inject_Z 7)).
Proof.
  destruct (LTE_norm_scaled Examples.sqrt_stub Examples.lte_steps
              [Examples.lte_rank]) as (locals & Hmap & _ & Hnorm).
  - intros r [<- | []]. exact wf_lte_mixed_proc.
  - reflexivity.
  - exists locals. split; [exact Hmap|exact Hnorm].
Defined.

(** ** Residual assembly *)

Lemma for_loop_fold {St : Type} (body : nat -> St -> St) (count : nat)
    (st : St) :
  for_loop count body st = fold_left (fun st k => body k st) (seq 0 count) st.
Proof.
  induction count as [|k IH]; [reflexivity|].
  rewrite seq_S, fold_left_app. simpl. now rewrite IH.
Qed.

Lemma fold_left_map {A B C : Type} (f : A -> B -> A) (g : C -> B)
    (l : list C) (a : A) :
  fold_left f (map g l) a = fold_left (fun a c => f a (g c)) l a.
Proof.
  revert a. induction l as [|c l IH]; intro a; simpl; [reflexivity|apply IH].
Qed.

(** What the row lists do to the residual. *)
Lemma VecAddClearRow_clear (r : Array) (rows : RowLists) (c : nat) :
  In c (clear_row rows) -> VecAddClearRow r rows c = 0.
Proof.
  unfold VecAddClearRow. generalize (fold_left
    (fun v sd => upd v (snd sd) (v (snd sd) + r (fst sd)))
    (combine (src_row rows) (dst_row rows)) r).
  induction (clear_row rows) as [|c' l IH]; intros v Hin; [contradiction|].
  simpl. destruct (in_dec Nat.eq_dec c l) as [Hl | Hnl]; [now apply IH|].
  destruct Hin as [-> | Hin]; [|contradiction].
  assert (Hfr : forall l v, ~ In c l ->
            fold_left (fun v c => upd v c 0) l v c = v c).
  { clear. intros l. induction l as [|c' l IH]; intros v Hn; [reflexivity|].
    simpl. rewrite IH by (intro; apply Hn; now right).
    apply upd_other. intros ->. apply Hn. now left. }
  rewrite Hfr by exact Hnl. apply upd_same.
Qed.

Lemma VecAddClearRow_untouched (r : Array) (rows : RowLists) (i : nat) :
  ~ In i (dst_row rows) -> ~ In i (clear_row rows) ->
  VecAddClearRow r rows i = r i.
Proof.
  intros Hd Hc. unfold VecAddClearRow.
  assert (Hfr : forall l v, ~ In i l ->
            fold_left (fun v c => upd v c 0) l v i = v i).
  { intros l. induction l as [|c' l IH]; intros v Hn; [reflexivity|].
    simpl. rewrite IH by (intro; apply Hn; now right).
    apply upd_other. intros ->. apply Hn. now left. }
  rewrite Hfr by exact Hc.
  assert (Hadd : forall l v, ~ In i (map snd l) ->
            fold_left (fun v sd => upd v (snd sd) (v (snd sd) + r (fst sd)))
                      l v i = v i).
  { intros l. induction l as [|sd l IH]; intros v Hn; [reflexivity|].
    simpl. rewrite IH by (intro; apply Hn; now right).
    apply upd_other. intros ->. apply Hn. now left. }
  apply Hadd. intro Hin. apply Hd.
  apply in_map_iff in Hin. destruct Hin as ((s, d) & <- & Hin).
  exact (in_combine_r _ _ _ _ Hin).
Qed.

Lemma VecAddClearRow_single (r : Array) (s d : nat) :
  VecAddClearRow r (mkRowLists [s] [d] []) d = r d + r s.
Proof. unfold VecAddClearRow. simpl. apply upd_same. Qed.

Section ResidualOrder.
Variable sys : AssemblySystem.
Variable TimeDependent : bool.
Variables L lxx : Array.

Let run := run_residual_stage sys L lxx.

Lemma residual_flag_loop (mk : nat -> ResidualStage)
    (f : nat -> Array -> InsertMode -> Array * InsertMode) :
  (forall k st, run st (mk k) = lift_rf (f k) st) ->
  forall count st,
    fold_left run (map mk (seq 0 count)) st
    = mkResidualState
        (fst (for_loop count (fun k p => f k (fst p) (snd p))
                (res_r st, res_flag st)))
        (snd (for_loop count (fun k p => f k (fst p) (snd p))
                (res_r st, res_flag st)))
        (res_rows st).
Proof.
  intros Hmk count st. rewrite fold_left_map.
  induction count as [|k IH].
  - destruct st; reflexivity.
  - rewrite seq_S, fold_left_app, IH. simpl. rewrite Hmk.
    reflexivity.
Qed.

Lemma residual_rows_loop (mk : nat -> ResidualStage)
    (f : nat -> Array -> RowLists -> Array * RowLists) :
  (forall k st, run st (mk k)
                = mkResidualState (fst (f k (res_r st) (res_rows st)))
                    (res_flag st) (snd (f k (res_r st) (res_rows st)))) ->
  forall count st,
    fold_left run (map mk (seq 0 count)) st
    = mkResidualState
        (fst (for_loop count (fun k p => f k (fst p) (snd p))
                (res_r st, res_rows st)))
        (res_flag st)
        (snd (for_loop count (fun k p => f k (fst p) (snd p))
                (res_r st, res_rows st))).
Proof.
  intros Hmk count st. rewrite fold_left_map.
  induction count as [|k IH].
  - destruct st; reflexivity.
  - rewrite seq_S, fold_left_app, IH. simpl. rewrite Hmk.
    reflexivity.
Qed.
End ResidualOrder.

(** C10.  [build_petsc_sens_residual] is the run, stage by stage, of the
    schedule [residual_schedule]: zero [r]; the governing equations of
    regions 0, 1, ...; only when [TimeDependent], their time-derivative
    terms; their hanging-node constraints; the circuit contribution; the
    preprocess of boundary conditions 0, 1, ..., which collects the row
    lists; the application of the collected lists; the assemble of the
    boundary conditions; the pointwise product with [L].  Applying the
    lists zeroes every clear row, leaves alone every row that is neither
    a destination nor a clear row, and adds a source row into its
    destination row. *)
Theorem build_petsc_sens_residual_order
    (sys : AssemblySystem) (TimeDependent : bool) (L x r : Array)
    (init : ResidualState) :
  build_petsc_sens_residual sys TimeDependent L x r
  = res_r (fold_left (run_residual_stage sys L (scatter sys x))
             ([StZero]
              ++ map StRegion (seq 0 (n_regions sys))
              ++ (if TimeDependent
                  then map StTimeDependent (seq 0 (n_regions sys)) else [])
              ++ map StHangingNode (seq 0 (n_regions sys))
              ++ [StCircuit]
              ++ map StBCPreprocess (seq 0 (n_bcs sys))
              ++ [StApplyRows]
              ++ map StBCAssemble (seq 0 (n_bcs sys))
              ++ [StScale])
             init) /\
  residual_schedule sys TimeDependent
  = [StZero]
    ++ map StRegion (seq 0 (n_regions sys))
    ++ (if TimeDependent
        then map StTimeDependent (seq 0 (n_regions sys)) else [])
    ++ map StHangingNode (seq 0 (n_regions sys))
    ++ [StCircuit]
    ++ map StBCPreprocess (seq 0 (n_bcs sys))
    ++ [StApplyRows]
    ++ map StBCAssemble (seq 0 (n_bcs sys))
    ++ [StScale] /\
  (forall v rows c, In c (clear_row rows) -> VecAddClearRow v rows c = 0) /\
  (forall v rows i, ~ In i (dst_row rows) -> ~ In i (clear_row rows) ->
     VecAddClearRow v rows i = v i) /\
  (forall v s d, VecAddClearRow v (mkRowLists [s] [d] []) d = v d + v s).
Proof.
  split; [|split; [reflexivity|]].
  - set (lxx := scatter sys x).
    set (run := run_residual_stage sys L lxx).
    assert (Htd : forall st,
      fold_left run (if TimeDependent
                     then map StTimeDependent (seq 0 (n_regions sys))
                     else []) st
      = mkResidualState
          (fst (if TimeDependent
                then for_loop (n_regions sys)
                       (fun k p => Region.EBM3_Time_Dependent_Function
                                     (region sys k) lxx (fst p) (snd p))
                       (res_r st, res_flag st)
                else (res_r st, res_flag st)))
          (snd (if TimeDependent
                then for_loop (n_regions sys)
                       (fun k p => Region.EBM3_Time_Dependent_Function
                                     (region sys k) lxx (fst p) (snd p))
                       (res_r st, res_flag st)
                else (res_r st, res_flag st)))
          (res_rows st)).
    { intro st. destruct TimeDependent.
      - apply (residual_flag_loop sys L lxx StTimeDependent
                 (fun k => Region.EBM3_Time_Dependent_Function
                             (region sys k) lxx)).
        reflexivity.
      - destruct st; reflexivity. }
    rewrite !fold_left_app.
    rewrite (residual_flag_loop sys L lxx StRegion
               (fun k => Region.EBM3_Function (region sys k) lxx))
      by reflexivity.
    rewrite Htd.
    rewrite (residual_flag_loop sys L lxx StHangingNode
               (fun k => Region.EBM3_Function_Hanging_Node (region sys k) lxx))
      by reflexivity.
    rewrite (residual_rows_loop sys L lxx StBCPreprocess
               (fun b => (if BC.is_spice_electrode (get_bc sys b)
                          then BC.MixA_EBM3_Function_Preprocess (get_bc sys b)
                          else BC.EBM3_Function_Preprocess (get_bc sys b))
                           lxx))
      by reflexivity.
    rewrite (residual_flag_loop sys L lxx StBCAssemble
               (fun b => (if BC.is_spice_electrode (get_bc sys b)
                          then BC.MixA_EBM3_Function (get_bc sys b)
                          else BC.EBM3_Function (get_bc sys b)) lxx))
      by reflexivity.
    unfold build_petsc_sens_residual. fold lxx. cbn.
    assert (Hpre : forall p,
      for_loop (n_bcs sys)
        (fun b pre =>
           if BC.is_spice_electrode (get_bc sys b)
           then BC.MixA_EBM3_Function_Preprocess (get_bc sys b) lxx
                  (fst pre) (snd pre)
           else BC.EBM3_Function_Preprocess (get_bc sys b) lxx
                  (fst pre) (snd pre)) p
      = for_loop (n_bcs sys)
          (fun k p =>
             (if BC.is_spice_electrode (get_bc sys k)
              then BC.MixA_EBM3_Function_Preprocess (get_bc sys k)
              else BC.EBM3_Function_Preprocess (get_bc sys k))
               lxx (fst p) (snd p)) p).
    { clear. intro p. induction (n_bcs sys) as [|k IH]; [reflexivity|].
      simpl. rewrite IH.
      destruct (BC.is_spice_electrode (get_bc sys k)); reflexivity. }
    assert (Hasm : forall p,
      for_loop (n_bcs sys)
        (fun b st =>
           if BC.is_spice_electrode (get_bc sys b)
           then BC.MixA_EBM3_Function (get_bc sys b) lxx (fst st) (snd st)
           else BC.EBM3_Function (get_bc sys b) lxx (fst st) (snd st)) p
      = for_loop (n_bcs sys)
          (fun k p =>
             (if BC.is_spice_electrode (get_bc sys k)
              then BC.MixA_EBM3_Function (get_bc sys k)
              else BC.EBM3_Function (get_bc sys k))
               lxx (fst p) (snd p)) p).
    { clear. intro p. induction (n_bcs sys) as [|k IH]; [reflexivity|].
      simpl. rewrite IH.
      destruct (BC.is_spice_electrode (get_bc sys k)); reflexivity. }
    rewrite Hpre, Hasm.
    destruct TimeDependent; rewrite <- ?surjective_pairing; reflexivity.
  - split; [exact VecAddClearRow_clear|].
    split; [exact VecAddClearRow_untouched|exact VecAddClearRow_single].
Qed.

(** ** Jacobian assembly and the scaling vector *)

(** C3 as stated fails: after assembling a Jacobian whose diagonal entry
    of row 0 is 2, with unit scaling, the scaling vector still holds 1 at
    row 0, not the reciprocal 1/2. *)
Lemma build_petsc_sens_jacobian_keeps_L :
  MatGetDiagonal
    (jacobian_assemble Examples.diagonal_system false VecZeroEntries
       Examples.fresh_jacobian) 0%nat == 2 /\
  MatGetDiagonal
    (jac_J (build_petsc_sens_jacobian Examples.diagonal_system false
              VecZeroEntries Examples.fresh_jacobian)) 0%nat == 2 /\
  jac_L (build_petsc_sens_jacobian Examples.diagonal_system false
           VecZeroEntries Examples.fresh_jacobian) 0%nat == 1 /\
  ~ jac_L (build_petsc_sens_jacobian Examples.diagonal_system false
             VecZeroEntries Examples.fresh_jacobian) 0%nat
    == / MatGetDiagonal
           (jac_J (build_petsc_sens_jacobian Examples.diagonal_system false
                     VecZeroEntries Examples.fresh_jacobian)) 0%nat.
Proof.
  split; [reflexivity|]. split; [reflexivity|]. split; [reflexivity|].
  intro Hc. vm_compute in Hc. discriminate Hc.
Qed.

(** C3, amended.  [build_petsc_sens_jacobian] does not refresh the scaling
    vector: [L] on return is [L] on entry, whatever the just-assembled
    matrix is.  It only uses [L]: every entry [(i, j)] of [J] on return,
    the diagonal included, is [L_i] times the entry of the just-assembled
    matrix. *)
Theorem build_petsc_sens_jacobian_scales_with_L
    (sys : AssemblySystem) (TimeDependent : bool) (x : Array)
    (st : JacobianState) :
  let st' := build_petsc_sens_jacobian sys TimeDependent x st in
  jac_L st' = jac_L st /\
  (forall i j,
      entries (jac_J st') i j
      = jac_L st i * entries (jacobian_assemble sys TimeDependent x st) i j) /\
  (forall i,
      MatGetDiagonal (jac_J st') i
      = jac_L st i
        * MatGetDiagonal (jacobian_assemble sys TimeDependent x st) i).
Proof. intro st'. split; [reflexivity|]. split; reflexivity. Qed.

(** ** Accepting and rolling back a solve *)

Section RecoveryFacts.
Variables RegionData CircuitData : Type.
Variable H : SolverHooks RegionData CircuitData.

(** The contract of the calls, after the component descriptions of the
    region assembler and the circuit bridge: a region owns the slots of
    its on-processor nodes, [EBM3_Update_Solution] stores the scattered
    solution there and [EBM3_Fill_Value] writes the stored solution back,
    together with the region's diagonal scale estimate into [L]; the
    circuit keeps its nodal state and one snapshot of it,
    [spice_fill_value] writes the nodal state into the circuit slots. *)
Variable owned : RegionData -> list nat.
Variable ckt_slots : list nat.
Variables current saved : CircuitData -> Array.
Variable scale : RegionData -> Array.

Hypothesis fill_frame :
  forall d x L i, ~ In i (owned d) -> fst (EBM3_Fill_Value H d x L) i = x i.
Hypothesis fill_update :
  forall d lx x L i, In i (owned d) ->
    fst (EBM3_Fill_Value H (EBM3_Update_Solution H d lx) x L) i = lx i.
Hypothesis fill_frame_L :
  forall d x L i, ~ In i (owned d) -> snd (EBM3_Fill_Value H d x L) i = L i.
Hypothesis fill_scale :
  forall d x L i, In i (owned d) ->
    snd (EBM3_Fill_Value H d x L) i = scale d i.
Hypothesis update_owned :
  forall d lx, owned (EBM3_Update_Solution H d lx) = owned d.
Hypothesis scatter_owned :
  forall d x i, In i (owned d) -> sol_scatter H x i = x i.
Hypothesis save_snapshot :
  forall c, saved (save_solution H c) = current c.
Hypothesis restore_snapshot :
  forall c, current (restore_solution H c) = saved c.
Hypothesis spice_fill_frame :
  forall c x L i, ~ In i ckt_slots -> fst (spice_fill_value H c x L) i = x i.
Hypothesis spice_fill_frame_L :
  forall c x L i, ~ In i ckt_slots -> snd (spice_fill_value H c x L) i = L i.
Hypothesis spice_fill_current :
  forall c x L i, In i ckt_slots ->
    fst (spice_fill_value H c x L) i = current c i.
Hypothesis base_keeps :
  forall st,
    sol_regions (base_post_solve_process H st) = sol_regions st /\
    saved (sol_circuit (base_post_solve_process H st))
    = saved (sol_circuit st).

Lemma fill_loop_frame (ds : list RegionData) (x L : Array) (i : nat) :
  ~ In i (flat_map owned ds) ->
  fst (fold_left (fun xL d => EBM3_Fill_Value H d (fst xL) (snd xL)) ds (x, L))
      i = x i.
Proof.
  revert x L. induction ds as [|d ds IH]; intros x L Hi; [reflexivity|].
  cbn [fold_left fst snd].
  pose proof (fill_frame d x L i) as Hfr.
  destruct (EBM3_Fill_Value H d x L) as [x' L'].
  rewrite IH by (intro Hin; apply Hi; simpl; apply in_or_app; now right).
  apply Hfr. intro Hin. apply Hi. simpl. apply in_or_app. now left.
Qed.

Lemma fill_loop_updated (ds : list RegionData) (lx x L : Array) (d : RegionData)
    (i : nat) :
  In d ds -> In i (owned d) ->
  fst (fold_left (fun xL d => EBM3_Fill_Value H d (fst xL) (snd xL))
         (map (fun d => EBM3_Update_Solution H d lx) ds) (x, L)) i = lx i.
Proof.
  revert x L d. induction ds as [|d0 ds IH]; intros x L d Hd Hi;
    [contradiction|].
  cbn [map fold_left fst snd].
  pose proof (fill_update d0 lx x L i) as Hup.
  destruct (EBM3_Fill_Value H (EBM3_Update_Solution H d0 lx) x L) as [x' L'].
  destruct (in_dec Nat.eq_dec i (flat_map owned ds)) as [Hin | Hnot].
  - apply in_flat_map in Hin. destruct Hin as (d' & Hd' & Hi').
    now apply (IH _ _ d').
  - rewrite fill_loop_frame.
    + destruct Hd as [-> | Hd]; [now apply Hup|].
      exfalso. apply Hnot. apply in_flat_map. now exists d.
    + intro Hin. apply Hnot. apply in_flat_map in Hin.
      destruct Hin as (d' & Hd' & Hi'). apply in_map_iff in Hd'.
      destruct Hd' as (d'' & <- & Hd''). rewrite update_owned in Hi'.
      apply in_flat_map. now exists d''.
Qed.

Lemma fill_loop_frame_L (ds : list RegionData) (x L : Array) (i : nat) :
  ~ In i (flat_map owned ds) ->
  snd (fold_left (fun xL d => EBM3_Fill_Value H d (fst xL) (snd xL)) ds (x, L))
      i = L i.
Proof.
  revert x L. induction ds as [|d ds IH]; intros x L Hi; [reflexivity|].
  cbn [fold_left fst snd].
  pose proof (fill_frame_L d x L i) as Hfr.
  destruct (EBM3_Fill_Value H d x L) as [x' L'].
  rewrite IH by (intro Hin; apply Hi; simpl; apply in_or_app; now right).
  apply Hfr. intro Hin. apply Hi. simpl. apply in_or_app. now left.
Qed.

Lemma fill_loop_scale (ds : list RegionData) (x L : Array) (d : RegionData)
    (i : nat) :
  NoDup (flat_map owned ds) -> In d ds -> In i (owned d) ->
  snd (fold_left (fun xL d => EBM3_Fill_Value H d (fst xL) (snd xL)) ds (x, L))
      i = scale d i.
Proof.
  revert x L. induction ds as [|d0 ds IH]; intros x L Hnd Hd Hi;
    [contradiction|].
  cbn [fold_left fst snd]. simpl in Hnd.
  pose proof (fill_scale d0 x L i) as Hsc.
  destruct (EBM3_Fill_Value H d0 x L) as [x' L'].
  destruct Hd as [-> | Hd].
  - rewrite fill_loop_frame_L; [now apply Hsc|].
    now apply (NoDup_app_disjoint _ _ Hnd).
  - apply IH; [exact (NoDup_app_remove_l _ _ Hnd)|exact Hd|exact Hi].
Qed.

Lemma flat_map_owned_update (ds : list RegionData) (lx : Array) :
  flat_map owned (map (fun d => EBM3_Update_Solution H d lx) ds)
  = flat_map owned ds.
Proof.
  induction ds as [|d ds IH]; simpl; [reflexivity|].
  now rewrite update_owned, IH.
Qed.

(** C6.  Let a solve be accepted in state [st0] ([post_solve_process]),
    let the solver then drift to any state [st2] that still holds the
    regions' data and the circuit snapshot of the acceptance, and let
    [diverged_recovery] run.  With hooks that meet their contract, regions
    that own disjoint slots and region slots disjoint from the circuit
    slots: the solution vector holds the accepted solution again at every
    slot owned by a region, and the scaling vector [L] holds there the
    scale estimate of that region's accepted state; on the last processor
    [restore_solution] has brought the circuit back to the state that
    [save_solution] recorded at the acceptance, and the circuit slots of
    the vector hold it; on the other processors the circuit data is not
    touched; the regions' data is not touched. *)
Theorem diverged_recovery_restores_accepted
    (last_processor : bool) (st0 st2 : SolverState RegionData CircuitData) :
  (forall d i, In d (sol_regions st0) -> In i (owned d) -> ~ In i ckt_slots) ->
  NoDup (flat_map owned (sol_regions st0)) ->
  let st1 := post_solve_process H st0 in
  sol_regions st2 = sol_regions st1 ->
  saved (sol_circuit st2) = saved (sol_circuit st1) ->
  let st3 := diverged_recovery H last_processor st2 in
  (forall d i, In d (sol_regions st0) -> In i (owned d) ->
     sol_x st3 i = sol_x st0 i) /\
  (forall d i, In d (sol_regions st0) -> In i (owned d) ->
     sol_L st3 i
     = scale (EBM3_Update_Solution H d (sol_scatter H (sol_x st0))) i) /\
  (last_processor = true ->
   sol_circuit st3 = restore_solution H (sol_circuit st2) /\
   current (sol_circuit st3) = current (sol_circuit st0) /\
   forall i, In i ckt_slots -> sol_x st3 i = current (sol_circuit st0) i) /\
  (last_processor = false -> sol_circuit st3 = sol_circuit st2) /\
  sol_regions st3 = sol_regions st2 /\
  sol_regions st1
  = map (fun d => EBM3_Update_Solution H d (sol_scatter H (sol_x st0)))
        (sol_regions st0) /\
  saved (sol_circuit st1) = current (sol_circuit st0).
Proof.
  intros Hdis Hnd st1 Hreg Hsaved st3.
  assert (Hreg1 : sol_regions st1
                  = map (fun d => EBM3_Update_Solution H d
                                    (sol_scatter H (sol_x st0)))
                        (sol_regions st0)).
  { unfold st1, post_solve_process.
    rewrite (proj1 (base_keeps _)). reflexivity. }
  assert (Hsaved1 : saved (sol_circuit st1) = current (sol_circuit st0)).
  { unfold st1, post_solve_process.
    rewrite (proj2 (base_keeps _)). cbn [sol_circuit].
    apply save_snapshot. }
  split; [|split; [|split; [|split; [|split; [|split]]]]].
  - intros d i Hd Hi. unfold st3, diverged_recovery. cbn [sol_x].
    rewrite spice_fill_frame by now apply (Hdis d).
    rewrite Hreg, Hreg1.
    rewrite (fill_loop_updated _ _ _ _ d i Hd Hi).
    now apply (scatter_owned d).
  - intros d i Hd Hi. unfold st3, diverged_recovery. cbn [sol_L].
    rewrite spice_fill_frame_L by now apply (Hdis d).
    rewrite Hreg, Hreg1.
    apply fill_loop_scale.
    + now rewrite flat_map_owned_update.
    + now apply (in_map (fun d => EBM3_Update_Solution H d
                                    (sol_scatter H (sol_x st0)))).
    + now rewrite update_owned.
  - intros ->. unfold st3, diverged_recovery. cbn [sol_circuit sol_x].
    split; [reflexivity|]. split.
    + now rewrite restore_snapshot, Hsaved, Hsaved1.
    + intros i Hi. rewrite spice_fill_current by exact Hi.
      now rewrite restore_snapshot, Hsaved, Hsaved1.
  - intros ->. reflexivity.
  - reflexivity.
  - exact Hreg1.
  - exact Hsaved1.
Qed.
End RecoveryFacts.

Lemma in_slots_true (l : list nat) (i : nat) :
  In i l -> Examples.in_slots l i = true.
Proof.
  intro Hin. apply existsb_exists. exists i. split; [exact Hin|].
  apply Nat.eqb_refl.
Qed.

Lemma in_slots_false (l : list nat) (i : nat) :
  ~ In i l -> Examples.in_slots l i = false.
Proof.
  intro Hnot. destruct (Examples.in_slots l i) eqn:E; [|reflexivity].
  exfalso. apply Hnot. apply existsb_exists in E.
  destruct E as (j & Hj & Heq). apply Nat.eqb_eq in Heq. now subst.
Qed.

Lemma diverged_recovery_restores_accepted_witness :
  sol_x (diverged_recovery Examples.simple_hooks true Examples.drifted) 1%nat
  = sol_x Examples.accepted 1%nat /\
  sol_L (diverged_recovery Examples.simple_hooks true Examples.drifted) 1%nat
  = 1.
Proof.
  destruct
    (diverged_recovery_restores_accepted
       Examples.region_data Examples.circuit_data Examples.simple_hooks
       fst [6; 7]%nat fst snd (fun _ _ => 1))
    with (last_processor := true) (st0 := Examples.accepted)
         (st2 := Examples.drifted)
    as (Hx & HL & _).
  - intros d x L i Hi. unfold Examples.simple_hooks, EBM3_Fill_Value.
    cbn [fst snd]. now rewrite in_slots_false.
  - intros d lx x L i Hi.
    unfold Examples.simple_hooks, EBM3_Fill_Value, EBM3_Update_Solution.
    cbn [fst snd] in *. now rewrite in_slots_true.
  - intros d x L i Hi. unfold Examples.simple_hooks, EBM3_Fill_Value.
    cbn [fst snd]. now rewrite in_slots_false.
  - intros d x L i Hi. unfold Examples.simple_hooks, EBM3_Fill_Value.
    cbn [fst snd]. now rewrite in_slots_true.
  - reflexivity.
  - reflexivity.
  - reflexivity.
  - reflexivity.
  - intros c x L i Hi. unfold Examples.simple_hooks, spice_fill_value.
    cbn [fst snd]. now rewrite in_slots_false.
  - intros c x L i Hi. reflexivity.
  - intros c x L i Hi. unfold Examples.simple_hooks, spice_fill_value.
    cbn [fst snd]. now rewrite in_slots_true.
  - intro st. split; reflexivity.
  - intros d i [<- | []] Hi. simpl in *. intuition lia.
  - simpl. repeat (constructor; [simpl; intuition discriminate|]).
    constructor.
  - reflexivity.
  - reflexivity.
  - split.
    + apply (Hx ([0; 1; 2; 3; 4; 5]%nat, VecZeroEntries) 1%nat);
        [left; reflexivity|simpl; auto].
    + apply (HL ([0; 1; 2; 3; 4; 5]%nat, VecZeroEntries) 1%nat);
        [left; reflexivity|simpl; auto].
Defined.

(** *** The verdict for every history *)

Lemma Qltb_false_iff (u v : Q) : Qltb u v = false <-> v <= u.
Proof.
  unfold Qltb. destruct (Qlt_le_dec u v) as [Hlt | Hle]; split; intro H;
    try discriminate; try reflexivity; try assumption.
  exfalso. exact (Qlt_not_le _ _ Hlt H).
Qed.

Lemma count_if_small (c : bool) (fc : Z) :
  (0 <= fc)%Z -> (fc + 1 < 2 ^ 32)%Z ->
  count_if c fc = (fc + if c then 1 else 0)%Z.
Proof.
  intros H0 H1. unfold count_if. destruct c; [|lia].
  apply wrap32_small. lia.
Qed.

Lemma BDF2_node_failures_range (a b : Q) (model : AdvancedModel)
    (nd : FVM_Node) :
  (0 <= BDF2_node_failures a b model nd <= 5)%Z.
Proof.
  unfold BDF2_node_failures. cbv zeta.
  repeat match goal with
         | |- context [if ?c then 1%Z else 0%Z] => destruct c
         end; lia.
Qed.

Lemma BDF2_node_failures_zero (a b : Q) (model : AdvancedModel)
    (nd : FVM_Node) :
  BDF2_node_failures a b model nd = 0%Z <-> BDF2_node_ok a b model nd.
Proof.
  unfold BDF2_node_failures, BDF2_node_ok. cbv zeta.
  rewrite <- !Qltb_false_iff.
  destruct (enable_Tl model), (enable_Tn model), (enable_Tp model);
    cbn [andb];
    repeat match goal with
           | |- context [Qltb ?u ?v] => destruct (Qltb u v)
           end;
    split; intro H; try lia; try (repeat split; intros; congruence);
    exfalso; destruct H as (H1 & H2 & H3 & H4 & H5);
    try discriminate H1; try discriminate H2;
    try discriminate (H3 eq_refl); try discriminate (H4 eq_refl);
    try discriminate (H5 eq_refl).
Qed.

Lemma BDF2_check_node_count (a b : Q) (model : AdvancedModel) (fc : Z)
    (nd : FVM_Node) :
  (0 <= fc)%Z -> (fc + 5 < 2 ^ 32)%Z ->
  BDF2_check_node a b model fc nd
  = (fc + BDF2_node_failures a b model nd)%Z.
Proof.
  intros H0 H5. unfold BDF2_check_node, BDF2_node_failures. cbv zeta.
  destruct (enable_Tl model), (enable_Tn model), (enable_Tp model);
    cbn [andb];
    repeat match goal with
           | |- context [Qltb ?u ?v] => destruct (Qltb u v)
           end;
    rewrite ?count_if_small;
    repeat match goal with
           | |- context [count_if ?c ?z] =>
               rewrite (count_if_small c z) by lia
           end; lia.
Qed.

Lemma fold_left_add_zero {A : Type} (g : A -> Z) (l : list A) :
  (forall r, In r l -> 0 <= g r)%Z ->
  fold_left (fun s r => (s + g r)%Z) l 0%Z = 0%Z <->
  (forall r, In r l -> g r = 0%Z).
Proof.
  induction l as [|r l IH]; intro Hg; cbn [fold_left].
  - split; [intros _ r []|reflexivity].
  - rewrite fold_left_add_shift.
    assert (H0 : (0 <= g r)%Z) by (apply Hg; now left).
    assert (Hl : forall r', In r' l -> (0 <= g r')%Z)
      by (intros; apply Hg; now right).
    pose proof (fold_left_add_nonneg g l Hl) as Hrest.
    specialize (IH Hl). split.
    + intros Hsum r' [<- | Hin]; [lia|].
      apply (proj1 IH); [lia|exact Hin].
    + intro Hall. rewrite (proj2 IH) by (intros; apply Hall; now right).
      rewrite (Hall r) by now left. reflexivity.
Qed.

Lemma fold_left_add_bound {A : Type} (g : A -> Z) (k : Z) (l : list A) :
  (forall r, In r l -> 0 <= g r <= k)%Z ->
  (0 <= fold_left (fun s r => (s + g r)%Z) l 0 <= k * Z.of_nat (length l))%Z.
Proof.
  induction l as [|r l IH]; intro Hg; cbn [fold_left length]; [lia|].
  rewrite fold_left_add_shift.
  assert (0 <= g r <= k)%Z by (apply Hg; now left).
  assert (0 <= fold_left (fun s r => (s + g r)%Z) l 0
          <= k * Z.of_nat (length l))%Z
    by (apply IH; intros; apply Hg; now right).
  lia.
Qed.

Lemma BDF2_check_nodes_count (a b : Q) (model : AdvancedModel)
    (l : list FVM_Node) (fc : Z) :
  (0 <= fc)%Z -> (fc + 5 * Z.of_nat (length l) < 2 ^ 32)%Z ->
  fold_left (BDF2_check_node a b model) l fc
  = (fc + fold_left (fun s nd => s + BDF2_node_failures a b model nd) l 0)%Z.
Proof.
  revert fc. induction l as [|nd l IH]; intros fc H0 Hb;
    cbn [fold_left length] in *; [lia|].
  pose proof (BDF2_node_failures_range a b model nd) as Hr.
  rewrite BDF2_check_node_count by lia.
  rewrite IH by lia.
  rewrite (fold_left_add_shift (BDF2_node_failures a b model) l
             (0 + BDF2_node_failures a b model nd)).
  lia.
Qed.

Lemma BDF2_region_failures_range (a b : Q) (region : SimulationRegion) :
  (0 <= BDF2_region_failures a b region
   <= 5 * Z.of_nat (length (on_processor_nodes region)))%Z.
Proof.
  unfold BDF2_region_failures.
  destruct (is_semiconductor (type region)); [|lia].
  apply fold_left_add_bound. intros nd _. apply BDF2_node_failures_range.
Qed.

Lemma BDF2_check_regions_count (a b : Q) (l : list SimulationRegion) (fc : Z) :
  (0 <= fc)%Z ->
  (fc + 5 * Z.of_nat (length (flat_map on_processor_nodes l)) < 2 ^ 32)%Z ->
  fold_left (BDF2_check_region a b) l fc
  = (fc + fold_left (fun s region => s + BDF2_region_failures a b region)
                    l 0)%Z.
Proof.
  revert fc. induction l as [|r l IH]; intros fc H0 Hb;
    cbn [fold_left flat_map] in *; [lia|].
  rewrite length_app, Nat2Z.inj_add in Hb.
  pose proof (BDF2_region_failures_range a b r) as Hr.
  assert (Hstep : BDF2_check_region a b fc r
                  = (fc + BDF2_region_failures a b r)%Z).
  { unfold BDF2_check_region, BDF2_region_failures.
    destruct (is_semiconductor (type r)); [|lia].
    apply BDF2_check_nodes_count; lia. }
  rewrite Hstep, IH by lia.
  rewrite (fold_left_add_shift (BDF2_region_failures a b) l
             (0 + BDF2_region_failures a b r)).
  lia.
Qed.

Lemma BDF2_failures_range (a b : Q) (P : Process) :
  (0 <= BDF2_failures a b P
   <= 5 * Z.of_nat (length (flat_map on_processor_nodes (regions P))))%Z.
Proof.
  unfold BDF2_failures.
  induction (regions P) as [|r l IH]; cbn [fold_left flat_map length]; [lia|].
  rewrite fold_left_add_shift, length_app, Nat2Z.inj_add.
  pose proof (BDF2_region_failures_range a b r). lia.
Qed.

Lemma BDF2_failures_zero (a b : Q) (P : Process) :
  BDF2_failures a b P = 0%Z <->
  (forall region nd,
      In region (regions P) -> type region = SemiconductorRegion ->
      In nd (on_processor_nodes region) ->
      BDF2_node_ok a b (get_advanced_model region) nd).
Proof.
  unfold BDF2_failures.
  rewrite fold_left_add_zero
    by (intros; apply BDF2_region_failures_range).
  split.
  - intros Hz region nd Hr Ht Hn. specialize (Hz region Hr).
    unfold BDF2_region_failures in Hz. rewrite Ht in Hz. simpl in Hz.
    apply BDF2_node_failures_zero.
    revert Hz. rewrite fold_left_add_zero
      by (intros; apply BDF2_node_failures_range).
    intro Hz. now apply Hz.
  - intros Hok region Hr. unfold BDF2_region_failures.
    destruct (type region) eqn:Ht; simpl; try reflexivity.
    apply fold_left_add_zero; [intros; apply BDF2_node_failures_range|].
    intros nd Hn. apply BDF2_node_failures_zero. now apply Hok.
Qed.

(** For every history whose number of tests fits an [unsigned int], the
    routine returns [false] exactly when the positivity condition holds
    at every semiconductor on-processor node, and [true] exactly when it
    is violated somewhere. *)
Lemma BDF2_positive_defined_false_iff (S : SolverSpecify.t)
    (procs : list Process) :
  (5 * Z.of_nat (length (flat_map (fun P => flat_map on_processor_nodes
                                              (regions P)) procs))
   < 2 ^ 32)%Z ->
  BDF2_positive_defined S procs = false <-> BDF2_all_ok S procs.
Proof.
  intro Hb. unfold BDF2_positive_defined, BDF2_all_ok. cbv zeta.
  set (a := BDF2_a S). set (b := BDF2_b S).
  assert (Hloc : forall P, In P procs ->
            BDF2_failure_count a b P = BDF2_failures a b P).
  { intros P HP. unfold BDF2_failure_count, BDF2_failures.
    rewrite BDF2_check_regions_count; [lia|lia|].
    assert (length (flat_map on_processor_nodes (regions P))
            <= length (flat_map (fun P => flat_map on_processor_nodes
                                            (regions P)) procs))%nat.
    { clear -HP. induction procs as [|P0 l IH]; [contradiction|].
      simpl. rewrite length_app. destruct HP as [-> | HP]; [lia|].
      specialize (IH HP). lia. }
    lia. }
  assert (Hsum : Parallel.sum (map (BDF2_failure_count a b) procs)
                 = fold_left (fun s P => (s + BDF2_failures a b P)%Z)
                             procs 0%Z).
  { rewrite Parallel_sum_map. clear Hb.
    generalize 0%Z. induction procs as [|P l IH]; intro z; [reflexivity|].
    cbn [fold_left]. rewrite (Hloc P) by now left.
    apply IH. intros P' HP'. apply Hloc. now right. }
  assert (Hrange : (0 <= fold_left (fun s P => (s + BDF2_failures a b P)%Z)
                            procs 0
                    <= 5 * Z.of_nat (length (flat_map
                                       (fun P => flat_map on_processor_nodes
                                                   (regions P)) procs)))%Z).
  { clear. induction procs as [|P l IH]; cbn [fold_left flat_map length];
      [lia|].
    rewrite fold_left_add_shift, length_app, Nat2Z.inj_add.
    pose proof (BDF2_failures_range a b P). lia. }
  rewrite Hsum, wrap32_small by lia.
  rewrite negb_false_iff, Z.eqb_eq.
  rewrite fold_left_add_zero by (intros; apply BDF2_failures_range).
  split.
  - intros Hz P region nd HP. apply BDF2_failures_zero. now apply Hz.
  - intros Hok P HP. apply BDF2_failures_zero.
    intros region nd. now apply Hok.
Qed.

(** * Further properties *)

(** ** The verdict of [BDF2_positive_defined] *)



Lemma BDF2_coefficients (S : SolverSpecify.t) :
  0 < SolverSpecify.dt S -> 0 < SolverSpecify.dt_last S ->
  0 <= BDF2_b S /\ BDF2_b S <= BDF2_a S.
Proof.
  intros Hn Hn1.
  set (h := SolverSpecify.dt S) in *. set (h1 := SolverSpecify.dt_last S) in *.
  assert (Hb : BDF2_b S == h / h1).
  { unfold BDF2_b, BDF2_r. fold h h1. field. split; lra. }
  assert (Ha : BDF2_a S == h / h1 + (2 * h + h1) / h).
  { unfold BDF2_a, BDF2_r. fold h h1. field.
    repeat split; lra. }
  assert (Hq1 : 0 <= h / h1).
  { apply Qlt_le_weak, Qlt_shift_div_l; lra. }
  assert (Hq2 : 0 <= (2 * h + h1) / h).
  { apply Qlt_le_weak, Qlt_shift_div_l; lra. }
  rewrite Ha, Hb. split; lra.
Qed.

Lemma BDF2_monotone_ok (a b u v : Q) :
  0 <= b -> b <= a -> 0 <= v -> v <= u -> b * v <= a * u.
Proof.
  intros Hb Hba Hv Hvu.
  apply Qle_trans with (b * u).
  - rewrite !(Qmult_comm b). now apply Qmult_le_compat_r.
  - apply Qmult_le_compat_r; [exact Hba|]. now apply Qle_trans with v.
Qed.

(** X4.  Whatever the positive step sizes, a history in which no tested
    quantity is negative or has decreased ([0 <= xi_last <= xi_new] for n,
    p, and the active ones of Tl, n*Tn, p*Tp at every semiconductor
    on-processor node) makes no test fire: [BDF2_positive_defined]
    returns [false]. *)
Theorem BDF2_positive_defined_monotone_history (S : SolverSpecify.t)
    (procs : list Process) :
  0 < SolverSpecify.dt S -> 0 < SolverSpecify.dt_last S ->
  (5 * Z.of_nat (length (flat_map (fun P => flat_map on_processor_nodes
                                              (regions P)) procs))
   < 2 ^ 32)%Z ->
  (forall P region nd,
      In P procs -> In region (regions P) ->
      type region = SemiconductorRegion ->
      In nd (on_processor_nodes region) ->
      let d := node_data nd in
      let model := get_advanced_model region in
      0 <= FVM_NodeData.n_last d <= FVM_NodeData.n d /\
      0 <= FVM_NodeData.p_last d <= FVM_NodeData.p d /\
      (enable_Tl model = true ->
       0 <= FVM_NodeData.T_last d <= FVM_NodeData.T d) /\
      (enable_Tn model = true ->
       0 <= FVM_NodeData.n_last d * FVM_NodeData.Tn_last d
       <= FVM_NodeData.n d * FVM_NodeData.Tn d) /\
      (enable_Tp model = true ->
       0 <= FVM_NodeData.p_last d * FVM_NodeData.Tp_last d
       <= FVM_NodeData.p d * FVM_NodeData.Tp d)) ->
  BDF2_positive_defined S procs = false.
Proof.
  intros Hn Hn1 Hb Hmono.
  apply BDF2_positive_defined_false_iff; [exact Hb|].
  destruct (BDF2_coefficients S Hn Hn1) as [Hb0 Hba].
  intros P region nd HP Hr Ht Hnd.
  destruct (Hmono P region nd HP Hr Ht Hnd) as (Hnn & Hpp & HTl & HTn & HTp).
  unfold BDF2_node_ok. cbv zeta.
  split; [apply BDF2_monotone_ok; tauto|].
  split; [apply BDF2_monotone_ok; tauto|].
  split; [intro E; apply BDF2_monotone_ok; try tauto; apply (HTl E)|].
  split.
  - intro E. rewrite <- !Qmult_assoc.
    apply BDF2_monotone_ok; try tauto; apply (HTn E).
  - intro E. rewrite <- !Qmult_assoc.
    apply BDF2_monotone_ok; try tauto; apply (HTp E).
Qed.

Lemma BDF2_positive_defined_monotone_history_witness :
  BDF2_positive_defined
    (SolverSpecify.mk (1 # 3) 2 1 (1 # 1000) (1 # 10000) SolverSpecify.BDF2
       false true)
    [Examples.one_node_proc Examples.steady_node] = false.
Proof.
  apply BDF2_positive_defined_monotone_history.
  - reflexivity.
  - reflexivity.
  - reflexivity.
  - intros P region nd [<- | []] [<- | []] _ [<- | []]. cbv zeta.
    repeat split; try discriminate; intros; discriminate.
Defined.

(** ** [projection_positive_density_check] *)

Lemma projection_region_scan (PU : PhysicalUnit.t) (T_ext : Q) (oo w : Array)
    (region : SimulationRegion) :
  projection_region PU T_ext oo w region
  = potential_scan_region_w PU T_ext oo w region.
Proof. reflexivity. Qed.

(** The projection of an iterate is the candidate component of the first
    loop of [potential_damping], whatever the Newton step. *)
Lemma projection_as_scan (PU : PhysicalUnit.t) (P : Process)
    (w oo y : Array) :
  projection_positive_density_check PU P w oo
  = snd (potential_scan PU P oo y w).
Proof. rewrite potential_scan_split. reflexivity. Qed.

(** X5.  [potential_damping] is [projection_positive_density_check]
    followed by the damping of the potential and the circuit clip: its
    first loop leaves in the candidate exactly what the projection, run on
    the candidate with the previous iterate [x] as reference, returns. *)
Theorem potential_damping_projects_first (PU : PhysicalUnit.t)
    (log : Q -> Q) (ranks : list DampingRank) (r : DampingRank) :
  potential_damping PU log ranks r
  = potential_finish PU log (rk_proc r) (potential_dV_max PU ranks)
      (rk_x r) (rk_y r)
      (projection_positive_density_check PU (rk_proc r) (rk_w r) (rk_x r)).
Proof.
  unfold potential_damping.
  now rewrite (projection_as_scan PU (rk_proc r) (rk_w r) (rk_x r) (rk_y r)).
Qed.

(** X6.  After [projection_positive_density_check], at every semiconductor
    on-processor node of a well-formed layout: the potential is the one
    passed in; n and p are at least 1 cm^-3 ([onePerCMC]); the lattice
    temperature (if solved for) is at least [T_external - 50 K];
    and the [n*Tn] and [p*Tp] components (if solved for) are [T1 * n] and
    [T1 * p], where [T1] is the blended carrier temperature
    [T0*(1 - min(n/n_o, 2)) + x_nTn/n_o] with [T0 = (x_nTn)_o/n_o] taken
    from the reference iterate [xo], raised to [0.9 T_external] when
    below. *)
Theorem projection_positive_density_check_bounds (PU : PhysicalUnit.t)
    (P : Process) (xx oo : Array) (region : SimulationRegion)
    (nd : FVM_Node) :
  wf_layout P ->
  In region (regions P) -> type region = SemiconductorRegion ->
  In nd (on_processor_nodes region) ->
  let x' := projection_positive_density_check PU P xx oo in
  let model := get_advanced_model region in
  let i_n := slot region nd ELECTRON in
  let i_p := slot region nd HOLE in
  x' (slot region nd POTENTIAL) = xx (slot region nd POTENTIAL) /\
  onePerCMC PU <= x' i_n /\
  onePerCMC PU <= x' i_p /\
  (enable_Tl model = true ->
   T_external P - 50 * PhysicalUnit.K PU <= x' (slot region nd TEMPERATURE)) /\
  (enable_Tn model = true ->
   let i_T := slot region nd E_TEMP in
   x' i_T
   = carrier_T1 (T_external P) (oo i_n) (x' i_n) (oo i_T) (xx i_T) * x' i_n) /\
  (enable_Tp model = true ->
   let i_T := slot region nd H_TEMP in
   x' i_T
   = carrier_T1 (T_external P) (oo i_p) (x' i_p) (oo i_T) (xx i_T) * x' i_p).
Proof.
  intros Hwf Hr Ht Hn x' model i_n i_p.
  destruct (semiconductor_variables region Ht) as (Hvn & Hvp & HvTl & HvTn & HvTp).
  assert (Hat : forall v, In v (node_variables region) ->
            x' (slot region nd v)
            = potential_scan_node_w PU (T_external P) region oo xx nd
                (slot region nd v)).
  { intros v Hv. unfold x'.
    rewrite (projection_as_scan PU P xx oo VecZeroEntries).
    apply potential_scan_w_at; auto. now apply in_node_slots. }
  destruct (potential_scan_node_w_values PU (T_external P) oo region nd xx Ht
              (wf_layout_node P region nd Hwf Hr Hn))
    as (Vpsi & Vn & Vp & VTl & VTn & VTp).
  split; [rewrite (Hat POTENTIAL (potential_in_variables region)); exact Vpsi|].
  split; [unfold i_n; rewrite (Hat ELECTRON Hvn), Vn; apply clip_bound|].
  split; [unfold i_p; rewrite (Hat HOLE Hvp), Vp; apply clip_bound|].
  split; [|split].
  - intro E. rewrite (Hat TEMPERATURE (HvTl E)), (VTl E). apply clip_bound.
  - intros E i_T. unfold i_T, i_n.
    rewrite (Hat E_TEMP (HvTn E)), !(Hat ELECTRON Hvn). exact (VTn E).
  - intros E i_T. unfold i_T, i_p.
    rewrite (Hat H_TEMP (HvTp E)), !(Hat HOLE Hvp). exact (VTp E).
Qed.

Lemma projection_positive_density_check_bounds_witness :
  onePerCMC Examples.units
  <= projection_positive_density_check Examples.units Examples.ebm_proc
       Examples.w0 Examples.x0
       (slot Examples.ebm_region Examples.steady_node ELECTRON).
Proof.
  refine (proj1 (proj2
    (projection_positive_density_check_bounds Examples.units
       Examples.ebm_proc Examples.w0 Examples.x0 Examples.ebm_region
       Examples.steady_node wf_layout_ebm_proc _ _ _))).
  - now left.
  - reflexivity.
  - now left.
Defined.

Lemma semiconductor_slots_device (P : Process) (i : nat) :
  In i (semiconductor_slots P) -> In i (device_slots P).
Proof.
  unfold semiconductor_slots, device_slots. rewrite !in_flat_map.
  intros (region & Hr & Hi). exists region. split; [exact Hr|].
  destruct (is_semiconductor (type region)); [exact Hi|contradiction].
Qed.

Lemma projection_region_frames (PU : PhysicalUnit.t) (T_ext : Q) (oo : Array)
    (region : SimulationRegion) :
  frames (projection_region PU T_ext oo)
         (fun region => if is_semiconductor (type region)
                        then region_slots region else [])
         region.
Proof.
  intros w i Hi. rewrite projection_region_scan.
  unfold potential_scan_region_w.
  destruct (type region) eqn:Ht; simpl in *; try reflexivity.
  apply (fold_left_frame _ (node_slots region)); [|exact Hi].
  intros nd _ w0 j Hj. now apply potential_scan_node_w_frames.
Qed.

(** X7.  [projection_positive_density_check] only ever writes to unknowns
    of semiconductor regions: every other component of [x] (in particular
    every unknown of an insulator, electrode or metal region and, in a
    well-formed layout, every circuit unknown) is returned as passed in. *)
Theorem projection_positive_density_check_frame (PU : PhysicalUnit.t)
    (P : Process) (xx oo : Array) :
  (forall i, ~ In i (semiconductor_slots P) ->
     projection_positive_density_check PU P xx oo i = xx i) /\
  (wf_layout P ->
   (forall region nd v,
      In region (regions P) -> type region <> SemiconductorRegion ->
      In nd (on_processor_nodes region) -> In v (node_variables region) ->
      projection_positive_density_check PU P xx oo (slot region nd v)
      = xx (slot region nd v)) /\
   (forall c, In c (ckt_nodes P) ->
      projection_positive_density_check PU P xx oo (array_offset_x c)
      = xx (array_offset_x c))).
Proof.
  assert (Hfr : forall i, ~ In i (semiconductor_slots P) ->
                  projection_positive_density_check PU P xx oo i = xx i).
  { intros i Hi. unfold projection_positive_density_check.
    apply (fold_left_frame _ (fun region =>
                                if is_semiconductor (type region)
                                then region_slots region else []));
      [|exact Hi].
    intros region _. apply projection_region_frames. }
  split; [exact Hfr|]. intro Hwf. split.
  - intros region nd v Hr Ht Hn Hv.
    rewrite (projection_as_scan PU P xx oo VecZeroEntries).
    apply (potential_scan_w_other_region PU oo VecZeroEntries P region);
      auto.
    apply (in_region_slots region nd); [exact Hn|now apply in_node_slots].
  - intros c Hc. apply Hfr. intro Hin.
    apply (device_not_circuit P _ Hwf (semiconductor_slots_device P _ Hin)).
    now apply in_map.
Qed.

Lemma clamp_below_id (w : Array) (i : nat) (lo : Q) :
  lo <= w i -> clamp_below w i lo = w.
Proof.
  intro Hle. unfold clamp_below.
  destruct (Qlt_le_dec (w i) lo) as [Hlt | _]; [|reflexivity].
  exfalso. exact (Qlt_not_le _ _ Hlt Hle).
Qed.

Lemma fold_left_fixed {A S : Type} (step : S -> A -> S) (l : list A) (s : S) :
  (forall a, In a l -> step s a = s) -> fold_left step l s = s.
Proof.
  induction l as [|a l IH]; simpl; intro Hfix; [reflexivity|].
  rewrite (Hfix a) by now left. apply IH. intros b Hb. apply Hfix. now right.
Qed.

(** X8.  In models without carrier temperatures an iterate that already
    meets the bounds (n, p at least 1 cm^-3 and, if the lattice temperature
    is solved for, Tl at least [T_external - 50 K] at every semiconductor
    on-processor node) is a fixed point of
    [projection_positive_density_check]: the array comes back unchanged. *)
Theorem projection_positive_density_check_fixed_point (PU : PhysicalUnit.t)
    (P : Process) (xx oo : Array) :
  (forall region nd,
      In region (regions P) -> type region = SemiconductorRegion ->
      In nd (on_processor_nodes region) ->
      let model := get_advanced_model region in
      enable_Tn model = false /\ enable_Tp model = false /\
      onePerCMC PU <= xx (slot region nd ELECTRON) /\
      onePerCMC PU <= xx (slot region nd HOLE) /\
      (enable_Tl model = true ->
       T_external P - 50 * PhysicalUnit.K PU
       <= xx (slot region nd TEMPERATURE))) ->
  projection_positive_density_check PU P xx oo = xx.
Proof.
  intro Hok. unfold projection_positive_density_check.
  apply fold_left_fixed. intros region Hr.
  unfold projection_region.
  destruct (type region) eqn:Ht; simpl; try reflexivity.
  apply fold_left_fixed. intros nd Hn.
  destruct (Hok region nd Hr Ht Hn) as (ETn & ETp & Bn & Bp & BTl).
  unfold projection_node. fold_slots region nd. cbv zeta.
  rewrite ETn, ETp.
  rewrite (clamp_below_id xx (slot region nd ELECTRON)) by exact Bn.
  rewrite (clamp_below_id xx (slot region nd HOLE)) by exact Bp.
  destruct (enable_Tl (get_advanced_model region)); [|reflexivity].
  apply clamp_below_id. now apply BTl.
Qed.

Lemma projection_positive_density_check_fixed_point_witness :
  projection_positive_density_check Examples.units
    (Examples.one_node_proc Examples.steady_node)
    (Examples.array_of [0; 1; 3]) Examples.x0
  = Examples.array_of [0; 1; 3].
Proof.
  apply projection_positive_density_check_fixed_point.
  intros region nd [<- | []] _ [<- | []]. cbv zeta.
  split; [reflexivity|]. split; [reflexivity|].
  split; [discriminate|]. split; [discriminate|]. discriminate.
Defined.

(** ** More on [potential_damping] *)

Lemma potential_finish_below (PU : PhysicalUnit.t) (log : Q -> Q)
    (x y : Array) (P : Process) (dV_max : Q) (w : Array) (i : nat) :
  dV_max <= (1 # 1000000) ->
  ~ In i (map array_offset_x (ckt_nodes P)) ->
  potential_finish PU log P dV_max x y w i = w i.
Proof.
  intros Hle Hck. unfold potential_finish.
  destruct (Qlt_le_dec (1 # 1000000) dV_max) as [Hlt | _];
    [exfalso; exact (Qlt_not_le _ _ Hlt Hle)|].
  destruct (is_last_processor P); [|reflexivity].
  now apply potential_ckt_loop_frame.
Qed.

Lemma potential_scan_w_psi (PU : PhysicalUnit.t) (x y : Array) (P : Process)
    (region : SimulationRegion) (nd : FVM_Node) (w : Array) :
  wf_layout P -> In region (regions P) -> In nd (on_processor_nodes region) ->
  snd (potential_scan PU P x y w) (slot region nd POTENTIAL)
  = w (slot region nd POTENTIAL).
Proof.
  intros Hwf Hr Hn.
  assert (Hi : In (slot region nd POTENTIAL) (node_slots region nd))
    by apply in_node_slots, potential_in_variables.
  destruct (type region) eqn:Ht.
  1: { rewrite (potential_scan_w_at PU x y P region nd) by assumption.
       exact (proj1 (potential_scan_node_w_values PU (T_external P) x region
                       nd w Ht (wf_layout_node P region nd Hwf Hr Hn))). }
  all: apply (potential_scan_w_other_region PU x y P region); auto;
    try congruence; now apply (in_region_slots region nd).
Qed.

(** X9.  When no semiconductor on-processor node of any rank has a Newton
    step of the potential larger than 1e-6, [potential_damping] leaves the
    potential of every node of every region at its trial value (the
    logarithmic damping is skipped). *)
Theorem potential_damping_below_threshold (PU : PhysicalUnit.t)
    (log : Q -> Q) (ranks : list DampingRank) (r : DampingRank)
    (region : SimulationRegion) (nd : FVM_Node) :
  wf_layout (rk_proc r) ->
  In region (regions (rk_proc r)) -> In nd (on_processor_nodes region) ->
  (forall r' region' nd',
      In r' ranks -> In region' (regions (rk_proc r')) ->
      type region' = SemiconductorRegion ->
      In nd' (on_processor_nodes region') ->
      Qabs (rk_y r' (slot region' nd' POTENTIAL)) <= (1 # 1000000)) ->
  potential_damping PU log ranks r (slot region nd POTENTIAL)
  = rk_w r (slot region nd POTENTIAL).
Proof.
  intros Hwf Hr Hn Hsmall.
  assert (HdV : potential_dV_max PU ranks <= (1 # 1000000)).
  { destruct (potential_dV_max_attained PU ranks)
      as [-> | (r' & region' & nd' & Hr' & Hreg' & Ht' & Hn' & ->)].
    - discriminate.
    - now apply Hsmall. }
  unfold potential_damping.
  rewrite potential_finish_below; [|exact HdV|].
  - now apply potential_scan_w_psi.
  - apply device_not_circuit; [exact Hwf|].
    apply psi_slots_device. now apply in_psi_slots.
Qed.

Lemma potential_damping_below_threshold_witness :
  potential_damping Examples.units Examples.log_stub
    [mkDampingRank Examples.ebm_proc Examples.x0 VecZeroEntries Examples.w0]
    (mkDampingRank Examples.ebm_proc Examples.x0 VecZeroEntries Examples.w0)
    (slot Examples.ebm_region Examples.steady_node POTENTIAL)
  = Examples.w0 (slot Examples.ebm_region Examples.steady_node POTENTIAL).
Proof.
  apply (potential_damping_below_threshold Examples.units Examples.log_stub
           [mkDampingRank Examples.ebm_proc Examples.x0 VecZeroEntries
              Examples.w0]
           (mkDampingRank Examples.ebm_proc Examples.x0 VecZeroEntries
              Examples.w0)
           Examples.ebm_region Examples.steady_node).
  - exact wf_layout_ebm_proc.
  - now left.
  - now left.
  - intros r' region' nd' [<- | []] _ _ _. vm_compute. discriminate.
Defined.

(** ** More on [positive_density_damping] *)

Lemma positive_density_region_frames (PU : PhysicalUnit.t) (T_ext : Q)
    (x y : Array) (region : SimulationRegion) :
  frames (positive_density_region PU T_ext x y)
         (fun region => if is_semiconductor (type region)
                        then region_slots region else [])
         region.
Proof.
  intros w i Hi. unfold positive_density_region.
  destruct (type region) eqn:Ht; simpl in *; try reflexivity.
  apply (fold_left_frame _ (node_slots region)); [|exact Hi].
  intros nd _ w0 j Hj. now apply positive_density_node_frames.
Qed.

(** X11.  [positive_density_damping] only ever writes to unknowns of
    semiconductor regions: the potential of insulator, electrode and metal
    nodes and, in a well-formed layout, the circuit unknowns keep their
    trial value (unlike in [potential_damping], which damps both). *)
Theorem positive_density_damping_frame (PU : PhysicalUnit.t) (P : Process)
    (x y w : Array) :
  (forall i, ~ In i (semiconductor_slots P) ->
     positive_density_damping PU P x y w i = w i) /\
  (wf_layout P ->
   (forall region nd v,
      In region (regions P) -> type region <> SemiconductorRegion ->
      In nd (on_processor_nodes region) -> In v (node_variables region) ->
      positive_density_damping PU P x y w (slot region nd v)
      = w (slot region nd v)) /\
   (forall c, In c (ckt_nodes P) ->
      positive_density_damping PU P x y w (array_offset_x c)
      = w (array_offset_x c))).
Proof.
  assert (Hfr : forall i, ~ In i (semiconductor_slots P) ->
                  positive_density_damping PU P x y w i = w i).
  { intros i Hi. unfold positive_density_damping.
    apply (fold_left_frame _ (fun region =>
                                if is_semiconductor (type region)
                                then region_slots region else []));
      [|exact Hi].
    intros region _. apply positive_density_region_frames. }
  split; [exact Hfr|]. intro Hwf. split.
  - intros region nd v Hr Ht Hn Hv. apply Hfr. intro Hin.
    unfold semiconductor_slots in Hin. apply in_flat_map in Hin.
    destruct Hin as (region' & Hr' & Hin).
    destruct (type region') eqn:Ht'; simpl in Hin; try contradiction.
    apply in_flat_map in Hin. destruct Hin as (nd' & Hn' & Hin).
    apply in_map_iff in Hin. destruct Hin as (v' & Heq & Hv').
    symmetry in Heq.
    destruct (slot_owner P region region' nd nd' v v' Hwf Hr Hn Hv Hr' Hn'
                Hv' Heq) as (-> & _ & _).
    contradiction.
  - intros c Hc. apply Hfr. intro Hin.
    apply (device_not_circuit P _ Hwf (semiconductor_slots_device P _ Hin)).
    now apply in_map.
Qed.

(** ** The order of the Jacobian assembly *)

Section JacobianOrder.
Variable sys : AssemblySystem.
Variables L lxx : Array.

Let run := run_jacobian_stage sys L lxx.

Lemma jacobian_flag_loop (mk : nat -> JacobianStage)
    (f : nat -> Mat -> InsertMode -> Mat * InsertMode) :
  (forall k w, run w (mk k) = lift_Jf (f k) w) ->
  forall count w,
    fold_left run (map mk (seq 0 count)) w
    = mkJacobianWork
        (fst (for_loop count (fun k p => f k (fst p) (snd p))
                (jw_J w, jw_flag w)))
        (snd (for_loop count (fun k p => f k (fst p) (snd p))
                (jw_J w, jw_flag w)))
        (jw_rows w).
Proof.
  intros Hmk count w. rewrite fold_left_map.
  induction count as [|k IH].
  - destruct w; reflexivity.
  - rewrite seq_S, fold_left_app, IH. simpl. rewrite Hmk.
    reflexivity.
Qed.

Lemma jacobian_rows_loop (mk : nat -> JacobianStage)
    (f : nat -> Mat -> RowLists -> Mat * RowLists) :
  (forall k w, run w (mk k)
               = mkJacobianWork (fst (f k (jw_J w) (jw_rows w)))
                   (jw_flag w) (snd (f k (jw_J w) (jw_rows w)))) ->
  forall count w,
    fold_left run (map mk (seq 0 count)) w
    = mkJacobianWork
        (fst (for_loop count (fun k p => f k (fst p) (snd p))
                (jw_J w, jw_rows w)))
        (jw_flag w)
        (snd (for_loop count (fun k p => f k (fst p) (snd p))
                (jw_J w, jw_rows w))).
Proof.
  intros Hmk count w. rewrite fold_left_map.
  induction count as [|k IH].
  - destruct w; reflexivity.
  - rewrite seq_S, fold_left_app, IH. simpl. rewrite Hmk.
    reflexivity.
Qed.

Lemma bc_loop_select {St A B : Type} (count : nat) (c : nat -> bool)
    (f g : nat -> Array -> A -> B -> St) (p0 : St)
    (pa : St -> A) (pb : St -> B) :
  for_loop count
    (fun b p => if c b then f b lxx (pa p) (pb p) else g b lxx (pa p) (pb p))
    p0
  = for_loop count
      (fun k p => (if c k then f k else g k) lxx (pa p) (pb p)) p0.
Proof.
  induction count as [|k IH]; [reflexivity|].
  simpl. rewrite IH. destruct (c k); reflexivity.
Qed.

Lemma bc_loop_select_reserve {St A B : Type} (count : nat) (c : nat -> bool)
    (f g : nat -> A -> B -> St) (p0 : St) (pa : St -> A) (pb : St -> B) :
  for_loop count
    (fun b p => if c b then f b (pa p) (pb p) else g b (pa p) (pb p)) p0
  = for_loop count (fun k p => (if c k then f k else g k) (pa p) (pb p)) p0.
Proof.
  induction count as [|k IH]; [reflexivity|].
  simpl. rewrite IH. destruct (c k); reflexivity.
Qed.
End JacobianOrder.

Lemma in_stage_map (mk : nat -> JacobianStage) (s : JacobianStage) (n : nat) :
  In s (map mk (seq 0 n)) <-> exists k, mk k = s /\ (k < n)%nat.
Proof.
  rewrite in_map_iff. split; intros (k & Hk & Hn); exists k; split; auto.
  - apply in_seq in Hn. lia.
  - apply in_seq. lia.
Qed.

Ltac stage_cases :=
  repeat match goal with
         | H : _ \/ _ |- _ => destruct H
         | H : exists _, _ |- _ => destruct H as (? & ? & ?)
         | H : False |- _ => contradiction
         end.

Lemma jacobian_schedule_reserve (sys : AssemblySystem) (TD fa : bool) :
  (forall b, In (JReserve b) (jacobian_schedule sys TD fa)
             <-> fa = false /\ (b < n_bcs sys)%nat) /\
  (In JIgnoreZeroEntries (jacobian_schedule sys TD fa) <-> fa = false).
Proof.
  unfold jacobian_schedule. split; [intro b|].
  - destruct TD, fa; repeat rewrite ?in_app_iff, ?in_stage_map; simpl;
      (split;
       [ intro Hor; stage_cases; try discriminate;
         match goal with
         | H : JReserve _ = JReserve _ |- _ => injection H as <-
         end; (split; [reflexivity|assumption])
       | intros [Hf Hb]; try discriminate Hf;
         do 5 right; left; left; exists b; (split; [reflexivity|exact Hb]) ]).
  - destruct TD, fa; repeat rewrite ?in_app_iff, ?in_stage_map; simpl;
      (split;
       [ intro Hor; stage_cases; try discriminate; reflexivity
       | intro Hf; try discriminate Hf;
         do 5 right; left; right; left; reflexivity ]).
Qed.

(** X12.  [build_petsc_sens_jacobian] is the run, stage by stage, of
    [jacobian_schedule]: zero [J]; the Jacobians of regions 0, 1, ...; only
    when [TimeDependent], their time-derivative terms; their hanging-node
    constraints; the circuit contribution; only while the first-assemble
    flag is unset, the reserve of boundary conditions 0, 1, ... and the
    ignore-zero-entries option; the preprocess of the boundary conditions,
    which collects the row lists; the row additions; the row clears; the
    assemble of the boundary conditions; the row scaling with [L].  On
    return the flag is set, so that the reserve stages run in the first
    call only. *)
Theorem build_petsc_sens_jacobian_order
    (sys : AssemblySystem) (TimeDependent : bool) (x : Array)
    (st : JacobianState) (flag : InsertMode) (rows : RowLists) :
  let schedule :=
    jacobian_schedule sys TimeDependent (jacobian_matrix_first_assemble st) in
  let st' := build_petsc_sens_jacobian sys TimeDependent x st in
  jac_J st'
  = jw_J (fold_left (run_jacobian_stage sys (jac_L st) (scatter sys x))
                    schedule (mkJacobianWork (jac_J st) flag rows)) /\
  (forall b, In (JReserve b) schedule
             <-> jacobian_matrix_first_assemble st = false
                 /\ (b < n_bcs sys)%nat) /\
  (In JIgnoreZeroEntries schedule
   <-> jacobian_matrix_first_assemble st = false) /\
  forall TimeDependent' b,
    ~ In (JReserve b)
         (jacobian_schedule sys TimeDependent'
            (jacobian_matrix_first_assemble st')) /\
    ~ In JIgnoreZeroEntries
         (jacobian_schedule sys TimeDependent'
            (jacobian_matrix_first_assemble st')).
Proof.
  intros schedule st'.
  pose proof (jacobian_schedule_reserve sys) as Hin.
  split; [|split; [apply Hin|split; [apply Hin|]]].
  - unfold schedule, jacobian_schedule.
    set (lxx := scatter sys x). set (L := jac_L st).
    set (run := run_jacobian_stage sys L lxx).
    assert (Htd : forall w,
      fold_left run (if TimeDependent
                     then map JTimeDependent (seq 0 (n_regions sys))
                     else []) w
      = mkJacobianWork
          (fst (if TimeDependent
                then for_loop (n_regions sys)
                       (fun k p => Region.EBM3_Time_Dependent_Jacobian
                                     (region sys k) lxx (fst p) (snd p))
                       (jw_J w, jw_flag w)
                else (jw_J w, jw_flag w)))
          (snd (if TimeDependent
                then for_loop (n_regions sys)
                       (fun k p => Region.EBM3_Time_Dependent_Jacobian
                                     (region sys k) lxx (fst p) (snd p))
                       (jw_J w, jw_flag w)
                else (jw_J w, jw_flag w)))
          (jw_rows w)).
    { intro w. destruct TimeDependent.
      - apply (jacobian_flag_loop sys L lxx JTimeDependent
                 (fun k => Region.EBM3_Time_Dependent_Jacobian
                             (region sys k) lxx)).
        reflexivity.
      - destruct w; reflexivity. }
    assert (Hres : forall w,
      fold_left run (map JReserve (seq 0 (n_bcs sys))) w
      = mkJacobianWork
          (fst (for_loop (n_bcs sys)
                  (fun k p =>
                     (if BC.is_spice_electrode (get_bc sys k)
                      then BC.MixA_EBM3_Jacobian_Reserve (get_bc sys k)
                      else BC.EBM3_Jacobian_Reserve (get_bc sys k))
                       (fst p) (snd p))
                  (jw_J w, jw_flag w)))
          (snd (for_loop (n_bcs sys)
                  (fun k p =>
                     (if BC.is_spice_electrode (get_bc sys k)
                      then BC.MixA_EBM3_Jacobian_Reserve (get_bc sys k)
                      else BC.EBM3_Jacobian_Reserve (get_bc sys k))
                       (fst p) (snd p))
                  (jw_J w, jw_flag w)))
          (jw_rows w)).
    { intro w.
      apply (jacobian_flag_loop sys L lxx JReserve
               (fun k => if BC.is_spice_electrode (get_bc sys k)
                         then BC.MixA_EBM3_Jacobian_Reserve (get_bc sys k)
                         else BC.EBM3_Jacobian_Reserve (get_bc sys k))).
      reflexivity. }
    rewrite !fold_left_app.
    rewrite (jacobian_flag_loop sys L lxx JRegion
               (fun k => Region.EBM3_Jacobian (region sys k) lxx))
      by reflexivity.
    rewrite Htd.
    rewrite (jacobian_flag_loop sys L lxx JHangingNode
               (fun k => Region.EBM3_Jacobian_Hanging_Node (region sys k) lxx))
      by reflexivity.
    rewrite (jacobian_rows_loop sys L lxx JBCPreprocess
               (fun b => (if BC.is_spice_electrode (get_bc sys b)
                          then BC.MixA_EBM3_Jacobian_Preprocess (get_bc sys b)
                          else BC.EBM3_Jacobian_Preprocess (get_bc sys b))
                           lxx))
      by reflexivity.
    rewrite (jacobian_flag_loop sys L lxx JBCAssemble
               (fun b => (if BC.is_spice_electrode (get_bc sys b)
                          then BC.MixA_EBM3_Jacobian (get_bc sys b)
                          else BC.EBM3_Jacobian (get_bc sys b)) lxx))
      by reflexivity.
    unfold st', build_petsc_sens_jacobian, jacobian_assemble.
    fold lxx. fold L. cbv zeta.
    rewrite (bc_loop_select lxx (n_bcs sys)
               (fun b => BC.is_spice_electrode (get_bc sys b))
               (fun b => BC.MixA_EBM3_Jacobian_Preprocess (get_bc sys b))
               (fun b => BC.EBM3_Jacobian_Preprocess (get_bc sys b))
               _ fst snd).
    rewrite (bc_loop_select lxx (n_bcs sys)
               (fun b => BC.is_spice_electrode (get_bc sys b))
               (fun b => BC.MixA_EBM3_Jacobian (get_bc sys b))
               (fun b => BC.EBM3_Jacobian (get_bc sys b))
               _ fst snd).
    destruct (jacobian_matrix_first_assemble st); cbn [negb].
    + cbn. destruct TimeDependent; rewrite <- ?surjective_pairing;
        reflexivity.
    + rewrite (bc_loop_select_reserve (n_bcs sys)
                 (fun b => BC.is_spice_electrode (get_bc sys b))
                 (fun b => BC.MixA_EBM3_Jacobian_Reserve (get_bc sys b))
                 (fun b => BC.EBM3_Jacobian_Reserve (get_bc sys b))
                 _ fst snd).
      rewrite !fold_left_app. rewrite Hres. cbn.
      destruct TimeDependent; rewrite <- ?surjective_pairing; reflexivity.
  - intros TD' b. unfold st'. cbn [build_petsc_sens_jacobian
                                    jacobian_matrix_first_assemble].
    destruct (Hin TD' true) as [HR HI]. split.
    + intro Hc. apply HR in Hc. destruct Hc as [Hc _]. discriminate Hc.
    + intro Hc. apply HI in Hc. discriminate Hc.
Qed.

(** ** [flush_system] before a rollback *)

Section FlushFacts.
Variables RegionData CircuitData : Type.
Variable H : SolverHooks RegionData CircuitData.

(** The part of the contract of the calls that the flush relies on. *)
Variable owned : RegionData -> list nat.
Variable ckt_slots : list nat.
Variables current saved : CircuitData -> Array.

Hypothesis fill_frame :
  forall d x L i, ~ In i (owned d) -> fst (EBM3_Fill_Value H d x L) i = x i.
Hypothesis fill_update :
  forall d lx x L i, In i (owned d) ->
    fst (EBM3_Fill_Value H (EBM3_Update_Solution H d lx) x L) i = lx i.
Hypothesis update_owned :
  forall d lx, owned (EBM3_Update_Solution H d lx) = owned d.
Hypothesis scatter_owned :
  forall d x i, In i (owned d) -> sol_scatter H x i = x i.
Hypothesis restore_snapshot :
  forall c, current (restore_solution H c) = saved c.
Hypothesis spice_fill_frame :
  forall c x L i, ~ In i ckt_slots -> fst (spice_fill_value H c x L) i = x i.

(** X13.  [flush_system(v)] stores [v] in the regions and touches neither
    [x], [L] nor the circuit.  A [diverged_recovery] that follows therefore
    loads [v], no longer the last accepted solution, into every region
    slot of [x], while on the last processor the circuit goes back to the
    snapshot it held before the flush. *)
Theorem flush_system_redirects_recovery
    (last_processor : bool) (v : Array)
    (st : SolverState RegionData CircuitData) :
  (forall d i, In d (sol_regions st) -> In i (owned d) -> ~ In i ckt_slots) ->
  let st1 := flush_system H v st in
  let st2 := diverged_recovery H last_processor st1 in
  sol_x st1 = sol_x st /\ sol_L st1 = sol_L st /\
  sol_circuit st1 = sol_circuit st /\
  (forall d i, In d (sol_regions st) -> In i (owned d) -> sol_x st2 i = v i) /\
  (last_processor = true ->
   current (sol_circuit st2) = saved (sol_circuit st)) /\
  (last_processor = false -> sol_circuit st2 = sol_circuit st).
Proof.
  intros Hdis st1 st2.
  split; [reflexivity|]. split; [reflexivity|]. split; [reflexivity|].
  split; [|split].
  - intros d i Hd Hi. unfold st2, st1, diverged_recovery, flush_system.
    cbn [sol_x sol_L sol_regions sol_circuit].
    rewrite spice_fill_frame by now apply (Hdis d).
    rewrite (fill_loop_updated RegionData CircuitData H owned fill_frame
               fill_update update_owned _ _ _ _ d i Hd Hi).
    now apply (scatter_owned d).
  - intros ->. unfold st2, st1, diverged_recovery, flush_system.
    cbn [sol_circuit]. apply restore_snapshot.
  - intros ->. reflexivity.
Qed.
End FlushFacts.

Lemma flush_system_redirects_recovery_witness :
  sol_x (diverged_recovery Examples.simple_hooks true
           (flush_system Examples.simple_hooks (fun _ => 5)
              Examples.accepted)) 1%nat
  = 5.
Proof.
  refine (proj1 (proj2 (proj2 (proj2
    (flush_system_redirects_recovery
       Examples.region_data Examples.circuit_data Examples.simple_hooks
       fst [6; 7]%nat fst snd _ _ _ _ _ _
       true (fun _ => 5) Examples.accepted _))))
    ([0; 1; 2; 3; 4; 5]%nat, VecZeroEntries) 1%nat _ _).
  - intros d x L i Hi. unfold Examples.simple_hooks, EBM3_Fill_Value.
    cbn [fst snd]. now rewrite in_slots_false.
  - intros d lx x L i Hi.
    unfold Examples.simple_hooks, EBM3_Fill_Value, EBM3_Update_Solution.
    cbn [fst snd] in *. now rewrite in_slots_true.
  - reflexivity.
  - reflexivity.
  - reflexivity.
  - intros c x L i Hi. unfold Examples.simple_hooks, spice_fill_value.
    cbn [fst snd]. now rewrite in_slots_false.
  - intros d i [<- | []] Hi. simpl in *. intuition lia.
  - left; reflexivity.
  - simpl. auto.
Defined.

(** ** When the norms are defined *)

Lemma collect_none {A B : Type} (f : A -> option B) (l : list A) :
  collect (map f l) = None <-> exists a, In a l /\ f a = None.
Proof.
  induction l as [|a l IH]; simpl.
  - split; [discriminate|]. intros (a & [] & _).
  - destruct (f a) as [b|] eqn:Ha.
    + destruct (collect (map f l)) as [r|].
      * split; [discriminate|].
        intros (a' & [<- | Hin] & Hn); [congruence|].
        exfalso. assert (Hx : Some r = None) by (apply IH; now exists a').
        discriminate Hx.
      * split; [|reflexivity]. intros _.
        destruct (proj1 IH eq_refl) as (a' & Hin & Hn).
        exists a'. auto.
    + split; [|reflexivity]. intros _. exists a. auto.
Qed.

Lemma fold_option_none {A S : Type} (step : option S -> A -> option S)
    (bad : A -> Prop) (l : list A) :
  (forall a, step None a = None) ->
  (forall s a, step (Some s) a = None <-> bad a) ->
  forall s, fold_left step l (Some s) = None <-> exists a, In a l /\ bad a.
Proof.
  intros Hnone Hbad.
  assert (Hstuck : forall l', fold_left step l' None = None).
  { induction l' as [|a l' IH]; simpl; [reflexivity|].
    now rewrite Hnone. }
  induction l as [|a l IH]; intro s; simpl.
  - split; [discriminate|]. intros (a & [] & _).
  - destruct (step (Some s) a) as [s'|] eqn:Hs.
    + rewrite IH. split.
      * intros (a' & Hin & Hb). exists a'. auto.
      * intros (a' & [<- | Hin] & Hb).
        -- apply (Hbad s) in Hb. congruence.
        -- exists a'. auto.
    + rewrite Hstuck. split; [|reflexivity]. intros _.
      exists a. split; [now left|]. now apply (Hbad s).
Qed.

Lemma error_norm_local_none (r : NormRank) :
  error_norm_local r = None
  <-> exists region, In region (regions (nr_proc r))
                     /\ type region = InvalidRegion.
Proof.
  unfold error_norm_local.
  apply (fold_option_none (error_norm_region (nr_x r) (nr_f r))
           (fun region => type region = InvalidRegion)).
  - reflexivity.
  - intros s region. unfold error_norm_region.
    destruct (type region); split; intro Hx; try discriminate; reflexivity.
Qed.

(** X14.  [error_norm] reaches [genius_error()] exactly when some region of
    some rank has a type outside the five the switch knows; in every other
    run it returns with all norm members set. *)
Theorem error_norm_defined_iff (sqrt : Q -> Q) (PU : PhysicalUnit.t)
    (ranks : list NormRank) :
  (error_norm sqrt PU ranks = None
   <-> exists r region, In r ranks /\ In region (regions (nr_proc r))
                        /\ type region = InvalidRegion) /\
  ((forall r region, In r ranks -> In region (regions (nr_proc r)) ->
      type region <> InvalidRegion)
   -> exists m, error_norm sqrt PU ranks = Some m).
Proof.
  assert (Hiff : error_norm sqrt PU ranks = None
                 <-> exists r region, In r ranks
                       /\ In region (regions (nr_proc r))
                       /\ type region = InvalidRegion).
  { unfold error_norm.
    destruct (collect (map error_norm_local ranks)) as [locals|] eqn:Hc.
    - split; [discriminate|].
      intros (r & region & Hr & Hreg & Ht). exfalso.
      assert (Hn : collect (map error_norm_local ranks) = None).
      { apply collect_none. exists r. split; [exact Hr|].
        apply error_norm_local_none. now exists region. }
      congruence.
    - split; [|reflexivity]. intros _.
      apply collect_none in Hc. destruct Hc as (r & Hr & Hn).
      apply error_norm_local_none in Hn. destruct Hn as (region & Hreg & Ht).
      exists r, region. auto. }
  split; [exact Hiff|]. intro Hvalid.
  destruct (error_norm sqrt PU ranks) as [m|] eqn:He; [now exists m|].
  exfalso. destruct (proj1 Hiff eq_refl) as (r & region & Hr & Hreg & Ht).
  exact (Hvalid r region Hr Hreg Ht).
Qed.

Lemma LTE_local_none (S : SolverSpecify.t) (r : LTERank) :
  LTE_local S r = None
  <-> exists region, In region (regions (lte_proc r))
                     /\ type region = InvalidRegion.
Proof.
  unfold LTE_local.
  rewrite <- (fold_option_none
                (LTE_region (SolverSpecify.TS_rtol S)
                            (SolverSpecify.TS_atol S) (lte_x r))
                (fun region => type region = InvalidRegion)
                (regions (lte_proc r))
                (fun a => eq_refl)
                ltac:(intros [ll N] region; unfold LTE_region;
                      destruct (type region); split; intro Hx;
                      try discriminate; reflexivity)
                (snd (LTE_predict S (lte_x r) (lte_x_n r) (lte_x_n1 r)
                        (lte_x_n2 r)), 0%Z)).
  destruct (fold_left _ _ _); split; intro Hx; try discriminate; reflexivity.
Qed.

(** X15.  [LTE_norm] reaches [genius_error()] exactly when some region of
    some rank has a type outside the five the switch knows; in every other
    run it returns a value. *)
Theorem LTE_norm_defined_iff (sqrt : Q -> Q) (S : SolverSpecify.t)
    (ranks : list LTERank) :
  (LTE_norm sqrt S ranks = None
   <-> exists r region, In r ranks /\ In region (regions (lte_proc r))
                        /\ type region = InvalidRegion) /\
  ((forall r region, In r ranks -> In region (regions (lte_proc r)) ->
      type region <> InvalidRegion)
   -> exists v, LTE_norm sqrt S ranks = Some v).
Proof.
  assert (Hiff : LTE_norm sqrt S ranks = None
                 <-> exists r region, In r ranks
                       /\ In region (regions (lte_proc r))
                       /\ type region = InvalidRegion).
  { unfold LTE_norm.
    destruct (collect (map (LTE_local S) ranks)) as [locals|] eqn:Hc.
    - split; [destruct (0 <? LTE_N locals)%Z; discriminate|].
      intros (r & region & Hr & Hreg & Ht). exfalso.
      assert (Hn : collect (map (LTE_local S) ranks) = None).
      { apply collect_none. exists r. split; [exact Hr|].
        apply LTE_local_none. now exists region. }
      congruence.
    - split; [|reflexivity]. intros _.
      apply collect_none in Hc. destruct Hc as (r & Hr & Hn).
      apply LTE_local_none in Hn. destruct Hn as (region & Hreg & Ht).
      exists r, region. auto. }
  split; [exact Hiff|]. intro Hvalid.
  destruct (LTE_norm sqrt S ranks) as [v|] eqn:He; [now exists v|].
  exfalso. destruct (proj1 Hiff eq_refl) as (r & region & Hr & Hreg & Ht).
  exact (Hvalid r region Hr Hreg Ht).
Qed.

(** ** What [error_norm] passes to [sqrt] *)

Lemma square_nonneg (a : Q) : 0 <= a * a.
Proof.
  destruct (Qlt_le_dec a 0) as [Hneg | Hpos].
  - assert (E : a * a == (- a) * (- a)) by ring. rewrite E.
    apply Qmult_le_0_compat; lra.
  - now apply Qmult_le_0_compat.
Qed.

Lemma ratio_square_nonneg (a b : Q) : 0 <= a / b * a / b.
Proof.
  assert (E : a / b * a / b == (a / b) * (a / b))
    by (unfold Qdiv; ring).
  rewrite E. apply square_nonneg.
Qed.

Lemma Parallel_sum_Q_nonneg (l : list Q) :
  (forall q, In q l -> 0 <= q) -> 0 <= Parallel_sum_Q l.
Proof.
  unfold Parallel_sum_Q.
  assert (Hgen : forall acc, 0 <= acc -> (forall q, In q l -> 0 <= q) ->
                             0 <= fold_left Qplus l acc).
  { induction l as [|q l IH]; simpl; intros acc Hacc Hl; [exact Hacc|].
    apply IH.
    - specialize (Hl q (or_introl eq_refl)). lra.
    - intros q' Hq'. apply Hl. now right. }
  apply Hgen. apply Qle_refl.
Qed.

Lemma collect_some_in {A B : Type} (f : A -> option B) (l : list A)
    (bs : list B) (b : B) :
  collect (map f l) = Some bs -> In b bs ->
  exists a, In a l /\ f a = Some b.
Proof.
  revert bs. induction l as [|a l IH]; simpl; intros bs Hc Hb.
  - injection Hc as <-. contradiction.
  - destruct (f a) as [b0|] eqn:Ha; [|discriminate].
    destruct (collect (map f l)) as [r|]; [|discriminate].
    injection Hc as <-. destruct Hb as [<- | Hb].
    + exists a. auto.
    + destruct (IH r eq_refl Hb) as (a' & Hin & Hf). exists a'. auto.
Qed.

Section ErrorNormFacts.

Let nonneg (m : Norms.t) : Prop :=
  0 <= Norms.potential_norm m /\ 0 <= Norms.electron_norm m /\
  0 <= Norms.hole_norm m /\ 0 <= Norms.temperature_norm m /\
  0 <= Norms.elec_temperature_norm m /\
  0 <= Norms.hole_temperature_norm m /\
  0 <= Norms.poisson_norm m /\ 0 <= Norms.elec_continuity_norm m /\
  0 <= Norms.hole_continuity_norm m /\ 0 <= Norms.heat_equation_norm m /\
  0 <= Norms.elec_energy_equation_norm m /\
  0 <= Norms.hole_energy_equation_norm m.

Lemma add_square_nonneg (s a : Q) : 0 <= s -> 0 <= s + a * a.
Proof. intro Hs. pose proof (square_nonneg a). lra. Qed.

Lemma add_ratio_square_nonneg (s a b : Q) : 0 <= s -> 0 <= s + a / b * a / b.
Proof. intro Hs. pose proof (ratio_square_nonneg a b). lra. Qed.

Lemma error_norm_node_semiconductor_nonneg (region : SimulationRegion)
    (xx ff : Array) (m : Norms.t) (nd : FVM_Node) :
  nonneg m -> nonneg (error_norm_node_semiconductor region xx ff m nd).
Proof.
  unfold nonneg, error_norm_node_semiconductor.
  intros (H1 & H2 & H3 & H4 & H5 & H6 & H7 & H8 & H9 & H10 & H11 & H12).
  cbn [Norms.potential_norm Norms.electron_norm Norms.hole_norm
       Norms.temperature_norm Norms.elec_temperature_norm
       Norms.hole_temperature_norm Norms.poisson_norm
       Norms.elec_continuity_norm Norms.hole_continuity_norm
       Norms.heat_equation_norm Norms.elec_energy_equation_norm
       Norms.hole_energy_equation_norm].
  destruct (enable_Tl _), (enable_Tn _), (enable_Tp _);
    repeat split;
    first [ assumption
          | now apply add_square_nonneg
          | now apply add_ratio_square_nonneg ].
Qed.

Lemma error_norm_node_insulator_nonneg (region : SimulationRegion)
    (xx ff : Array) (m : Norms.t) (nd : FVM_Node) :
  nonneg m -> nonneg (error_norm_node_insulator region xx ff m nd).
Proof.
  unfold nonneg, error_norm_node_insulator.
  intros (H1 & H2 & H3 & H4 & H5 & H6 & H7 & H8 & H9 & H10 & H11 & H12).
  cbn [Norms.potential_norm Norms.electron_norm Norms.hole_norm
       Norms.temperature_norm Norms.elec_temperature_norm
       Norms.hole_temperature_norm Norms.poisson_norm
       Norms.elec_continuity_norm Norms.hole_continuity_norm
       Norms.heat_equation_norm Norms.elec_energy_equation_norm
       Norms.hole_energy_equation_norm].
  destruct (enable_Tl _);
    repeat split;
    first [ assumption | now apply add_square_nonneg ].
Qed.

Lemma fold_left_invariant {A S : Type} (inv : S -> Prop)
    (step : S -> A -> S) (l : list A) (s : S) :
  (forall s a, inv s -> inv (step s a)) -> inv s -> inv (fold_left step l s).
Proof.
  intro Hstep. revert s. induction l as [|a l IH]; simpl; intros s Hs;
    [exact Hs|]. apply IH. now apply Hstep.
Qed.

Lemma error_norm_regions_nonneg (xx ff : Array) (l : list SimulationRegion)
    (m0 m : Norms.t) :
  nonneg m0 ->
  fold_left (error_norm_region xx ff) l (Some m0) = Some m -> nonneg m.
Proof.
  revert m0. induction l as [|region l IH]; simpl; intros m0 H0 Hf.
  - injection Hf as <-. exact H0.
  - destruct (type region) eqn:Ht.
    6: { assert (Hstuck : forall l', fold_left (error_norm_region xx ff) l'
                                       None = None)
           by (induction l' as [|a l' IH']; simpl; auto).
         rewrite Hstuck in Hf. discriminate Hf. }
    5: { now apply (IH m0). }
    1: { eapply IH; [|exact Hf].
         apply (fold_left_invariant nonneg); [|exact H0].
         intros s a. apply error_norm_node_semiconductor_nonneg. }
    all: eapply IH; [|exact Hf];
      apply (fold_left_invariant nonneg); [|exact H0];
      intros s a; apply error_norm_node_insulator_nonneg.
Qed.

Lemma error_norm_local_nonneg (r : NormRank) (m : Norms.t) :
  error_norm_local r = Some m -> nonneg m.
Proof.
  unfold error_norm_local.
  apply error_norm_regions_nonneg.
  unfold nonneg, error_norm_clear. simpl. repeat split; apply Qle_refl.
Qed.

End ErrorNormFacts.

(** X16.  Every number that [error_norm] passes to [sqrt] is a sum of
    squares over the nodes and ranks and hence non-negative: with [s] the
    members the routine would leave if [sqrt] were the identity, each of
    the twelve norms on return is [sqrt] of the matching member of [s],
    which is at least 0; [electrode_norm] is 0. *)
Theorem error_norm_sqrt_arguments (sqrt : Q -> Q) (PU : PhysicalUnit.t)
    (ranks : list NormRank) (m : Norms.t) :
  error_norm sqrt PU ranks = Some m ->
  exists s,
    error_norm (fun q => q) PU ranks = Some s /\
    Forall (fun field : Norms.t -> Q =>
              field m = sqrt (field s) /\ 0 <= field s)
           [Norms.potential_norm; Norms.electron_norm; Norms.hole_norm;
            Norms.temperature_norm; Norms.elec_temperature_norm;
            Norms.hole_temperature_norm; Norms.poisson_norm;
            Norms.elec_continuity_norm; Norms.hole_continuity_norm;
            Norms.heat_equation_norm; Norms.elec_energy_equation_norm;
            Norms.hole_energy_equation_norm] /\
    Norms.electrode_norm m = 0 /\
    Norms.spice_norm m = Norms.spice_norm s.
Proof.
  unfold error_norm.
  destruct (collect (map error_norm_local ranks)) as [locals|] eqn:Hc;
    [|discriminate].
  intro Hm. injection Hm as <-.
  eexists. split; [reflexivity|].
  assert (Hnn : forall l, In l locals ->
            0 <= Norms.potential_norm l /\ 0 <= Norms.electron_norm l /\
            0 <= Norms.hole_norm l /\ 0 <= Norms.temperature_norm l /\
            0 <= Norms.elec_temperature_norm l /\
            0 <= Norms.hole_temperature_norm l /\
            0 <= Norms.poisson_norm l /\ 0 <= Norms.elec_continuity_norm l /\
            0 <= Norms.hole_continuity_norm l /\
            0 <= Norms.heat_equation_norm l /\
            0 <= Norms.elec_energy_equation_norm l /\
            0 <= Norms.hole_energy_equation_norm l).
  { intros l Hl.
    destruct (collect_some_in error_norm_local ranks locals l Hc Hl)
      as (r & _ & Hr).
    exact (error_norm_local_nonneg r l Hr). }
  assert (Hsum : forall field : Norms.t -> Q,
            (forall l, In l locals -> 0 <= field l) ->
            0 <= Parallel_sum_Q (map field locals)).
  { intros field Hf. apply Parallel_sum_Q_nonneg.
    intros q Hq. apply in_map_iff in Hq. destruct Hq as (l & <- & Hl).
    now apply Hf. }
  split; [|split; reflexivity].
  repeat (apply Forall_cons; [split; [reflexivity|]; cbn [Norms.potential_norm Norms.electron_norm Norms.hole_norm
       Norms.temperature_norm Norms.elec_temperature_norm
       Norms.hole_temperature_norm Norms.poisson_norm
       Norms.elec_continuity_norm Norms.hole_continuity_norm
       Norms.heat_equation_norm Norms.elec_energy_equation_norm
       Norms.hole_energy_equation_norm];
          apply Hsum; intros l Hl; apply (Hnn l Hl)|]).
  apply Forall_nil.
Qed.

Lemma error_norm_sqrt_arguments_witness :
  exists s,
    error_norm (fun q => q) Examples.units
      [mkNormRank Examples.ebm_proc Examples.x0 Examples.y0
         (Norms.mk 1 1 1 1 1 1 1 1 1 1 1 1 1 1) 0] = Some s /\
    0 <= Norms.poisson_norm s.
Proof.
  destruct (error_norm_sqrt_arguments Examples.sqrt_stub Examples.units
              [mkNormRank Examples.ebm_proc Examples.x0 Examples.y0
                 (Norms.mk 1 1 1 1 1 1 1 1 1 1 1 1 1 1) 0]
              _ eq_refl) as (s & Hs & Hall & _).
  exists s. split; [exact Hs|].
  do 6 apply Forall_inv_tail in Hall.
  exact (proj2 (Forall_inv Hall)).
Defined.

(** ** [positive_density_damping] for small steps of the potential *)

Lemma fold_left_ext_in {A S : Type} (f g : S -> A -> S) (l : list A) (s : S) :
  (forall s a, In a l -> f s a = g s a) -> fold_left f l s = fold_left g l s.
Proof.
  revert s. induction l as [|a l IH]; simpl; intros s Hfg; [reflexivity|].
  rewrite (Hfg s a) by now left. apply IH.
  intros s' a' Ha'. apply Hfg. now right.
Qed.

(** X18.  When no semiconductor on-processor node has a Newton step of the
    potential above 1 and the electron density sits at [local_offset+1],
    [positive_density_damping] does to the candidate exactly what
    [projection_positive_density_check] does to it, with the previous
    iterate [x] as reference. *)
Theorem positive_density_damping_small_steps (PU : PhysicalUnit.t)
    (P : Process) (x y w : Array) :
  wf_electron_offset P ->
  (forall region nd,
      In region (regions P) -> type region = SemiconductorRegion ->
      In nd (on_processor_nodes region) ->
      Qabs (y (slot region nd POTENTIAL)) <= 1) ->
  positive_density_damping PU P x y w
  = projection_positive_density_check PU P w x.
Proof.
  intros He Hsmall.
  unfold positive_density_damping, projection_positive_density_check.
  apply fold_left_ext_in. intros w0 region Hr.
  unfold positive_density_region, projection_region.
  destruct (type region) eqn:Ht; simpl; try reflexivity.
  apply fold_left_ext_in. intros w1 nd Hn.
  unfold positive_density_node, projection_node.
  rewrite (He region Hr Ht).
  fold (slot region nd POTENTIAL).
  destruct (Qlt_le_dec 1 (Qabs (y (slot region nd POTENTIAL)))) as [Hlt | _];
    [exfalso; exact (Qlt_not_le _ _ Hlt (Hsmall region nd Hr Ht Hn))|].
  reflexivity.
Qed.

Lemma positive_density_damping_small_steps_witness :
  positive_density_damping Examples.units Examples.ebm_proc Examples.x0
    VecZeroEntries Examples.w0
  = projection_positive_density_check Examples.units Examples.ebm_proc
      Examples.w0 Examples.x0.
Proof.
  apply positive_density_damping_small_steps.
  - intros region [<- | []] _. reflexivity.
  - intros region nd [<- | []] _ [<- | []]. vm_compute. discriminate.
Defined.
